(** * Governance policy engine and workflow engine of the sales platform

    A shallow embedding of [app/core/governance.py] (policy rules, policy
    engine, RBAC manager, audit manager, governance coordinator) and of
    [app/core/workflow_engine.py] (step executors and the dependency-driven
    execution loop), with the properties of their specification stated and
    settled against the embedding. *)

From stdpp Require Import gmap strings list fin_maps pretty sorting.

Set Warnings "-register-all,-clear-no-such-hyp".

Local Open Scope string_scope.
Local Open Scope list_scope.
Local Open Scope Z_scope.

(** ** Python values, exceptions and dictionaries *)

(** Exceptions the embedded code can raise. [OtherError] carries [str(e)]. *)
Inductive exn :=
  | TypeError
  | ValueError (msg : string)
  | KeyError (key : string)
  | ReError
  | TimeoutError
  | OtherError (msg : string).

Inductive result (A : Type) :=
  | Ok (a : A)
  | Raise (e : exn).
Arguments Ok {A} a.
Arguments Raise {A} e.

#[global] Instance result_ret : MRet result := @Ok.
#[global] Instance result_bind : MBind result := λ A B f r,
  match r with
  | Ok a => f a
  | Raise e => Raise e
  end.

(** Code that threads a state [S] and may raise: the state reached when the
    exception is raised is kept, as the mutations of a Python object are. *)
Definition M (S A : Type) : Type := S → result A * S.

#[global] Instance M_ret {S} : MRet (M S) := λ A a s, (Ok a, s).
#[global] Instance M_bind {S} : MBind (M S) := λ A B f m s,
  match m s with
  | (Ok a, s') => f a s'
  | (Raise e, s') => (Raise e, s')
  end.

Definition get_state {S} : M S S := λ s, (Ok s, s).
Definition modify {S} (f : S → S) : M S unit := λ s, (Ok (), f s).
Definition raise {S A} (e : exn) : M S A := λ s, (Raise e, s).
Definition lift {S A} (r : result A) : M S A := λ s, (r, s).

(** A dictionary in insertion order. Keys of a real dictionary are distinct;
    [dict_get] returns the first binding, [dict_set] overwrites in place or
    appends, as a Python dict does. *)
Fixpoint dict_get {V} (k : string) (d : list (string * V)) : option V :=
  match d with
  | [] => None
  | (k', v) :: d' => if String.eqb k k' then Some v else dict_get k d'
  end.

Fixpoint dict_set {V} (k : string) (v : V) (d : list (string * V)) : list (string * V) :=
  match d with
  | [] => [(k, v)]
  | (k', v') :: d' =>
      if String.eqb k k' then (k', v) :: d' else (k', v') :: dict_set k v d'
  end.

Fixpoint dict_remove {V} (k : string) (d : list (string * V)) : list (string * V) :=
  match d with
  | [] => []
  | (k', v') :: d' =>
      if String.eqb k k' then d' else (k', v') :: dict_remove k d'
  end.

(** [d.pop(k)]: raises [KeyError] when the key is absent. *)
Definition dict_pop {V} (k : string) (d : list (string * V)) : result (list (string * V)) :=
  match dict_get k d with
  | Some _ => Ok (dict_remove k d)
  | None => Raise (KeyError k)
  end.

(** The JSON-like fragment of Python's [Any] that rule conditions, contexts
    and step configurations hold. Floats are left out. *)
Inductive value :=
  | VNone
  | VBool (b : bool)
  | VInt (z : Z)
  | VStr (s : string)
  | VList (l : list value)
  | VDict (d : list (string * value)).

(** Python's [==]: [True == 1] and [False == 0]; lists compare element by
    element, dictionaries regardless of order. *)
Fixpoint py_eq (a b : value) : bool :=
  match a, b with
  | VNone, VNone => true
  | VBool x, VBool y => Bool.eqb x y
  | VBool x, VInt y => Z.eqb (Z.b2z x) y
  | VInt x, VBool y => Z.eqb x (Z.b2z y)
  | VInt x, VInt y => Z.eqb x y
  | VStr x, VStr y => String.eqb x y
  | VList xs, VList ys =>
      (fix go (xs ys : list value) : bool :=
         match xs, ys with
         | [], [] => true
         | x :: xs', y :: ys' => py_eq x y && go xs' ys'
         | _, _ => false
         end) xs ys
  | VDict d1, VDict d2 =>
      Nat.eqb (length d1) (length d2) &&
      (fix go (d : list (string * value)) : bool :=
         match d with
         | [] => true
         | (k, v) :: d' =>
             match dict_get k d2 with
             | Some v2 => py_eq v v2
             | None => false
             end && go d'
         end) d1
  | _, _ => false
  end.

(** [sub in s] on strings. *)
Fixpoint py_str_in (sub s : string) : bool :=
  String.prefix sub s ||
  match s with
  | EmptyString => false
  | String _ s' => py_str_in sub s'
  end.

(** [x in container]: membership by [==] in a list, substring in a string
    (a non-string left operand raises), key membership in a dictionary (an
    unhashable left operand raises); anything else is not iterable. *)
Definition py_in (x container : value) : result bool :=
  match container with
  | VList l => Ok (existsb (py_eq x) l)
  | VStr s =>
      match x with
      | VStr sub => Ok (py_str_in sub s)
      | _ => Raise TypeError
      end
  | VDict d =>
      match x with
      | VStr k => Ok (bool_decide (is_Some (dict_get k d)))
      | VList _ | VDict _ => Raise TypeError
      | _ => Ok false
      end
  | _ => Raise TypeError
  end.

(** What the embedded code takes from its runtime: the regular-expression
    matcher, [repr] of containers, the clock, the id generator and the
    timestamp format. The clock and the id generator are sequences, read
    through counters kept in the state. *)
Class Runtime := {
  re_match : value → string → result bool;
  py_repr : value → string;
  utcnow : nat → Z;
  uuid4 : nat → string;
  isoformat : Z → string;
}.

Section WithRuntime.
Context `{RT : Runtime}.

(** [str(v)]. *)
Definition py_str (v : value) : string :=
  match v with
  | VNone => "None"
  | VBool true => "True"
  | VBool false => "False"
  | VInt z => pretty z
  | VStr s => s
  | VList _ | VDict _ => py_repr v
  end.

(** [d.get(k)] on a context: [None] when the key is absent. *)
Definition py_get (d : gmap string value) (k : string) : value :=
  default VNone (d !! k).

(** ** Policy rules *)

Inductive PolicyType :=
  | DATA_ACCESS | AI_BEHAVIOR | COMMUNICATION | RETENTION | PRIVACY
  | SECURITY | COMPLIANCE.

Definition PolicyType_value (t : PolicyType) : string :=
  match t with
  | DATA_ACCESS => "data_access"
  | AI_BEHAVIOR => "ai_behavior"
  | COMMUNICATION => "communication"
  | RETENTION => "retention"
  | PRIVACY => "privacy"
  | SECURITY => "security"
  | COMPLIANCE => "compliance"
  end.

Definition all_PolicyType : list PolicyType :=
  [DATA_ACCESS; AI_BEHAVIOR; COMMUNICATION; RETENTION; PRIVACY; SECURITY; COMPLIANCE].

(** [PolicyType(s)]: the member whose value is [s]. *)
Definition PolicyType_of_value (s : string) : option PolicyType :=
  find (λ t, String.eqb (PolicyType_value t) s) all_PolicyType.

Inductive PolicyAction :=
  | ALLOW | DENY | REQUIRE_APPROVAL | LOG_ONLY | REDACT.

Definition PolicyAction_value (a : PolicyAction) : string :=
  match a with
  | ALLOW => "allow"
  | DENY => "deny"
  | REQUIRE_APPROVAL => "require_approval"
  | LOG_ONLY => "log_only"
  | REDACT => "redact"
  end.

Definition all_PolicyAction : list PolicyAction :=
  [ALLOW; DENY; REQUIRE_APPROVAL; LOG_ONLY; REDACT].

Definition PolicyAction_of_value (s : string) : option PolicyAction :=
  find (λ a, String.eqb (PolicyAction_value a) s) all_PolicyAction.

#[global] Instance PolicyType_eq_dec : EqDecision PolicyType.
Proof. solve_decision. Defined.

#[global] Instance PolicyAction_eq_dec : EqDecision PolicyAction.
Proof. solve_decision. Defined.

#[global] Instance PolicyType_countable : Countable PolicyType :=
  inj_countable PolicyType_value PolicyType_of_value ltac:(by intros []).

(** [conditions] keeps the dictionary's insertion order; [created_at] is
    never read and is left out. *)
Record PolicyRule := {
  rule_id : string;
  name : string;
  description : string;
  policy_type : PolicyType;
  conditions : list (string * value);
  action : PolicyAction;
  metadata : list (string * value);
  priority : Z;
  enabled : bool;
}.

(** One iteration of the loop of [PolicyRule.matches]: [Ok false] is the
    [return False], [Ok true] falls through to the next condition. *)
Definition condition_holds (condition_value context_value : value) : result bool :=
  match condition_value with
  | VDict d =>
      let operator := default (VStr "equals") (dict_get "operator" d) in
      let values := default (default VNone (dict_get "value" d)) (dict_get "values" d) in
      if py_eq operator (VStr "equals") then
        Ok (py_eq context_value values)
      else if py_eq operator (VStr "in") then
        py_in context_value values
      else if py_eq operator (VStr "not_in") then
        b ← py_in context_value values; Ok (negb b)
      else if py_eq operator (VStr "contains") then
        py_in values (VStr (py_str context_value))
      else if py_eq operator (VStr "regex") then
        re_match values (py_str context_value)
      else Ok true
  | _ => Ok (py_eq context_value condition_value)
  end.

Fixpoint conditions_hold (cs : list (string * value)) (context : gmap string value)
  : result bool :=
  match cs with
  | [] => Ok true
  | (condition_key, condition_value) :: cs' =>
      b ← condition_holds condition_value (py_get context condition_key);
      if (b : bool) then conditions_hold cs' context else Ok false
  end.

Definition matches (rule : PolicyRule) (context : gmap string value) : result bool :=
  if negb (enabled rule) then Ok false
  else conditions_hold (conditions rule) context.

(** ** Policy engine *)

(** The summary of a matched rule appended to [violations]. *)
Record Violation := {
  v_rule_id : string;
  v_rule_name : string;
  v_action : PolicyAction;
  v_description : string;
}.

Definition violation_of (rule : PolicyRule) : Violation :=
  {| v_rule_id := rule_id rule;
     v_rule_name := name rule;
     v_action := action rule;
     v_description := description rule |}.

(** The dictionary returned by [evaluate_policies] and extended by the
    handler in [enforce_policy]; [None] is an absent key. *)
Record PolicyResult := {
  pr_action : PolicyAction;
  pr_violations : list Violation;
  pr_context : option (gmap string value);
  pr_allowed : option bool;
  pr_message : option string;
  pr_requires_approval : option bool;
  pr_approval_context : option (gmap string value);
  pr_logged : option bool;
  pr_redacted : option bool;
  pr_redacted_context : option (gmap string value);
}.

Definition evaluation (a : PolicyAction) (vs : list Violation)
    (context : option (gmap string value)) : PolicyResult :=
  {| pr_action := a; pr_violations := vs; pr_context := context;
     pr_allowed := None; pr_message := None; pr_requires_approval := None;
     pr_approval_context := None; pr_logged := None; pr_redacted := None;
     pr_redacted_context := None |}.

(** Rows of the [policies] table: the rules are JSON objects whose enum
    fields are strings and whose last three keys are optional. *)
Record RuleData := {
  rd_rule_id : string;
  rd_name : string;
  rd_description : string;
  rd_policy_type : string;
  rd_conditions : list (string * value);
  rd_action : string;
  rd_metadata : option (list (string * value));
  rd_priority : option Z;
  rd_enabled : option bool;
}.

Record PolicyStorage := {
  policy_id : string;
  ps_name : string;
  ps_policy_type : string;
  ps_rules : list RuleData;
  ps_is_active : bool;
}.

Record PolicyEngine := {
  policies : gmap PolicyType (list PolicyRule);
}.

Definition parse_PolicyType (s : string) : result PolicyType :=
  match PolicyType_of_value s with
  | Some t => Ok t
  | None => Raise (ValueError s)
  end.

Definition parse_PolicyAction (s : string) : result PolicyAction :=
  match PolicyAction_of_value s with
  | Some a => Ok a
  | None => Raise (ValueError s)
  end.

Definition deserialize_rule (rule_data : RuleData) : result PolicyRule :=
  t ← parse_PolicyType (rd_policy_type rule_data);
  a ← parse_PolicyAction (rd_action rule_data);
  Ok {| rule_id := rd_rule_id rule_data;
        name := rd_name rule_data;
        description := rd_description rule_data;
        policy_type := t;
        conditions := rd_conditions rule_data;
        action := a;
        metadata := default [] (rd_metadata rule_data);
        priority := default 100 (rd_priority rule_data);
        enabled := default true (rd_enabled rule_data) |}.

(** [list.sort(key=lambda x: x.priority)]: stable, ascending. *)
Fixpoint insert_by_priority (r : PolicyRule) (l : list PolicyRule) : list PolicyRule :=
  match l with
  | [] => [r]
  | x :: l' =>
      if priority r <=? priority x then r :: x :: l'
      else x :: insert_by_priority r l'
  end.

Definition sort_by_priority (l : list PolicyRule) : list PolicyRule :=
  foldr insert_by_priority [] l.

Fixpoint load_rules (rule_datas : list RuleData) (policy_type : PolicyType)
    (ps : gmap PolicyType (list PolicyRule)) : result (gmap PolicyType (list PolicyRule)) :=
  match rule_datas with
  | [] => Ok ps
  | rule_data :: rest =>
      rule ← deserialize_rule rule_data;
      load_rules rest policy_type
        (<[policy_type := default [] (ps !! policy_type) ++ [rule]]> ps)
  end.

Fixpoint load_stored (stored_policies : list PolicyStorage)
    (ps : gmap PolicyType (list PolicyRule)) : result (gmap PolicyType (list PolicyRule)) :=
  match stored_policies with
  | [] => Ok ps
  | stored_policy :: rest =>
      policy_type ← parse_PolicyType (ps_policy_type stored_policy);
      let ps1 :=
        match ps !! policy_type with
        | Some _ => ps
        | None => <[policy_type := []]> ps
        end in
      ps2 ← load_rules (ps_rules stored_policy) policy_type ps1;
      load_stored rest ps2
  end.

Definition _load_policies (table : list PolicyStorage)
    (ps : gmap PolicyType (list PolicyRule)) : result (gmap PolicyType (list PolicyRule)) :=
  let stored_policies := filter (λ p, ps_is_active p = true) table in
  ps' ← load_stored stored_policies ps;
  Ok (sort_by_priority <$> (ps' : gmap PolicyType (list PolicyRule))).

Definition default_policies : list PolicyRule :=
  [ {| rule_id := "data_access_own_leads";
       name := "Own Leads Access";
       description := "Users can only access leads assigned to them";
       policy_type := DATA_ACCESS;
       conditions :=
         [("resource_type", VStr "lead");
          ("action", VDict [("operator", VStr "in");
                            ("values", VList [VStr "read"; VStr "write"])])];
       action := REQUIRE_APPROVAL;
       metadata := []; priority := 100; enabled := true |};
    {| rule_id := "ai_email_approval";
       name := "AI Email Approval";
       description := "AI-generated emails require human approval";
       policy_type := AI_BEHAVIOR;
       conditions := [("tool_type", VStr "email"); ("ai_generated", VBool true)];
       action := REQUIRE_APPROVAL;
       metadata := []; priority := 100; enabled := true |};
    {| rule_id := "external_email_restriction";
       name := "External Email Restriction";
       description := "Restrict emails to external domains during non-business hours";
       policy_type := COMMUNICATION;
       conditions :=
         [("email_domain", VDict [("operator", VStr "not_in");
                                  ("values", VList [VStr "company.com"])]);
          ("business_hours", VBool false)];
       action := DENY;
       metadata := []; priority := 100; enabled := true |};
    {| rule_id := "pii_redaction";
       name := "PII Redaction";
       description := "Redact personally identifiable information in logs";
       policy_type := PRIVACY;
       conditions := [("contains_pii", VBool true)];
       action := REDACT;
       metadata := []; priority := 100; enabled := true |} ].

Definition rule_id_exists (id : string) (ps : gmap PolicyType (list PolicyRule)) : bool :=
  existsb (λ '(_, rules), existsb (λ rule, String.eqb (rule_id rule) id) rules)
          (map_to_list ps).

Definition add_default (ps : gmap PolicyType (list PolicyRule)) (policy_rule : PolicyRule)
    : gmap PolicyType (list PolicyRule) :=
  if rule_id_exists (rule_id policy_rule) ps then ps
  else <[policy_type policy_rule :=
           default [] (ps !! policy_type policy_rule) ++ [policy_rule]]> ps.

Definition _initialize_default_policies (ps : gmap PolicyType (list PolicyRule))
    : gmap PolicyType (list PolicyRule) :=
  foldl add_default ps default_policies.

(** [PolicyEngine.__init__]: load, then seed the defaults. The handlers it
    registers are the five fixed ones of [policy_handler] below. *)
Definition PolicyEngine_init (table : list PolicyStorage) : result PolicyEngine :=
  ps ← _load_policies table ∅;
  Ok {| policies := _initialize_default_policies ps |}.

(** The [if]/[elif] chain that updates [final_action] for a matched rule
    whose action is not DENY. *)
Definition next_final_action (rule_action final_action : PolicyAction) : PolicyAction :=
  if bool_decide (rule_action = REQUIRE_APPROVAL ∧ final_action = ALLOW)
  then REQUIRE_APPROVAL
  else if bool_decide (rule_action = REDACT ∧ (final_action = ALLOW ∨ final_action = LOG_ONLY))
  then REDACT
  else if bool_decide (rule_action = LOG_ONLY ∧ final_action = ALLOW)
  then LOG_ONLY
  else final_action.

(** The [for] loop of [evaluate_policies], with its two accumulators. *)
Fixpoint evaluate_rules (rules : list PolicyRule) (context : gmap string value)
    (violations : list Violation) (final_action : PolicyAction)
    : result (PolicyAction * list Violation) :=
  match rules with
  | [] => Ok (final_action, violations)
  | rule :: rest =>
      m ← matches rule context;
      if (m : bool) then
        let violations' := violations ++ [violation_of rule] in
        if bool_decide (action rule = DENY) then Ok (DENY, violations')
        else evaluate_rules rest context violations'
               (next_final_action (action rule) final_action)
      else evaluate_rules rest context violations final_action
  end.

Definition evaluate_policies (self : PolicyEngine) (policy_type : PolicyType)
    (context : gmap string value) : result PolicyResult :=
  match policies self !! policy_type with
  | None => Ok (evaluation ALLOW [] None)
  | Some rules =>
      '(final_action, violations) ← evaluate_rules rules context [] ALLOW;
      Ok (evaluation final_action violations (Some context))
  end.

Definition sensitive_fields : list string :=
  ["ssn"; "credit_card"; "password"; "api_key"; "token"].

Definition _redact_sensitive_data (context : gmap string value) : gmap string value :=
  foldl (λ redacted field,
           match redacted !! field with
           | Some _ => <[field := VStr "[REDACTED]"]> redacted
           | None => redacted
           end) context sensitive_fields.

(** [evaluation_result.update(handler(context, evaluation_result))] for the
    handler registered for [action]. *)
Definition policy_handler (a : PolicyAction) (context : gmap string value)
    (ev : PolicyResult) : PolicyResult :=
  match a with
  | ALLOW =>
      {| pr_action := pr_action ev; pr_violations := pr_violations ev;
         pr_context := pr_context ev;
         pr_allowed := Some true; pr_message := Some "Action allowed";
         pr_requires_approval := pr_requires_approval ev;
         pr_approval_context := pr_approval_context ev;
         pr_logged := pr_logged ev; pr_redacted := pr_redacted ev;
         pr_redacted_context := pr_redacted_context ev |}
  | DENY =>
      {| pr_action := pr_action ev; pr_violations := pr_violations ev;
         pr_context := pr_context ev;
         pr_allowed := Some false; pr_message := Some "Action denied by policy";
         pr_requires_approval := pr_requires_approval ev;
         pr_approval_context := pr_approval_context ev;
         pr_logged := pr_logged ev; pr_redacted := pr_redacted ev;
         pr_redacted_context := pr_redacted_context ev |}
  | REQUIRE_APPROVAL =>
      {| pr_action := pr_action ev; pr_violations := pr_violations ev;
         pr_context := pr_context ev;
         pr_allowed := Some false; pr_message := Some "Action requires approval";
         pr_requires_approval := Some true;
         pr_approval_context := Some context;
         pr_logged := pr_logged ev; pr_redacted := pr_redacted ev;
         pr_redacted_context := pr_redacted_context ev |}
  | LOG_ONLY =>
      {| pr_action := pr_action ev; pr_violations := pr_violations ev;
         pr_context := pr_context ev;
         pr_allowed := Some true; pr_message := Some "Action logged";
         pr_requires_approval := pr_requires_approval ev;
         pr_approval_context := pr_approval_context ev;
         pr_logged := Some true; pr_redacted := pr_redacted ev;
         pr_redacted_context := pr_redacted_context ev |}
  | REDACT =>
      {| pr_action := pr_action ev; pr_violations := pr_violations ev;
         pr_context := pr_context ev;
         pr_allowed := Some true; pr_message := Some "Sensitive data redacted";
         pr_requires_approval := pr_requires_approval ev;
         pr_approval_context := pr_approval_context ev;
         pr_logged := pr_logged ev; pr_redacted := Some true;
         pr_redacted_context := Some (_redact_sensitive_data context) |}
  end.

Definition enforce_policy (self : PolicyEngine) (policy_type : PolicyType)
    (context : gmap string value) : result PolicyResult :=
  evaluation_result ← evaluate_policies self policy_type context;
  Ok (policy_handler (pr_action evaluation_result) context evaluation_result).

(** ** Role-based access control *)

Inductive Permission :=
  | READ_LEADS | WRITE_LEADS | DELETE_LEADS
  | READ_ACCOUNTS | WRITE_ACCOUNTS | DELETE_ACCOUNTS
  | READ_OPPORTUNITIES | WRITE_OPPORTUNITIES | DELETE_OPPORTUNITIES
  | EXECUTE_AI_TOOLS | APPROVE_AI_DECISIONS | CONFIGURE_AI_WORKFLOWS
  | ACCESS_AI_MEMORY
  | SEND_EMAILS | SCHEDULE_MEETINGS | MAKE_CALLS
  | MANAGE_USERS | MANAGE_ROLES | VIEW_ANALYTICS | EXPORT_DATA
  | CONFIGURE_SYSTEM
  | VIEW_AUDIT_LOGS | MANAGE_COMPLIANCE | DATA_RETENTION.

Definition Permission_value (p : Permission) : string :=
  match p with
  | READ_LEADS => "read_leads"
  | WRITE_LEADS => "write_leads"
  | DELETE_LEADS => "delete_leads"
  | READ_ACCOUNTS => "read_accounts"
  | WRITE_ACCOUNTS => "write_accounts"
  | DELETE_ACCOUNTS => "delete_accounts"
  | READ_OPPORTUNITIES => "read_opportunities"
  | WRITE_OPPORTUNITIES => "write_opportunities"
  | DELETE_OPPORTUNITIES => "delete_opportunities"
  | EXECUTE_AI_TOOLS => "execute_ai_tools"
  | APPROVE_AI_DECISIONS => "approve_ai_decisions"
  | CONFIGURE_AI_WORKFLOWS => "configure_ai_workflows"
  | ACCESS_AI_MEMORY => "access_ai_memory"
  | SEND_EMAILS => "send_emails"
  | SCHEDULE_MEETINGS => "schedule_meetings"
  | MAKE_CALLS => "make_calls"
  | MANAGE_USERS => "manage_users"
  | MANAGE_ROLES => "manage_roles"
  | VIEW_ANALYTICS => "view_analytics"
  | EXPORT_DATA => "export_data"
  | CONFIGURE_SYSTEM => "configure_system"
  | VIEW_AUDIT_LOGS => "view_audit_logs"
  | MANAGE_COMPLIANCE => "manage_compliance"
  | DATA_RETENTION => "data_retention"
  end.

(** [list(Permission)], in declaration order. *)
Definition all_Permission : list Permission :=
  [READ_LEADS; WRITE_LEADS; DELETE_LEADS; READ_ACCOUNTS; WRITE_ACCOUNTS;
   DELETE_ACCOUNTS; READ_OPPORTUNITIES; WRITE_OPPORTUNITIES;
   DELETE_OPPORTUNITIES; EXECUTE_AI_TOOLS; APPROVE_AI_DECISIONS;
   CONFIGURE_AI_WORKFLOWS; ACCESS_AI_MEMORY; SEND_EMAILS; SCHEDULE_MEETINGS;
   MAKE_CALLS; MANAGE_USERS; MANAGE_ROLES; VIEW_ANALYTICS; EXPORT_DATA;
   CONFIGURE_SYSTEM; VIEW_AUDIT_LOGS; MANAGE_COMPLIANCE; DATA_RETENTION].

(** [Permission(s)]; [None] stands for the [ValueError]. *)
Definition Permission_of_value (s : string) : option Permission :=
  find (λ p, String.eqb (Permission_value p) s) all_Permission.

#[global] Instance Permission_eq_dec : EqDecision Permission.
Proof. solve_decision. Defined.

#[global] Instance Permission_countable : Countable Permission :=
  inj_countable Permission_value Permission_of_value ltac:(by intros []).

Inductive AuditEventType :=
  | USER_LOGIN | USER_LOGOUT | EV_DATA_ACCESS | DATA_MODIFICATION
  | AI_DECISION | TOOL_EXECUTION | POLICY_VIOLATION | PERMISSION_DENIED
  | CONFIGURATION_CHANGE | DATA_EXPORT.

Definition AuditEventType_value (e : AuditEventType) : string :=
  match e with
  | USER_LOGIN => "user_login"
  | USER_LOGOUT => "user_logout"
  | EV_DATA_ACCESS => "data_access"
  | DATA_MODIFICATION => "data_modification"
  | AI_DECISION => "ai_decision"
  | TOOL_EXECUTION => "tool_execution"
  | POLICY_VIOLATION => "policy_violation"
  | PERMISSION_DENIED => "permission_denied"
  | CONFIGURATION_CHANGE => "configuration_change"
  | DATA_EXPORT => "data_export"
  end.

(** The tables the governance code reads and writes. Columns that no code
    path reads (names, e-mail addresses, assignment dates) are left out. *)
Record Role := {
  role_id : string;
  role_name : string;
  role_description : string;
  is_system_role : bool;
}.

Record UserRole := {
  ur_user_id : string;
  ur_role_id : string;
  ur_assigned_by : option string;
}.

Record RolePermission := {
  rp_role_id : string;
  rp_permission : string;
}.

Record AuditLog := {
  audit_id : string;
  al_event_type : string;
  al_user_id : string;
  al_resource_type : option string;
  al_resource_id : option string;
  al_action : string;
  al_timestamp : Z;
  al_ip_address : option string;
  al_user_agent : option string;
  al_details : gmap string value;
  al_policy_violations : list Violation;
}.

Record Database := {
  tbl_roles : list Role;
  tbl_user_roles : list UserRole;
  tbl_role_permissions : list RolePermission;
  tbl_audit_logs : list AuditLog;
  tbl_policies : list PolicyStorage;
}.

(** An entry of [approval_queue]. The three keys written on resolution are
    [None] until then. *)
Record ApprovalRequest := {
  aq_approval_id : string;
  aq_user_id : string;
  aq_action : string;
  aq_context : gmap string value;
  aq_policy_result : PolicyResult;
  aq_requested_at : Z;
  aq_status : string;
  aq_approver_user_id : option string;
  aq_approved_at : option Z;
  aq_comments : option string;
}.

(** [GovernanceSystem] with its [RBACManager] (the two cache dictionaries),
    its [PolicyEngine], the database its three managers share, and the two
    counters of the runtime. [policy_evaluations] is a ghost field: the
    arguments of every [enforce_policy] call made, oldest first. *)
Record GovernanceSystem := {
  db : Database;
  permission_cache : gmap string (gset Permission);
  cache_timestamps : gmap string Z;
  policy_engine : PolicyEngine;
  approval_queue : gmap string ApprovalRequest;
  clock_reads : nat;
  uuids_drawn : nat;
  policy_evaluations : list (PolicyType * gmap string value);
}.

Definition set_db (f : Database → Database) (g : GovernanceSystem) : GovernanceSystem :=
  {| db := f (db g); permission_cache := permission_cache g;
     cache_timestamps := cache_timestamps g; policy_engine := policy_engine g;
     approval_queue := approval_queue g; clock_reads := clock_reads g;
     uuids_drawn := uuids_drawn g; policy_evaluations := policy_evaluations g |}.

Definition set_cache (pc : gmap string (gset Permission)) (ts : gmap string Z)
    (g : GovernanceSystem) : GovernanceSystem :=
  {| db := db g; permission_cache := pc; cache_timestamps := ts;
     policy_engine := policy_engine g; approval_queue := approval_queue g;
     clock_reads := clock_reads g; uuids_drawn := uuids_drawn g;
     policy_evaluations := policy_evaluations g |}.

Definition set_approval_queue (q : gmap string ApprovalRequest)
    (g : GovernanceSystem) : GovernanceSystem :=
  {| db := db g; permission_cache := permission_cache g;
     cache_timestamps := cache_timestamps g; policy_engine := policy_engine g;
     approval_queue := q; clock_reads := clock_reads g;
     uuids_drawn := uuids_drawn g; policy_evaluations := policy_evaluations g |}.

(** [datetime.utcnow()]: the next reading of the clock. *)
Definition now : M GovernanceSystem Z := λ g,
  (Ok (utcnow (clock_reads g)),
   {| db := db g; permission_cache := permission_cache g;
      cache_timestamps := cache_timestamps g; policy_engine := policy_engine g;
      approval_queue := approval_queue g; clock_reads := S (clock_reads g);
      uuids_drawn := uuids_drawn g; policy_evaluations := policy_evaluations g |}).

(** [str(uuid.uuid4())]: the next generated id. *)
Definition new_uuid : M GovernanceSystem string := λ g,
  (Ok (uuid4 (uuids_drawn g)),
   {| db := db g; permission_cache := permission_cache g;
      cache_timestamps := cache_timestamps g; policy_engine := policy_engine g;
      approval_queue := approval_queue g; clock_reads := clock_reads g;
      uuids_drawn := S (uuids_drawn g); policy_evaluations := policy_evaluations g |}).

Definition record_policy_evaluation (t : PolicyType) (context : gmap string value)
    : M GovernanceSystem unit :=
  modify (λ g,
    {| db := db g; permission_cache := permission_cache g;
       cache_timestamps := cache_timestamps g; policy_engine := policy_engine g;
       approval_queue := approval_queue g; clock_reads := clock_reads g;
       uuids_drawn := uuids_drawn g;
       policy_evaluations := policy_evaluations g ++ [(t, context)] |}).

(** [timedelta(minutes=15)], the clock counting seconds. *)
Definition cache_ttl : Z := 15 * 60.

(** The default roles of [_initialize_default_roles]. *)
Definition default_roles : list (Role * list Permission) :=
  [ ({| role_id := "admin"; role_name := "Administrator";
        role_description := "Full system access"; is_system_role := true |},
     all_Permission);
    ({| role_id := "sales_manager"; role_name := "Sales Manager";
        role_description := "Sales team management and analytics";
        is_system_role := true |},
     [READ_LEADS; WRITE_LEADS; READ_ACCOUNTS; WRITE_ACCOUNTS;
      READ_OPPORTUNITIES; WRITE_OPPORTUNITIES; EXECUTE_AI_TOOLS;
      APPROVE_AI_DECISIONS; SEND_EMAILS; SCHEDULE_MEETINGS; VIEW_ANALYTICS]);
    ({| role_id := "sales_rep"; role_name := "Sales Representative";
        role_description := "Individual contributor sales role";
        is_system_role := true |},
     [READ_LEADS; WRITE_LEADS; READ_ACCOUNTS; WRITE_ACCOUNTS;
      READ_OPPORTUNITIES; WRITE_OPPORTUNITIES; EXECUTE_AI_TOOLS;
      SEND_EMAILS; SCHEDULE_MEETINGS]);
    ({| role_id := "viewer"; role_name := "Viewer";
        role_description := "Read-only access"; is_system_role := true |},
     [READ_LEADS; READ_ACCOUNTS; READ_OPPORTUNITIES; VIEW_ANALYTICS]) ].

Definition add_default_role (d : Database) (role_data : Role * list Permission) : Database :=
  let (role, permissions) := role_data in
  if existsb (λ r, String.eqb (role_id r) (role_id role)) (tbl_roles d) then d
  else
    {| tbl_roles := tbl_roles d ++ [role];
       tbl_user_roles := tbl_user_roles d;
       tbl_role_permissions :=
         tbl_role_permissions d ++
         map (λ permission, {| rp_role_id := role_id role;
                               rp_permission := Permission_value permission |})
             permissions;
       tbl_audit_logs := tbl_audit_logs d;
       tbl_policies := tbl_policies d |}.

Definition _initialize_default_roles (d : Database) : Database :=
  foldl add_default_role d default_roles.

(** The permissions the database grants to a user: rows whose permission
    string is not a member of [Permission] are skipped. *)
Definition query_permissions (d : Database) (user_id : string) : gset Permission :=
  let user_roles := filter (λ ur, ur_user_id ur = user_id) (tbl_user_roles d) in
  foldl (λ permissions user_role,
           let role_permissions :=
             filter (λ rp, rp_role_id rp = ur_role_id user_role)
                    (tbl_role_permissions d) in
           foldl (λ permissions role_permission,
                    match Permission_of_value (rp_permission role_permission) with
                    | Some permission => permissions ∪ {[permission]}
                    | None => permissions
                    end) permissions role_permissions)
        (∅ : gset Permission) user_roles.

Definition get_user_permissions (user_id : string) : M GovernanceSystem (gset Permission) :=
  g ← get_state;
  let refresh : M GovernanceSystem (gset Permission) :=
    g' ← get_state;
    let permissions := query_permissions (db g') user_id in
    t ← now;
    _ ← modify (λ g'', set_cache (<[user_id := permissions]> (permission_cache g''))
                                 (<[user_id := t]> (cache_timestamps g'')) g'');
    mret permissions in
  match permission_cache g !! user_id, cache_timestamps g !! user_id with
  | Some cached, Some stamp =>
      t ← now;
      if bool_decide (t - stamp < cache_ttl) then mret cached else refresh
  | _, _ => refresh
  end.

Definition has_permission (user_id : string) (permission : Permission)
    : M GovernanceSystem bool :=
  user_permissions ← get_user_permissions user_id;
  mret (bool_decide (permission ∈ (user_permissions : gset Permission))).

(** ** Audit manager *)

(** [AuditManager.log_event]; the [timestamp] column takes its default, the
    clock at insertion. Absent [details] and [policy_violations] become
    empty; no caller passes [ip_address] or [user_agent]. *)
Definition log_event (event_type : AuditEventType) (user_id action : string)
    (resource_type resource_id : option string)
    (details : option (gmap string value))
    (policy_violations : option (list Violation)) : M GovernanceSystem string :=
  id ← new_uuid;
  t ← now;
  let audit_log :=
    {| audit_id := id;
       al_event_type := AuditEventType_value event_type;
       al_user_id := user_id;
       al_resource_type := resource_type;
       al_resource_id := resource_id;
       al_action := action;
       al_timestamp := t;
       al_ip_address := None;
       al_user_agent := None;
       al_details := default ∅ details;
       al_policy_violations := default [] policy_violations |} in
  _ ← modify (set_db (λ d,
         {| tbl_roles := tbl_roles d; tbl_user_roles := tbl_user_roles d;
            tbl_role_permissions := tbl_role_permissions d;
            tbl_audit_logs := tbl_audit_logs d ++ [audit_log];
            tbl_policies := tbl_policies d |}));
  mret id.

(** ** Governance coordinator *)

(** [GovernanceSystem.__init__]: the RBAC manager seeds the default roles,
    the policy engine loads the stored policies and seeds the default ones. *)
Definition GovernanceSystem_init (d : Database) : result GovernanceSystem :=
  let d' := _initialize_default_roles d in
  pe ← PolicyEngine_init (tbl_policies d');
  Ok {| db := d'; permission_cache := ∅; cache_timestamps := ∅;
        policy_engine := pe; approval_queue := ∅;
        clock_reads := 0%nat; uuids_drawn := 0%nat; policy_evaluations := [] |}.

Definition permission_map : list (string * string * Permission) :=
  [ ("read", "lead", READ_LEADS);
    ("write", "lead", WRITE_LEADS);
    ("delete", "lead", DELETE_LEADS);
    ("read", "account", READ_ACCOUNTS);
    ("write", "account", WRITE_ACCOUNTS);
    ("delete", "account", DELETE_ACCOUNTS);
    ("read", "opportunity", READ_OPPORTUNITIES);
    ("write", "opportunity", WRITE_OPPORTUNITIES);
    ("delete", "opportunity", DELETE_OPPORTUNITIES);
    ("execute", "ai_tool", EXECUTE_AI_TOOLS);
    ("approve", "ai_decision", APPROVE_AI_DECISIONS);
    ("send", "email", SEND_EMAILS);
    ("schedule", "meeting", SCHEDULE_MEETINGS) ].

Definition _map_action_to_permission (action : string) (resource_type : option string)
    : option Permission :=
  match resource_type with
  | None => None
  | Some rt =>
      snd <$> find (λ e, String.eqb (fst (fst e)) action && String.eqb (snd (fst e)) rt)
                   permission_map
  end.

Definition _map_action_to_policy_type (action : string) (resource_type : option string)
    : PolicyType :=
  if bool_decide (action ∈ ["read"; "write"; "delete"]) then DATA_ACCESS
  else if bool_decide (action ∈ ["execute"]) && bool_decide (resource_type = Some "ai_tool")
  then AI_BEHAVIOR
  else if bool_decide (action ∈ ["send"; "schedule"]) then COMMUNICATION
  else SECURITY.

(** The dictionary [authorize_action] returns. *)
Record Authorization := {
  authorized : bool;
  reason : option string;
  auth_message : string;
  auth_approval_id : option string;
  auth_violations : option (list Violation);
  auth_policy_result : option PolicyResult;
}.

Definition opt_value (o : option string) : value :=
  match o with
  | Some s => VStr s
  | None => VNone
  end.

Definition _queue_for_approval (user_id action : string) (context : gmap string value)
    (policy_result : PolicyResult) : M GovernanceSystem string :=
  approval_id ← new_uuid;
  t ← now;
  _ ← modify (λ g, set_approval_queue
         (<[approval_id :=
              {| aq_approval_id := approval_id; aq_user_id := user_id;
                 aq_action := action; aq_context := context;
                 aq_policy_result := policy_result; aq_requested_at := t;
                 aq_status := "pending"; aq_approver_user_id := None;
                 aq_approved_at := None; aq_comments := None |}]>
            (approval_queue g)) g);
  mret approval_id.

(** [self.policy_engine.enforce_policy], recorded in [policy_evaluations]. *)
Definition call_enforce_policy (policy_type : PolicyType) (context : gmap string value)
    : M GovernanceSystem PolicyResult :=
  _ ← record_policy_evaluation policy_type context;
  g ← get_state;
  lift (enforce_policy (policy_engine g) policy_type context).

Definition authorize_action (user_id action : string)
    (resource_type resource_id : option string)
    (context : option (gmap string value)) : M GovernanceSystem Authorization :=
  t ← now;
  let full_context : gmap string value :=
    default ∅ context ∪
    {[ "user_id" := VStr user_id;
       "action" := VStr action;
       "resource_type" := opt_value resource_type;
       "resource_id" := opt_value resource_id;
       "timestamp" := VStr (isoformat t) ]} in
  let required_permission := _map_action_to_permission action resource_type in
  denied ←
    match required_permission with
    | Some permission =>
        granted ← has_permission user_id permission;
        mret (negb granted)
    | None => mret false
    end;
  if (denied : bool) then
    _ ← log_event PERMISSION_DENIED user_id action resource_type resource_id
                  (Some full_context) None;
    mret {| authorized := false;
            reason := Some "insufficient_permissions";
            auth_message :=
              "User lacks required permission: " +:+
              from_option Permission_value "" required_permission;
            auth_approval_id := None; auth_violations := None;
            auth_policy_result := None |}
  else
    let policy_type := _map_action_to_policy_type action resource_type in
    policy_result ← call_enforce_policy policy_type full_context;
    _ ← log_event
          (if String.prefix "read" action then EV_DATA_ACCESS else DATA_MODIFICATION)
          user_id action resource_type resource_id (Some full_context)
          (Some (pr_violations policy_result));
    if negb (default true (pr_allowed policy_result)) then
      if default false (pr_requires_approval policy_result) then
        approval_id ← _queue_for_approval user_id action full_context policy_result;
        mret {| authorized := false;
                reason := Some "requires_approval";
                auth_message := "Action requires approval from authorized personnel";
                auth_approval_id := Some approval_id; auth_violations := None;
                auth_policy_result := None |}
      else
        mret {| authorized := false;
                reason := Some "policy_violation";
                auth_message := default "Action denied by policy" (pr_message policy_result);
                auth_approval_id := None;
                auth_violations := Some (pr_violations policy_result);
                auth_policy_result := None |}
    else
      mret {| authorized := true;
              reason := None;
              auth_message := "Action authorized";
              auth_approval_id := None; auth_violations := None;
              auth_policy_result := Some policy_result |}.

(** The dictionary [approve_action] returns. *)
Record ApprovalOutcome := {
  success : bool;
  ao_approved : option bool;
  ao_message : string;
}.

Definition approve_action (approval_id approver_user_id : string) (approved : bool)
    (comments : option string) : M GovernanceSystem ApprovalOutcome :=
  g ← get_state;
  match approval_queue g !! approval_id with
  | None =>
      mret {| success := false; ao_approved := None;
              ao_message := "Approval request not found" |}
  | Some _ =>
      allowed ← has_permission approver_user_id APPROVE_AI_DECISIONS;
      if negb allowed then
        mret {| success := false; ao_approved := None;
                ao_message := "Insufficient permissions to approve" |}
      else
        g1 ← get_state;
        match approval_queue g1 !! approval_id with
        | None => raise (KeyError approval_id)
        | Some approval_request =>
            t ← now;
            let resolved :=
              {| aq_approval_id := aq_approval_id approval_request;
                 aq_user_id := aq_user_id approval_request;
                 aq_action := aq_action approval_request;
                 aq_context := aq_context approval_request;
                 aq_policy_result := aq_policy_result approval_request;
                 aq_requested_at := aq_requested_at approval_request;
                 aq_status := if approved then "approved" else "denied";
                 aq_approver_user_id := Some approver_user_id;
                 aq_approved_at := Some t;
                 aq_comments := comments |} in
            _ ← modify (λ g2, set_approval_queue
                   (<[approval_id := resolved]> (approval_queue g2)) g2);
            _ ← log_event AI_DECISION approver_user_id
                  (if approved then "approve_action" else "deny_action")
                  None None
                  (Some {[ "approval_id" := VStr approval_id;
                           "original_user_id" := VStr (aq_user_id approval_request);
                           "original_action" := VStr (aq_action approval_request);
                           "approved" := VBool approved;
                           "comments" := opt_value comments ]})
                  None;
            mret {| success := true; ao_approved := Some approved;
                    ao_message := "Action " +:+ (if approved then "approved" else "denied") |}
        end
  end.

(** ** Workflow engine: data *)

Inductive WorkflowStatus :=
  | DRAFT | ACTIVE | PAUSED | COMPLETED | FAILED | CANCELLED.

Inductive StepStatus :=
  | STEP_PENDING | STEP_RUNNING | STEP_COMPLETED | STEP_FAILED | STEP_SKIPPED
  | STEP_WAITING.

Inductive ActionType :=
  | AI_TOOL | HUMAN_TASK | CONDITION | DELAY | NOTIFICATION | DATA_UPDATE
  | WORKFLOW_TRIGGER.

Definition ActionType_str (a : ActionType) : string :=
  match a with
  | AI_TOOL => "ActionType.AI_TOOL"
  | HUMAN_TASK => "ActionType.HUMAN_TASK"
  | CONDITION => "ActionType.CONDITION"
  | DELAY => "ActionType.DELAY"
  | NOTIFICATION => "ActionType.NOTIFICATION"
  | DATA_UPDATE => "ActionType.DATA_UPDATE"
  | WORKFLOW_TRIGGER => "ActionType.WORKFLOW_TRIGGER"
  end.

#[global] Instance WorkflowStatus_eq_dec : EqDecision WorkflowStatus.
Proof. solve_decision. Defined.

#[global] Instance ActionType_eq_dec : EqDecision ActionType.
Proof. solve_decision. Defined.

Record WorkflowContext := {
  wc_workflow_id : string;
  wc_execution_id : string;
  data : gmap string value;
  variables : gmap string value;
  wc_metadata : gmap string value;
  wc_created_at : Z;
  wc_updated_at : Z;
}.

(** The fields of a [WorkflowStep] that the definition fixes. The fields
    written while the step runs are kept apart, in [StepRuntime]. *)
Record WorkflowStep := {
  ws_id : string;
  ws_name : string;
  action_type : ActionType;
  config : list (string * value);
  dependencies : list string;
  ws_conditions : list (list (string * value));
  timeout_seconds : option Z;
  retry_count : Z;
  max_retries : Z;
}.

(** The dictionary an executor returns: [success], [data] (a dictionary or
    [None]) and whatever other keys it adds. *)
Record StepResult := {
  sr_success : bool;
  sr_data : option (list (string * value));
  sr_other : list (string * value);
}.

Record StepRuntime := {
  st_status : StepStatus;
  st_started_at : option Z;
  st_completed_at : option Z;
  st_result : option StepResult;
  st_error : option string;
}.

Definition initial_runtime : StepRuntime :=
  {| st_status := STEP_PENDING; st_started_at := None; st_completed_at := None;
     st_result := None; st_error := None |}.

(** Triggers and tags are not read on the execution path and are left out. *)
Record WorkflowDefinition := {
  wd_id : string;
  wd_name : string;
  wd_description : string;
  wd_version : string;
  steps : list WorkflowStep;
  wd_variables : gmap string value;
  sla_hours : option Z;
}.

Record WorkflowExecution := {
  we_id : string;
  we_workflow_id : string;
  status : WorkflowStatus;
  context : WorkflowContext;
  current_step : option string;
  completed_steps : gset string;
  failed_steps : gset string;
  we_started_at : Z;
  we_completed_at : option Z;
  triggered_by : string;
  we_priority : Z;
}.

(** A [StepExecutor]: what [execute(step, context)] yields on the [n]-th
    executor call of the engine, namely the seconds the call takes and
    either the returned dictionary or the exception raised. *)
Definition StepExecutor : Type :=
  nat → WorkflowStep → WorkflowContext → Z * result StepResult.

(** ** Step executors *)

(** [value[2:-1]] for a string that starts with two characters. *)
Definition strip_placeholder (s : string) : string :=
  String.substring 2 (String.length s - 3) s.

Definition _substitute_variables (parameters : list (string * value))
    (ctx : WorkflowContext) : list (string * value) :=
  map (λ '(key, v),
         match v with
         | VStr s =>
             if String.prefix "${" s
             then (key, default v (variables ctx !! strip_placeholder s))
             else (key, v)
         | _ => (key, v)
         end) parameters.

(** [ToolExecution], as far as the executor reads it. *)
Record ToolExecution := {
  tool_id : string;
  te_result : option StepResult;
}.

(** [AIToolExecutor.execute] over the tools library [execute_tool], which
    answers the [n]-th call with its duration and outcome. A [parameters]
    entry that is not a dictionary has no [items]. *)
Definition AIToolExecutor
    (execute_tool : nat → value → list (string * value) → Z * result ToolExecution)
    : StepExecutor :=
  λ n step ctx,
    let tool_name := default VNone (dict_get "tool_name" (config step)) in
    match default (VDict []) (dict_get "parameters" (config step)) with
    | VDict parameters =>
        let parameters := _substitute_variables parameters ctx in
        match execute_tool n tool_name parameters with
        | (elapsed, Ok execution) =>
            (elapsed,
             Ok {| sr_success := from_option sr_success false (te_result execution);
                   sr_data := te_result execution ≫= sr_data;
                   sr_other := [("execution_id", VStr (tool_id execution))] |})
        | (elapsed, Raise e) => (elapsed, Raise e)
        end
    | _ => (0, Raise (OtherError "object has no attribute 'items'"))
    end.

(** A number as [DelayExecutor] can add it up: an [int], or a [bool] taken
    as 0 or 1. *)
Definition as_number (v : value) : option Z :=
  match v with
  | VInt z => Some z
  | VBool b => Some (if b then 1 else 0)
  | _ => None
  end.

(** [DelayExecutor.execute]. The call sleeps for [min(total_delay, 300)]
    seconds when the total is positive. With an entry that is not a number
    the sum or, for three strings or three lists, the comparison
    [total_delay > 0] raises [TypeError]. *)
Definition DelayExecutor : StepExecutor :=
  λ _ step _,
    let delay_seconds := default (VInt 0) (dict_get "delay_seconds" (config step)) in
    let delay_minutes := default (VInt 0) (dict_get "delay_minutes" (config step)) in
    let delay_hours := default (VInt 0) (dict_get "delay_hours" (config step)) in
    match as_number delay_seconds, as_number delay_minutes, as_number delay_hours with
    | Some s, Some m, Some h =>
        let total_delay := s + m * 60 + h * 3600 in
        ((if 0 <? total_delay then Z.min total_delay 300 else 0),
         Ok {| sr_success := true;
               sr_data := Some [("delayed_seconds", VInt total_delay)];
               sr_other := [] |})
    | _, _, _ => (0, Raise TypeError)
    end.

Record WorkflowEngine := {
  workflows : gmap string WorkflowDefinition;
  executors : ActionType → option StepExecutor;
}.

(** One entry of the ghost log of an execution: the step that ran, whether
    [_execute_step] returned normally, and the two sets as they were once
    the loop had recorded the step. *)
Record LogEntry := {
  le_step : string;
  le_ok : bool;
  le_completed : gset string;
  le_failed : gset string;
}.

(** What [trigger_workflow] and [_execute_workflow] read and write: the
    execution object, the local [remaining_steps] of its run, the mutable
    fields of the step objects (by step id), the ids registered in the
    engine's [executions] and [running_executions], and the counters of the
    clock, of the id generator and of the executor calls. [step_log] is the
    ghost log. Executions other than the one at hand are not represented. *)
Record RunState := {
  execution : WorkflowExecution;
  remaining_steps : list (string * WorkflowStep);
  step_runtime : gmap string StepRuntime;
  executions : gset string;
  running_executions : gset string;
  wf_clock_reads : nat;
  wf_uuids_drawn : nat;
  executor_calls : nat;
  step_log : list LogEntry;
}.

(** ** Workflow engine: execution *)

Definition with_execution (f : WorkflowExecution → WorkflowExecution) (st : RunState)
    : RunState :=
  {| execution := f (execution st); remaining_steps := remaining_steps st;
     step_runtime := step_runtime st; executions := executions st;
     running_executions := running_executions st;
     wf_clock_reads := wf_clock_reads st; wf_uuids_drawn := wf_uuids_drawn st;
     executor_calls := executor_calls st;
     step_log := step_log st |}.

Definition with_remaining (r : list (string * WorkflowStep)) (st : RunState) : RunState :=
  {| execution := execution st; remaining_steps := r;
     step_runtime := step_runtime st; executions := executions st;
     running_executions := running_executions st;
     wf_clock_reads := wf_clock_reads st; wf_uuids_drawn := wf_uuids_drawn st;
     executor_calls := executor_calls st;
     step_log := step_log st |}.

Definition with_running (f : gset string → gset string) (st : RunState) : RunState :=
  {| execution := execution st; remaining_steps := remaining_steps st;
     step_runtime := step_runtime st; executions := executions st;
     running_executions := f (running_executions st);
     wf_clock_reads := wf_clock_reads st; wf_uuids_drawn := wf_uuids_drawn st;
     executor_calls := executor_calls st;
     step_log := step_log st |}.

(** An assignment to fields of the step object with the given id. *)
Definition with_step (step_id : string) (f : StepRuntime → StepRuntime) (st : RunState)
    : RunState :=
  {| execution := execution st; remaining_steps := remaining_steps st;
     step_runtime :=
       <[step_id := f (default initial_runtime (step_runtime st !! step_id))]>
         (step_runtime st);
     executions := executions st;
     running_executions := running_executions st;
     wf_clock_reads := wf_clock_reads st; wf_uuids_drawn := wf_uuids_drawn st;
     executor_calls := executor_calls st;
     step_log := step_log st |}.

Definition set_status (s : WorkflowStatus) (e : WorkflowExecution) : WorkflowExecution :=
  {| we_id := we_id e; we_workflow_id := we_workflow_id e; status := s;
     context := context e; current_step := current_step e;
     completed_steps := completed_steps e; failed_steps := failed_steps e;
     we_started_at := we_started_at e; we_completed_at := we_completed_at e;
     triggered_by := triggered_by e; we_priority := we_priority e |}.

Definition set_current_step (step_id : string) (e : WorkflowExecution) : WorkflowExecution :=
  {| we_id := we_id e; we_workflow_id := we_workflow_id e; status := status e;
     context := context e; current_step := Some step_id;
     completed_steps := completed_steps e; failed_steps := failed_steps e;
     we_started_at := we_started_at e; we_completed_at := we_completed_at e;
     triggered_by := triggered_by e; we_priority := we_priority e |}.

Definition add_completed (step_id : string) (e : WorkflowExecution) : WorkflowExecution :=
  {| we_id := we_id e; we_workflow_id := we_workflow_id e; status := status e;
     context := context e; current_step := current_step e;
     completed_steps := completed_steps e ∪ {[step_id]};
     failed_steps := failed_steps e;
     we_started_at := we_started_at e; we_completed_at := we_completed_at e;
     triggered_by := triggered_by e; we_priority := we_priority e |}.

Definition add_failed (step_id : string) (e : WorkflowExecution) : WorkflowExecution :=
  {| we_id := we_id e; we_workflow_id := we_workflow_id e; status := status e;
     context := context e; current_step := current_step e;
     completed_steps := completed_steps e;
     failed_steps := failed_steps e ∪ {[step_id]};
     we_started_at := we_started_at e; we_completed_at := we_completed_at e;
     triggered_by := triggered_by e; we_priority := we_priority e |}.

Definition set_completed_at (t : Z) (e : WorkflowExecution) : WorkflowExecution :=
  {| we_id := we_id e; we_workflow_id := we_workflow_id e; status := status e;
     context := context e; current_step := current_step e;
     completed_steps := completed_steps e; failed_steps := failed_steps e;
     we_started_at := we_started_at e; we_completed_at := Some t;
     triggered_by := triggered_by e; we_priority := we_priority e |}.

(** [execution.context.data.update(d)]. *)
Definition update_data (d : list (string * value)) (e : WorkflowExecution)
    : WorkflowExecution :=
  {| we_id := we_id e; we_workflow_id := we_workflow_id e; status := status e;
     context :=
       {| wc_workflow_id := wc_workflow_id (context e);
          wc_execution_id := wc_execution_id (context e);
          data := foldl (λ m kv, <[fst kv := snd kv]> m) (data (context e)) d;
          variables := variables (context e);
          wc_metadata := wc_metadata (context e);
          wc_created_at := wc_created_at (context e);
          wc_updated_at := wc_updated_at (context e) |};
     current_step := current_step e;
     completed_steps := completed_steps e; failed_steps := failed_steps e;
     we_started_at := we_started_at e; we_completed_at := we_completed_at e;
     triggered_by := triggered_by e; we_priority := we_priority e |}.

(** [datetime.utcnow()]: the next reading of the clock. *)
Definition tick (st : RunState) : Z * RunState :=
  (utcnow (wf_clock_reads st),
   {| execution := execution st; remaining_steps := remaining_steps st;
      step_runtime := step_runtime st; executions := executions st;
      running_executions := running_executions st;
      wf_clock_reads := S (wf_clock_reads st); wf_uuids_drawn := wf_uuids_drawn st;
      executor_calls := executor_calls st; step_log := step_log st |}).

Definition wf_now : M RunState Z := λ st, let (t, st') := tick st in (Ok t, st').

(** The next executor call: its number, and the counter advanced. *)
Definition next_call : M RunState nat := λ st,
  (Ok (executor_calls st),
   {| execution := execution st; remaining_steps := remaining_steps st;
      step_runtime := step_runtime st; executions := executions st;
      running_executions := running_executions st;
      wf_clock_reads := wf_clock_reads st; wf_uuids_drawn := wf_uuids_drawn st;
      executor_calls := S (executor_calls st); step_log := step_log st |}).

Definition log_step (step_id : string) (ok : bool) (st : RunState) : RunState :=
  {| execution := execution st; remaining_steps := remaining_steps st;
     step_runtime := step_runtime st; executions := executions st;
     running_executions := running_executions st;
     wf_clock_reads := wf_clock_reads st; wf_uuids_drawn := wf_uuids_drawn st;
     executor_calls := executor_calls st;
     step_log :=
       step_log st ++
       [{| le_step := step_id; le_ok := ok;
           le_completed := completed_steps (execution st);
           le_failed := failed_steps (execution st) |}] |}.

(** [str(e)]. *)
Definition exn_str (e : exn) : string :=
  match e with
  | TypeError => "TypeError"
  | ValueError msg => msg
  | KeyError key => "'" +:+ key +:+ "'"
  | ReError => "re.error"
  | TimeoutError => ""
  | OtherError msg => msg
  end.

(** [asyncio.wait_for(call, timeout)]. The timer is armed before the call
    starts, so a call that has not finished strictly before the timeout is
    cancelled and [TimeoutError] is raised in its place: a call that lasts
    exactly as long as the timeout is cancelled too, and with a negative
    timeout every call is. *)
Definition wait_for (call : Z * result StepResult) (timeout : Z) : result StepResult :=
  if timeout <=? Z.max 0 (fst call) then Raise TimeoutError else snd call.

Definition step_finished (s : StepStatus) (err : option string) (t : Z)
    (r : option StepResult) (rt : StepRuntime) : StepRuntime :=
  {| st_status := s; st_started_at := st_started_at rt;
     st_completed_at := Some t;
     st_result := match r with Some _ => r | None => st_result rt end;
     st_error := match err with Some _ => err | None => st_error rt end |}.

Definition _execute_step (self : WorkflowEngine) (step : WorkflowStep) : M RunState unit :=
  t0 ← wf_now;
  _ ← modify (with_step (ws_id step) (λ rt,
         {| st_status := STEP_RUNNING; st_started_at := Some t0;
            st_completed_at := st_completed_at rt; st_result := st_result rt;
            st_error := st_error rt |}));
  _ ← modify (with_execution (set_current_step (ws_id step)));
  match executors self (action_type step) with
  | None =>
      raise (ValueError ("No executor found for action type '" +:+
                         ActionType_str (action_type step) +:+ "'"))
  | Some executor =>
      n ← next_call;
      st ← get_state;
      let call := executor n step (context (execution st)) in
      let outcome :=
        match timeout_seconds step with
        | Some timeout =>
            if bool_decide (timeout ≠ 0) then wait_for call timeout else snd call
        | None => snd call
        end in
      match outcome with
      | Ok r =>
          t1 ← wf_now;
          _ ← modify (with_step (ws_id step) (step_finished STEP_COMPLETED None t1 (Some r)));
          match sr_data r with
          | Some d =>
              if sr_success r && negb (bool_decide (d = []))
              then modify (with_execution (update_data d))
              else mret ()
          | None => mret ()
          end
      | Raise TimeoutError =>
          t1 ← wf_now;
          _ ← modify (with_step (ws_id step)
                 (step_finished STEP_FAILED (Some "Step execution timed out") t1 None));
          raise TimeoutError
      | Raise e =>
          t1 ← wf_now;
          _ ← modify (with_step (ws_id step)
                 (step_finished STEP_FAILED (Some (exn_str e)) t1 None));
          raise e
      end
  end.

Definition dependencies_met (step : WorkflowStep) (e : WorkflowExecution) : bool :=
  forallb (λ dep, bool_decide (dep ∈ completed_steps e)) (dependencies step).

(** [dep_step in execution.completed_steps]: a list or a dictionary is not
    hashable; any other value that is not a string is in no set of ids. *)
Definition in_completed (dep_step : value) (e : WorkflowExecution) : result bool :=
  match dep_step with
  | VStr s => Ok (bool_decide (s ∈ completed_steps e))
  | VList _ | VDict _ => Raise TypeError
  | _ => Ok false
  end.

Fixpoint check_conditions (conds : list (list (string * value))) (e : WorkflowExecution)
    : result bool :=
  match conds with
  | [] => Ok true
  | condition :: rest =>
      let dep_step := default VNone (dict_get "step" condition) in
      b ← in_completed dep_step e;
      if (b : bool) then check_conditions rest e else Ok false
  end.

Definition _check_step_conditions (step : WorkflowStep) (e : WorkflowExecution)
    : result bool :=
  match ws_conditions step with
  | [] => Ok true
  | conds => check_conditions conds e
  end.

(** The list comprehension that selects the ready steps among
    [remaining_steps.values()]. *)
Fixpoint ready_steps (candidates : list WorkflowStep) (e : WorkflowExecution)
    : result (list WorkflowStep) :=
  match candidates with
  | [] => Ok []
  | step :: rest =>
      keep ← (if dependencies_met step e then _check_step_conditions step e else Ok false);
      ready ← ready_steps rest e;
      Ok (if (keep : bool) then step :: ready else ready)
  end.

Definition pop_remaining (step_id : string) : M RunState unit := λ st,
  match dict_pop step_id (remaining_steps st) with
  | Ok r => (Ok (), with_remaining r st)
  | Raise e => (Raise e, st)
  end.

(** The body of the [for] loop: the [try] block, then the handler when the
    [try] block raised, then the ghost log entry. *)
Definition run_step (self : WorkflowEngine) (step : WorkflowStep) : M RunState unit := λ st,
  let (r, st1) := _execute_step self step st in
  let after_try : result unit * RunState :=
    match r with
    | Ok _ => pop_remaining (ws_id step) (with_execution (add_completed (ws_id step)) st1)
    | Raise e => (Raise e, st1)
    end in
  let after_except : result unit * RunState :=
    match after_try with
    | (Ok _, st2) => (Ok (), st2)
    | (Raise e, st2) =>
        pop_remaining (ws_id step)
          (with_execution (add_failed (ws_id step))
             (with_step (ws_id step) (λ rt,
                {| st_status := STEP_FAILED; st_started_at := st_started_at rt;
                   st_completed_at := st_completed_at rt; st_result := st_result rt;
                   st_error := Some (exn_str e) |}) st2))
    end in
  (fst after_except,
   log_step (ws_id step) (match r with Ok _ => true | Raise _ => false end)
            (snd after_except)).

Fixpoint run_ready_steps (self : WorkflowEngine) (ready : list WorkflowStep)
    : M RunState unit :=
  match ready with
  | [] => mret ()
  | step :: rest => _ ← run_step self step; run_ready_steps self rest
  end.

(** The [while] loop. [None]: the fuel ran out before the loop ended. *)
Fixpoint execute_loop (fuel : nat) (self : WorkflowEngine) (st : RunState)
    : option (result unit * RunState) :=
  if bool_decide (remaining_steps st ≠ [] ∧ status (execution st) = ACTIVE) then
    match fuel with
    | O => None
    | S fuel' =>
        match ready_steps (map snd (remaining_steps st)) (execution st) with
        | Raise e => Some (Raise e, st)
        | Ok [] => Some (Ok (), st)
        | Ok ready =>
            match run_ready_steps self ready st with
            | (Ok _, st') => execute_loop fuel' self st'
            | (Raise e, st') => Some (Raise e, st')
            end
        end
    end
  else Some (Ok (), st).

(** [{step.id: step for step in workflow.steps}]. *)
Definition steps_by_id (l : list WorkflowStep) : list (string * WorkflowStep) :=
  foldl (λ d step, dict_set (ws_id step) step d) [] l.

Definition final_status (st : RunState) : WorkflowStatus :=
  if bool_decide (failed_steps (execution st) ≠ ∅) then FAILED
  else if bool_decide (remaining_steps st = []) then COMPLETED
  else PAUSED.

(** [_execute_workflow] on the execution held in the state. Every round of
    the loop removes a step, so one unit of fuel per workflow step is
    enough; see [execute_workflow_total]. *)
Definition _execute_workflow (self : WorkflowEngine) (st : RunState) : option RunState :=
  let id := we_id (execution st) in
  let st := with_running (λ r, r ∪ {[id]}) st in
  match workflows self !! we_workflow_id (execution st) with
  | None =>
      Some (with_running (λ r, r ∖ {[id]}) (with_execution (set_status FAILED) st))
  | Some workflow =>
      let st := with_remaining (steps_by_id (steps workflow)) st in
      match execute_loop (length (remaining_steps st)) self st with
      | None => None
      | Some (r, st1) =>
          let st2 :=
            match r with
            | Ok _ => with_execution (set_status (final_status st1)) st1
            | Raise _ => with_execution (set_status FAILED) st1
            end in
          let (t, st3) := tick st2 in
          Some (with_running (λ r, r ∖ {[id]}) (with_execution (set_completed_at t) st3))
      end
  end.

(** [trigger_workflow], up to the point where it hands the new execution to
    [_execute_workflow] as a task: the execution becomes the one at hand. *)
Definition trigger_workflow (self : WorkflowEngine) (workflow_id : string)
    (context_data : gmap string value) (triggered_by : string)
    : M RunState WorkflowExecution :=
  match workflows self !! workflow_id with
  | None => raise (ValueError ("Workflow '" +:+ workflow_id +:+ "' not found"))
  | Some workflow =>
      st ← get_state;
      let execution_id := uuid4 (wf_uuids_drawn st) in
      t1 ← wf_now;
      t2 ← wf_now;
      t3 ← wf_now;
      let e :=
        {| we_id := execution_id;
           we_workflow_id := workflow_id;
           status := ACTIVE;
           context :=
             {| wc_workflow_id := workflow_id; wc_execution_id := execution_id;
                data := context_data; variables := wd_variables workflow;
                wc_metadata := ∅; wc_created_at := t1; wc_updated_at := t2 |};
           current_step := None;
           completed_steps := ∅;
           failed_steps := ∅;
           we_started_at := t3;
           we_completed_at := None;
           triggered_by := triggered_by;
           we_priority := 5 |} in
      _ ← modify (λ st,
             {| execution := e; remaining_steps := [];
                step_runtime := step_runtime st;
                executions := executions st ∪ {[execution_id]};
                running_executions := running_executions st;
                wf_clock_reads := wf_clock_reads st;
                wf_uuids_drawn := S (wf_uuids_drawn st);
                executor_calls := executor_calls st;
                step_log := [] |});
      mret e
  end.

(** The two workflows of [_load_default_workflows]. *)
Definition plain_step (id name : string) (a : ActionType) (cfg : list (string * value))
    (deps : list string) (conds : list (list (string * value))) : WorkflowStep :=
  {| ws_id := id; ws_name := name; action_type := a; config := cfg;
     dependencies := deps; ws_conditions := conds; timeout_seconds := None;
     retry_count := 0; max_retries := 3 |}.

Definition lead_qualification : WorkflowDefinition :=
  {| wd_id := "lead_qualification_v1";
     wd_name := "Lead Qualification Process";
     wd_description := "Automated lead qualification with AI analysis and human review";
     wd_version := "1.0";
     steps :=
       [ plain_step "enrich_lead" "Enrich Lead Data" AI_TOOL
           [("tool_name", VStr "enrich_lead");
            ("parameters", VDict [("lead_id", VStr "${lead_id}");
                                  ("enrich_company", VBool true);
                                  ("enrich_contact", VBool true)])]
           [] [];
         plain_step "score_lead" "Calculate Lead Score" AI_TOOL
           [("tool_name", VStr "analyze_data");
            ("parameters", VDict [("analysis_type", VStr "lead_scoring")])]
           ["enrich_lead"] [];
         plain_step "check_score" "Check Lead Score" CONDITION
           [("condition", VStr "${lead_score} >= 70")]
           ["score_lead"] [];
         plain_step "send_welcome_email" "Send Welcome Email" AI_TOOL
           [("tool_name", VStr "send_email");
            ("parameters",
             VDict [("to", VStr "${lead_email}");
                    ("subject", VStr "Welcome to our sales process");
                    ("body", VStr "Thank you for your interest. We'll be in touch soon.")])]
           ["check_score"]
           [[("step", VStr "check_score"); ("result", VBool true)]];
         plain_step "assign_to_sales" "Assign to Sales Rep" HUMAN_TASK
           [("title", VStr "Review High-Quality Lead");
            ("description", VStr "A high-scoring lead needs immediate attention");
            ("assignee", VStr "sales_team");
            ("due_hours", VInt 4)]
           ["send_welcome_email"] [] ];
     wd_variables := ∅;
     sla_hours := Some 24 |}.

Definition opportunity_followup : WorkflowDefinition :=
  {| wd_id := "opportunity_followup_v1";
     wd_name := "Opportunity Follow-up Process";
     wd_description := "Automated follow-up sequence for sales opportunities";
     wd_version := "1.0";
     steps :=
       [ plain_step "wait_initial" "Initial Wait Period" DELAY
           [("delay_hours", VInt 24)] [] [];
         plain_step "send_followup_email" "Send Follow-up Email" AI_TOOL
           [("tool_name", VStr "send_email");
            ("parameters",
             VDict [("to", VStr "${contact_email}");
                    ("subject", VStr "Following up on our conversation");
                    ("body", VStr "Hi ${contact_name}, I wanted to follow up on our recent discussion...")])]
           ["wait_initial"] [];
         plain_step "schedule_demo" "Schedule Product Demo" AI_TOOL
           [("tool_name", VStr "schedule_meeting");
            ("parameters",
             VDict [("title", VStr "Product Demo - ${company_name}");
                    ("duration", VInt 60);
                    ("attendees", VList [VStr "${contact_email}"; VStr "${sales_rep_email}"])])]
           ["send_followup_email"] [] ];
     wd_variables := ∅;
     sla_hours := Some 72 |}.

Definition default_workflows : gmap string WorkflowDefinition :=
  <[wd_id opportunity_followup := opportunity_followup]>
    (<[wd_id lead_qualification := lead_qualification]> ∅).

End WithRuntime.

(** * Further operations of the RBAC manager

    Role assignment and revocation. As the rest of the embedding, they take
    the tables as they are: no foreign key is checked on insertion. *)

(** [_clear_user_cache]: both dictionaries forget the user. *)
Definition _clear_user_cache (user_id : string) : M GovernanceSystem unit :=
  modify (λ g, set_cache (delete user_id (permission_cache g))
                         (delete user_id (cache_timestamps g)) g).

(** [query(UserRole).filter_by(user_id=..., role_id=...).first()]. *)
Definition find_assignment (user_id role_id : string) (d : Database) : option UserRole :=
  find (λ ur, bool_decide (ur_user_id ur = user_id ∧ ur_role_id ur = role_id))
       (tbl_user_roles d).

Definition with_user_roles (f : list UserRole → list UserRole) (d : Database) : Database :=
  {| tbl_roles := tbl_roles d;
     tbl_user_roles := f (tbl_user_roles d);
     tbl_role_permissions := tbl_role_permissions d;
     tbl_audit_logs := tbl_audit_logs d;
     tbl_policies := tbl_policies d |}.

Definition assign_role (user_id role_id : string) (assigned_by : option string)
    : M GovernanceSystem UserRole :=
  g ← get_state;
  match find_assignment user_id role_id (db g) with
  | Some existing => mret existing
  | None =>
      let user_role :=
        {| ur_user_id := user_id; ur_role_id := role_id;
           ur_assigned_by := assigned_by |} in
      _ ← modify (set_db (with_user_roles (λ rows, rows ++ [user_role])));
      _ ← _clear_user_cache user_id;
      mret user_role
  end.

(** [revoke_role]: the row found is deleted by its primary key, the pair of
    user and role. *)
Definition revoke_role (user_id role_id : string) : M GovernanceSystem unit :=
  g ← get_state;
  match find_assignment user_id role_id (db g) with
  | Some user_role =>
      _ ← modify (set_db (with_user_roles
             (filter (λ ur, ¬ (ur_user_id ur = ur_user_id user_role ∧
                               ur_role_id ur = ur_role_id user_role)))));
      _clear_user_cache user_id
  | None => mret ()
  end.

(** * Notions used to state the properties *)

(** The dominance order of the specification,
    DENY > REQUIRE_APPROVAL > REDACT > LOG_ONLY > ALLOW, as a rank. *)
Definition spec_dominance (a : PolicyAction) : nat :=
  match a with
  | DENY => 4
  | REQUIRE_APPROVAL => 3
  | REDACT => 2
  | LOG_ONLY => 1
  | ALLOW => 0
  end.

(** The most restrictive of a list of actions under [spec_dominance];
    ALLOW for the empty list. *)
Definition spec_most_restrictive (actions : list PolicyAction) : PolicyAction :=
  foldl (λ best a, if (spec_dominance best <? spec_dominance a)%nat then a else best)
        ALLOW actions.

(** A rule with the given conditions and nothing else of note. *)
Definition simple_rule (id : string) (t : PolicyType) (conds : list (string * value))
    (a : PolicyAction) (p : Z) : PolicyRule :=
  {| rule_id := id; name := id; description := ""; policy_type := t;
     conditions := conds; action := a; metadata := []; priority := p;
     enabled := true |}.

(** What a governance call leaves alone when it only touches the
    permission cache and the clock. *)
Definition same_records (g g' : GovernanceSystem) : Prop :=
  db g' = db g ∧ policy_engine g' = policy_engine g ∧
  approval_queue g' = approval_queue g ∧ uuids_drawn g' = uuids_drawn g ∧
  policy_evaluations g' = policy_evaluations g.

(** The fields that only the loop of [_execute_workflow] writes. *)
Definition same_books (st st1 : RunState) : Prop :=
  completed_steps (execution st1) = completed_steps (execution st) ∧
  failed_steps (execution st1) = failed_steps (execution st) ∧
  status (execution st1) = status (execution st) ∧
  remaining_steps st1 = remaining_steps st ∧
  step_log st1 = step_log st.

(** A computation that leaves those fields alone, whatever its outcome. *)
Definition keeps_books {A} (m : M RunState A) : Prop :=
  ∀ st r st1, m st = (r, st1) → same_books st st1.

(** The ids of the log entries of the steps that returned, and of those
    that raised. *)
Definition ok_ids (log : list LogEntry) : list string :=
  le_step <$> filter (λ e : LogEntry, le_ok e = true) log.

Definition bad_ids (log : list LogEntry) : list string :=
  le_step <$> filter (λ e : LogEntry, le_ok e = false) log.

(** A log entry is sound when its two sets are disjoint and its step is in
    the one that its outcome names, and not in the other. *)
Definition entry_ok (e : LogEntry) : Prop :=
  le_completed e ## le_failed e ∧
  (if le_ok e
   then le_step e ∈ le_completed e ∧ le_step e ∉ le_failed e
   else le_step e ∈ le_failed e ∧ le_step e ∉ le_completed e).

(** Every step in the log ran after all its dependencies had returned. *)
Definition deps_before (R0 : list (string * WorkflowStep)) (log : list LogEntry) : Prop :=
  ∀ l1 e l2 step dep,
    log = l1 ++ e :: l2 → (le_step e, step) ∈ R0 → dep ∈ dependencies step →
    ∃ e', e' ∈ l1 ∧ le_step e' = dep ∧ le_ok e' = true.

(** The invariant of the loop of [_execute_workflow], for an execution
    whose two sets and whose log were empty when the loop began on the
    dictionary [R0]. *)
Record run_facts (R0 : list (string * WorkflowStep)) (st : RunState) : Prop := {
  rf_keys : NoDup (remaining_steps st).*1;
  rf_sub : ∀ k s, (k, s) ∈ remaining_steps st → (k, s) ∈ R0;
  rf_completed : completed_steps (execution st) = list_to_set (ok_ids (step_log st));
  rf_failed : failed_steps (execution st) = list_to_set (bad_ids (step_log st));
  rf_nodup : NoDup (le_step <$> step_log st);
  rf_gone : ∀ e, e ∈ step_log st → le_step e ∉ (remaining_steps st).*1;
  rf_from : ∀ e, e ∈ step_log st → le_step e ∈ R0.*1;
  rf_entries : ∀ e, e ∈ step_log st → entry_ok e;
  rf_deps : deps_before R0 (step_log st);
}.

(** The state in which [trigger_workflow] leaves the engine: an active
    execution with nothing completed, failed, remaining or logged. *)
Definition fresh (st : RunState) : Prop :=
  status (execution st) = ACTIVE ∧
  completed_steps (execution st) = ∅ ∧
  failed_steps (execution st) = ∅ ∧
  remaining_steps st = [] ∧
  step_log st = [].

(** The dictionary [remaining_steps] that [_execute_workflow] builds for the
    execution at hand; empty when its workflow is not registered. *)
Definition workflow_steps (self : WorkflowEngine) (st : RunState)
    : list (string * WorkflowStep) :=
  match workflows self !! we_workflow_id (execution st) with
  | Some workflow => steps_by_id (steps workflow)
  | None => []
  end.

(** The matched actions are such that no REQUIRE_APPROVAL comes after a
    REDACT or a LOG_ONLY. *)
Fixpoint approvals_come_first (actions : list PolicyAction) : bool :=
  match actions with
  | [] => true
  | a :: rest =>
      (if bool_decide (a = REDACT ∨ a = LOG_ONLY)
       then forallb (λ b, bool_decide (b ≠ REQUIRE_APPROVAL)) rest
       else true)
      && approvals_come_first rest
  end.

(** Whether a call returned rather than raised: the flag that the ghost
    log keeps for a step. *)
Definition step_returned {A} (r : result A) : bool :=
  match r with Ok _ => true | Raise _ => false end.

(** Every step of the dictionary [R0] is either still remaining or in the
    log. *)
Definition all_accounted (R0 : list (string * WorkflowStep)) (st : RunState) : Prop :=
  (length (remaining_steps st) + length (step_log st))%nat = length R0.

(** Every log entry is that of a step of [R0], and its outcome meets [Q]. *)
Definition log_meets (Q : WorkflowStep → bool → Prop)
    (R0 : list (string * WorkflowStep)) (st : RunState) : Prop :=
  ∀ e, e ∈ step_log st → ∃ step, (le_step e, step) ∈ R0 ∧ Q step (le_ok e).

(** What the engine never writes while it runs an execution, and what it
    only lets grow: the identity of the execution, its context apart from
    [data], the keys of [data], the registry of executions, and the
    counters. *)
Record same_run (st st1 : RunState) : Prop := {
  run_identity :
    (we_id (execution st1), we_workflow_id (execution st1),
     we_started_at (execution st1), triggered_by (execution st1),
     we_priority (execution st1))
    = (we_id (execution st), we_workflow_id (execution st),
       we_started_at (execution st), triggered_by (execution st),
       we_priority (execution st));
  run_context :
    (wc_workflow_id (context (execution st1)), wc_execution_id (context (execution st1)),
     variables (context (execution st1)), wc_metadata (context (execution st1)),
     wc_created_at (context (execution st1)), wc_updated_at (context (execution st1)))
    = (wc_workflow_id (context (execution st)), wc_execution_id (context (execution st)),
       variables (context (execution st)), wc_metadata (context (execution st)),
       wc_created_at (context (execution st)), wc_updated_at (context (execution st)));
  run_data :
    dom (data (context (execution st))) ⊆ dom (data (context (execution st1)));
  run_registry :
    (executions st1, running_executions st1, wf_uuids_drawn st1)
    = (executions st, running_executions st, wf_uuids_drawn st);
  run_clock : (wf_clock_reads st ≤ wf_clock_reads st1)%nat;
  run_calls : (executor_calls st ≤ executor_calls st1)%nat;
}.

Definition keeps_run {A} (m : M RunState A) : Prop :=
  ∀ st r st1, m st = (r, st1) → same_run st st1.

(** * Inputs of the worked examples

    The runtime of the examples has a clock that advances one second per
    reading and numbers its ids; the examples use neither regular
    expressions nor [repr] of containers. *)

Definition plain_runtime : Runtime :=
  {| re_match := λ _ _, Raise ReError;
     py_repr := λ _, "";
     utcnow := λ n, Z.of_nat n;
     uuid4 := λ n, "id-" +:+ pretty n;
     isoformat := λ z, pretty z |}.

Section ExampleInputs.
#[local] Existing Instance plain_runtime.

(** The state of an engine that has run nothing yet. *)
Definition idle_execution : WorkflowExecution :=
  {| we_id := ""; we_workflow_id := ""; status := DRAFT;
     context := {| wc_workflow_id := ""; wc_execution_id := ""; data := ∅;
                   variables := ∅; wc_metadata := ∅; wc_created_at := 0;
                   wc_updated_at := 0 |};
     current_step := None; completed_steps := ∅; failed_steps := ∅;
     we_started_at := 0; we_completed_at := None; triggered_by := "";
     we_priority := 5 |}.

Definition initial_state : RunState :=
  {| execution := idle_execution; remaining_steps := []; step_runtime := ∅;
     executions := ∅; running_executions := ∅; wf_clock_reads := 0%nat;
     wf_uuids_drawn := 0%nat; executor_calls := 0%nat; step_log := [] |}.

(** The stored policy used for C2: one DATA_ACCESS rule of priority 200. *)
Definition late_deny_table : list PolicyStorage :=
  [ {| policy_id := "p1"; ps_name := "late"; ps_policy_type := "data_access";
       ps_rules :=
         [ {| rd_rule_id := "late_deny"; rd_name := "Late deny";
              rd_description := ""; rd_policy_type := "data_access";
              rd_conditions := [("resource_type", VStr "lead")];
              rd_action := "deny"; rd_metadata := None;
              rd_priority := Some 200; rd_enabled := None |} ];
       ps_is_active := true |} ].

Definition after_hours_context : gmap string value :=
  {[ "business_hours" := VBool false ]}.

Definition example_db : Database :=
  {| tbl_roles := [];
     tbl_user_roles :=
       [ {| ur_user_id := "vera"; ur_role_id := "viewer"; ur_assigned_by := None |};
         {| ur_user_id := "alice"; ur_role_id := "sales_rep"; ur_assigned_by := None |};
         {| ur_user_id := "bob"; ur_role_id := "sales_manager"; ur_assigned_by := None |};
         {| ur_user_id := "carol"; ur_role_id := "sales_manager";
            ur_assigned_by := None |} ];
     tbl_role_permissions := [];
     tbl_audit_logs := [];
     tbl_policies := [] |}.

Definition blank_governance : GovernanceSystem :=
  {| db := example_db; permission_cache := ∅; cache_timestamps := ∅;
     policy_engine := {| policies := ∅ |}; approval_queue := ∅;
     clock_reads := 0%nat; uuids_drawn := 0%nat; policy_evaluations := [] |}.

(** [GovernanceSystem(db)] on the example database: default roles and
    default policies seeded. *)
Definition example_governance : GovernanceSystem :=
  match GovernanceSystem_init example_db with
  | Ok g => g
  | Raise _ => blank_governance
  end.

(** The state after alice's read of a lead has been queued for approval
    (the default rule [data_access_own_leads]) and bob has approved it. *)
Definition approved_by_bob : GovernanceSystem :=
  snd (approve_action "id-1" "bob" true None
         (snd (authorize_action "alice" "read" (Some "lead") (Some "L1") None
                 example_governance))).

Definition queue_summary (g : GovernanceSystem) (approval_id : string)
    : option (string * option string * option Z) :=
  (λ r, (aq_status r, aq_approver_user_id r, aq_approved_at r))
    <$> approval_queue g !! approval_id.

Definition is_success (r : result ApprovalOutcome) : bool :=
  match r with
  | Ok out => success out
  | Raise _ => false
  end.

Definition resolved_request : ApprovalRequest :=
  {| aq_approval_id := "a1"; aq_user_id := "alice"; aq_action := "read";
     aq_context := ∅; aq_policy_result := evaluation REQUIRE_APPROVAL [] None;
     aq_requested_at := 1; aq_status := "approved";
     aq_approver_user_id := Some "bob"; aq_approved_at := Some 2;
     aq_comments := None |}.

Definition governance_with_resolved_request : GovernanceSystem :=
  set_approval_queue {[ "a1" := resolved_request ]} example_governance.

(** The parameters of the first step, [enrich_lead], of the default
    lead-qualification workflow, and a context as [trigger_workflow] builds
    it from the triggering data [{lead_id: L-42}]. *)
Definition enrich_lead_parameters : list (string * value) :=
  [("lead_id", VStr "${lead_id}"); ("enrich_company", VBool true);
   ("enrich_contact", VBool true)].

Definition lead_context : WorkflowContext :=
  {| wc_workflow_id := "lead_qualification_v1"; wc_execution_id := "id-0";
     data := {[ "lead_id" := VStr "L-42" ]}; variables := ∅;
     wc_metadata := ∅; wc_created_at := 0; wc_updated_at := 1 |}.

(** A tools library that answers with the parameters it was given. *)
Definition echo_tool (n : nat) (tool_name : value) (parameters : list (string * value))
    : Z * result ToolExecution :=
  (1, Ok {| tool_id := "t";
            te_result := Some {| sr_success := true; sr_data := Some parameters;
                                 sr_other := [] |} |}).

Definition returned : result StepResult :=
  Ok {| sr_success := true; sr_data := None; sr_other := [] |}.

(** An executor that needs five seconds, and one that needs one. *)
Definition slow_executor : StepExecutor := λ _ _ _, (5, returned).
Definition quick_executor : StepExecutor := λ _ _ _, (1, returned).

(** Steps A and B depend on nothing, C depends on A; A has a timeout of one
    second. *)
Definition step_A : WorkflowStep :=
  {| ws_id := "A"; ws_name := "A"; action_type := HUMAN_TASK; config := [];
     dependencies := []; ws_conditions := []; timeout_seconds := Some 1;
     retry_count := 0; max_retries := 3 |}.

Definition three_steps : WorkflowDefinition :=
  {| wd_id := "three_steps"; wd_name := "Three steps"; wd_description := "";
     wd_version := "1.0";
     steps := [step_A; plain_step "B" "B" DELAY [] [] [];
               plain_step "C" "C" DELAY [] ["A"] []];
     wd_variables := ∅; sla_hours := None |}.

Definition example_engine : WorkflowEngine :=
  {| workflows := {[ "three_steps" := three_steps ]};
     executors := λ a,
       match a with
       | HUMAN_TASK => Some slow_executor
       | DELAY => Some quick_executor
       | _ => None
       end |}.

(** The state right after [trigger_workflow("three_steps", {})]. *)
Definition triggered : RunState :=
  snd (trigger_workflow example_engine "three_steps" ∅ "manual" initial_state).

Definition run_summary (st : RunState)
    : WorkflowStatus * list (string * bool) * list string :=
  (status (execution st), map (λ e, (le_step e, le_ok e)) (step_log st),
   (remaining_steps st).*1).

(** A stored policy whose type string names no member of [PolicyType]. *)
Definition unknown_type_policy : PolicyStorage :=
  {| policy_id := "p2"; ps_name := "odd"; ps_policy_type := "billing";
     ps_rules := []; ps_is_active := true |}.

(** A stored SECURITY policy whose three rules are listed out of priority
    order, what [_load_policies] makes of it, and the engine over it. All
    three rules match a request that names a lead. *)
Definition layered_rule (id action : string) (p : Z) : RuleData :=
  {| rd_rule_id := id; rd_name := id; rd_description := "";
     rd_policy_type := "security";
     rd_conditions := [("resource_type", VStr "lead")];
     rd_action := action; rd_metadata := None;
     rd_priority := Some p; rd_enabled := None |}.

Definition layered_table : list PolicyStorage :=
  [ {| policy_id := "p4"; ps_name := "layered"; ps_policy_type := "security";
       ps_rules := [ layered_rule "mask" "redact" 30;
                     layered_rule "review" "require_approval" 10;
                     layered_rule "note" "log_only" 20 ];
       ps_is_active := true |} ].

Definition loaded_layered : gmap PolicyType (list PolicyRule) :=
  match _load_policies layered_table ∅ with
  | Ok ps => ps
  | Raise _ => ∅
  end.

Definition layered_engine : PolicyEngine :=
  match PolicyEngine_init layered_table with
  | Ok pe => pe
  | Raise _ => {| policies := ∅ |}
  end.

Definition lead_request : gmap string value := {[ "resource_type" := VStr "lead" ]}.

Definition layered_result : PolicyResult :=
  match evaluate_policies layered_engine SECURITY lead_request with
  | Ok r => r
  | Raise _ => evaluation ALLOW [] None
  end.

(** A context that the default rule [pii_redaction] matches, and what the
    seeded engine answers for it. *)
Definition pii_context : gmap string value := {[ "contains_pii" := VBool true ]}.

Definition pii_result : PolicyResult :=
  match evaluate_policies (policy_engine example_governance) PRIVACY pii_context with
  | Ok r => r
  | Raise _ => evaluation ALLOW [] None
  end.

(** A rule whose [in] condition has no list of values. *)
Definition in_without_values : PolicyRule :=
  simple_rule "r" DATA_ACCESS [("action", VDict [("operator", VStr "in")])] DENY 50.

(** The example database with one stored DATA_ACCESS policy whose rule has
    an [in] condition without values, and the governance system over it. *)
Definition broken_db : Database :=
  {| tbl_roles := tbl_roles example_db;
     tbl_user_roles := tbl_user_roles example_db;
     tbl_role_permissions := tbl_role_permissions example_db;
     tbl_audit_logs := tbl_audit_logs example_db;
     tbl_policies :=
       [ {| policy_id := "p3"; ps_name := "broken"; ps_policy_type := "data_access";
            ps_rules :=
              [ {| rd_rule_id := "no_values"; rd_name := "No values";
                   rd_description := ""; rd_policy_type := "data_access";
                   rd_conditions := [("action", VDict [("operator", VStr "in")])];
                   rd_action := "deny"; rd_metadata := None;
                   rd_priority := Some 50; rd_enabled := None |} ];
            ps_is_active := true |} ] |}.

Definition broken_governance : GovernanceSystem :=
  match GovernanceSystem_init broken_db with
  | Ok g => g
  | Raise _ => blank_governance
  end.

(** An engine built without a tools library: only delays have an
    executor. The lead-qualification workflow is registered. *)
Definition engine_without_tools : WorkflowEngine :=
  {| workflows := default_workflows;
     executors := λ a,
       match a with
       | DELAY => Some DelayExecutor
       | _ => None
       end |}.

Definition enrich_lead : WorkflowStep :=
  plain_step "enrich_lead" "Enrich Lead Data" AI_TOOL
    [("tool_name", VStr "enrich_lead");
     ("parameters", VDict enrich_lead_parameters)]
    [] [].

Definition lead_triggered : RunState :=
  snd (trigger_workflow engine_without_tools "lead_qualification_v1"
         {[ "lead_id" := VStr "L-42" ]} "manual" initial_state).

(** A tools library whose tool leaves no result, as one that waits for an
    approval does, and an engine over it at the start of the loop. *)
Definition silent_tool (n : nat) (tool_name : value) (parameters : list (string * value))
    : Z * result ToolExecution :=
  (1, Ok {| tool_id := "t"; te_result := None |}).

Definition silent_engine : WorkflowEngine :=
  {| workflows := default_workflows;
     executors := λ a,
       match a with
       | AI_TOOL => Some (AIToolExecutor silent_tool)
       | DELAY => Some DelayExecutor
       | _ => None
       end |}.

Definition lead_run : RunState :=
  with_remaining (steps_by_id (steps lead_qualification)) lead_triggered.

(** A workflow of two delays, the second of which waits for the first,
    and one whose only step waits for itself. *)
Definition wait_initial : WorkflowStep :=
  plain_step "wait_initial" "Initial Wait Period" DELAY [("delay_hours", VInt 24)] [] [].

Definition two_delays : WorkflowDefinition :=
  {| wd_id := "two_delays"; wd_name := "Two delays"; wd_description := "";
     wd_version := "1.0";
     steps := [wait_initial;
               plain_step "wait_more" "Second Wait" DELAY [("delay_seconds", VInt 30)]
                 ["wait_initial"] []];
     wd_variables := ∅; sla_hours := None |}.

Definition waits_for_itself : WorkflowStep :=
  plain_step "loop" "Loop" DELAY [] ["loop"] [].

Definition stuck : WorkflowDefinition :=
  {| wd_id := "stuck"; wd_name := "Stuck"; wd_description := "";
     wd_version := "1.0"; steps := [waits_for_itself];
     wd_variables := ∅; sla_hours := None |}.

Definition delay_engine : WorkflowEngine :=
  {| workflows := {[ "two_delays" := two_delays; "stuck" := stuck ]};
     executors := λ a,
       match a with
       | DELAY => Some DelayExecutor
       | _ => None
       end |}.

(** A delay of 30 seconds under a timeout of 60, after the first wait and
    on the condition that it has completed. *)
Definition timed_wait : WorkflowStep :=
  {| ws_id := "timed_wait"; ws_name := "Timed Wait"; action_type := DELAY;
     config := [("delay_seconds", VInt 30)]; dependencies := ["wait_initial"];
     ws_conditions := [[("step", VStr "wait_initial")]];
     timeout_seconds := Some 60; retry_count := 0; max_retries := 3 |}.

(** A wait of a day and a half-hour under a timeout of ten minutes. *)
Definition long_wait : WorkflowStep :=
  {| ws_id := "long_wait"; ws_name := "Long Wait"; action_type := DELAY;
     config := [("delay_hours", VInt 24); ("delay_minutes", VInt 30)];
     dependencies := []; ws_conditions := [];
     timeout_seconds := Some 600; retry_count := 0; max_retries := 3 |}.

Definition timed_delays : WorkflowDefinition :=
  {| wd_id := "timed_delays"; wd_name := "Timed delays"; wd_description := "";
     wd_version := "1.0"; steps := [wait_initial; timed_wait];
     wd_variables := ∅; sla_hours := None |}.

Definition timed_engine : WorkflowEngine :=
  {| workflows := {[ "timed_delays" := timed_delays ]};
     executors := λ a,
       match a with
       | DELAY => Some DelayExecutor
       | _ => None
       end |}.

Definition timed_triggered : RunState :=
  snd (trigger_workflow timed_engine "timed_delays" ∅ "manual" initial_state).

Definition delays_triggered : RunState :=
  snd (trigger_workflow delay_engine "two_delays" ∅ "manual" initial_state).

Definition stuck_triggered : RunState :=
  snd (trigger_workflow delay_engine "stuck" ∅ "manual" initial_state).

End ExampleInputs.

(** * Properties *)

Section Properties.
Context `{RT : Runtime}.

(** ** Properties of rule matching *)

Lemma conditions_hold_true cs context :
  conditions_hold cs context = Ok true ↔
  Forall (λ kc, condition_holds kc.2 (py_get context kc.1) = Ok true) cs.
Proof.
  induction cs as [|[k c] cs IH]; simpl.
  - split; [constructor | done].
  - rewrite Forall_cons. simpl.
    destruct (condition_holds c (py_get context k)) as [[|]|e]; simpl.
    + rewrite IH. split; [by split | by intros [_ ?]].
    + split; [done | intros [? _]; done].
    + split; [done | intros [? _]; done].
Qed.

Lemma condition_holds_not_in d vs v :
  dict_get "operator" d = Some (VStr "not_in") →
  dict_get "values" d = Some (VList vs) →
  condition_holds (VDict d) v = Ok (negb (existsb (py_eq v) vs)).
Proof. intros Hop Hvs. unfold condition_holds. rewrite Hop, Hvs. reflexivity. Qed.

(** C3, as amended. A rule matches exactly when it is enabled and, for every
    condition key, the matcher accepts what [context.get(key)] returns,
    which is [None] for a key the context lacks: no presence check is made.
    In particular a [not_in] matcher on a key the context lacks is judged
    against [None] and holds unless [None] is among its values. *)
Theorem matches_judges_absent_keys_as_None (rule : PolicyRule) (context : gmap string value) :
  (matches rule context = Ok true ↔
     enabled rule = true ∧
     ∀ k c, (k, c) ∈ conditions rule →
            condition_holds c (default VNone (context !! k)) = Ok true) ∧
  (∀ k d vs,
     dict_get "operator" d = Some (VStr "not_in") →
     dict_get "values" d = Some (VList vs) →
     context !! k = None →
     condition_holds (VDict d) (default VNone (context !! k))
       = Ok (negb (existsb (py_eq VNone) vs))).
Proof.
  split.
  - unfold matches. destruct (enabled rule); simpl.
    + rewrite conditions_hold_true, Forall_forall. unfold py_get.
      split.
      * intros H. split; [done|]. intros k c Hin. apply (H (k, c) Hin).
      * intros [_ H] [k c] Hin. apply (H k c Hin).
    + split; [done | intros [? _]; done].
  - intros k d vs Hop Hvs Hk. rewrite Hk.
    by apply condition_holds_not_in.
Qed.

(** ** Properties of policy evaluation *)

(** A matched DENY rule ends the evaluation: the rules after it play no
    part in the result. *)
Lemma evaluate_rules_deny_stops rule rest context violations final_action :
  matches rule context = Ok true →
  action rule = DENY →
  evaluate_rules (rule :: rest) context violations final_action
    = Ok (DENY, violations ++ [violation_of rule]).
Proof. intros Hm Ha. simpl. rewrite Hm. simpl. by rewrite bool_decide_eq_true_2. Qed.

(** A rule that does not match leaves both accumulators alone. *)
Lemma evaluate_rules_skip rule rest context violations final_action :
  matches rule context = Ok false →
  evaluate_rules (rule :: rest) context violations final_action
    = evaluate_rules rest context violations final_action.
Proof. intros Hm. simpl. by rewrite Hm. Qed.

(** [list.sort] leaves each list in ascending priority order. *)
Lemma insert_by_priority_sorted r l :
  Sorted (λ a b, priority a <= priority b) l →
  Sorted (λ a b, priority a <= priority b) (insert_by_priority r l).
Proof.
  induction 1 as [|x l Hs IH Hhd]; simpl.
  - repeat constructor.
  - destruct (Z.leb_spec (priority r) (priority x)).
    + constructor; [by constructor | by constructor].
    + constructor; [exact IH|].
      destruct Hhd as [|y l' Hxy]; simpl.
      * constructor. lia.
      * destruct (Z.leb_spec (priority r) (priority y)); constructor; lia.
Qed.

Lemma sort_by_priority_sorted l :
  Sorted (λ a b, priority a <= priority b) (sort_by_priority l).
Proof.
  induction l as [|r l IH]; simpl; [constructor|].
  by apply insert_by_priority_sorted.
Qed.

(** C1: the rules REDACT (priority 10) and REQUIRE_APPROVAL (priority 20)
    both match, neither is DENY, and [evaluate_policies] answers REDACT,
    although REQUIRE_APPROVAL is the most restrictive of the two: a
    REQUIRE_APPROVAL rule only replaces ALLOW. With the two priorities
    exchanged the answer is REQUIRE_APPROVAL. *)
Theorem evaluate_policies_redact_shadows_approval :
  let outcome rules :=
    r ← evaluate_policies {| policies := {[ PRIVACY := rules ]} |} PRIVACY ∅;
    Ok (pr_action r, map v_action (pr_violations r)) in
  outcome [simple_rule "redact" PRIVACY [] REDACT 10;
           simple_rule "approve" PRIVACY [] REQUIRE_APPROVAL 20]
    = Ok (REDACT, [REDACT; REQUIRE_APPROVAL]) ∧
  spec_most_restrictive [REDACT; REQUIRE_APPROVAL] = REQUIRE_APPROVAL ∧
  outcome [simple_rule "approve" PRIVACY [] REQUIRE_APPROVAL 10;
           simple_rule "redact" PRIVACY [] REDACT 20]
    = Ok (REQUIRE_APPROVAL, [REQUIRE_APPROVAL; REDACT]).
Proof. repeat split; vm_compute; reflexivity. Qed.

(** C2: with a stored DATA_ACCESS rule of priority 200, the default rule
    [data_access_own_leads] (priority 100) is appended after the sort, so
    the list is walked 200 first, 100 second. On a context that both rules
    match, the priority-200 DENY rule ends the evaluation and the
    priority-100 rule is never evaluated. *)
Theorem defaults_are_appended_after_the_sort :
  let context : gmap string value :=
    {[ "resource_type" := VStr "lead"; "action" := VStr "read" ]} in
  let rules_of (pe : PolicyEngine) := default [] (policies pe !! DATA_ACCESS) in
  (pe ← PolicyEngine_init late_deny_table;
   Ok (map (λ rule, (rule_id rule, priority rule)) (rules_of pe)))
    = Ok [("late_deny", 200); ("data_access_own_leads", 100)] ∧
  (pe ← PolicyEngine_init late_deny_table;
   Ok (map (λ rule, matches rule context) (rules_of pe)))
    = Ok [Ok true; Ok true] ∧
  (pe ← PolicyEngine_init late_deny_table;
   r ← evaluate_policies pe DATA_ACCESS context;
   Ok (pr_action r, map v_rule_id (pr_violations r)))
    = Ok (DENY, ["late_deny"]).
Proof. repeat split; vm_compute; reflexivity. Qed.

(** C9: a policy type with no registered rules (no entry, or an entry with
    an empty list) evaluates to ALLOW with no violations. *)
Theorem evaluate_policies_without_rules (self : PolicyEngine) (policy_type : PolicyType)
    (context : gmap string value) :
  policies self !! policy_type = None ∨ policies self !! policy_type = Some [] →
  ∃ r, evaluate_policies self policy_type context = Ok r ∧
       pr_action r = ALLOW ∧ pr_violations r = [].
Proof.
  intros [H|H]; unfold evaluate_policies; rewrite H; simpl; eauto.
Qed.

(** ** Properties of the governance coordinator *)

Lemma get_user_permissions_frame user_id g :
  ∃ ps g', get_user_permissions user_id g = (Ok ps, g') ∧ same_records g g'.
Proof.
  unfold get_user_permissions, same_records.
  unfold mbind, M_bind, mret, M_ret, get_state, now, modify, set_cache. simpl.
  destruct (permission_cache g !! user_id) as [cached|];
    [destruct (cache_timestamps g !! user_id) as [stamp|]|]; simpl;
    try case_bool_decide; simpl; eauto 10.
Qed.

Lemma has_permission_frame user_id permission g :
  ∃ b g', has_permission user_id permission g = (Ok b, g') ∧ same_records g g'.
Proof.
  destruct (get_user_permissions_frame user_id g) as (ps & g' & Hg & Hsame).
  unfold has_permission, mbind, M_bind. rewrite Hg. simpl.
  unfold mret, M_ret. eauto.
Qed.

(** C4: when the lookup table requires a permission and [has_permission]
    answers no, [authorize_action] appends exactly one audit entry, of type
    PERMISSION_DENIED and without policy violations, returns
    [authorized = False] with reason [insufficient_permissions], and calls
    [enforce_policy] not at all; nothing is queued for approval. *)
Theorem authorize_action_insufficient_permissions
    (g g1 : GovernanceSystem) (user_id action : string)
    (resource_type resource_id : option string)
    (context : option (gmap string value)) (permission : Permission) :
  _map_action_to_permission action resource_type = Some permission →
  has_permission user_id permission (snd (now g)) = (Ok false, g1) →
  ∃ a g' entry,
    authorize_action user_id action resource_type resource_id context g = (Ok a, g') ∧
    authorized a = false ∧
    reason a = Some "insufficient_permissions" ∧
    tbl_audit_logs (db g') = tbl_audit_logs (db g) ++ [entry] ∧
    al_event_type entry = "permission_denied" ∧
    al_policy_violations entry = [] ∧
    policy_evaluations g' = policy_evaluations g ∧
    approval_queue g' = approval_queue g.
Proof.
  intros Hmap Hperm.
  destruct (has_permission_frame user_id permission (snd (now g)))
    as (b & g1' & Hg1 & Hdb & _ & Hq & _ & Hev).
  rewrite Hperm in Hg1. injection Hg1 as <- <-.
  unfold authorize_action. rewrite Hmap.
  unfold mbind at 1. unfold M_bind at 1.
  change (now g) with (Ok (utcnow (clock_reads g)), snd (now g)).
  cbv beta iota.
  unfold mbind at 1. unfold M_bind at 1.
  unfold mbind at 1. unfold M_bind at 1.
  rewrite Hperm. cbv beta iota.
  unfold mret at 1. unfold M_ret at 1. cbv beta iota. simpl negb. cbv beta iota.
  unfold log_event, mbind, M_bind, mret, M_ret, new_uuid, now, modify, set_db.
  simpl.
  do 3 eexists. split; [reflexivity|]. simpl.
  rewrite Hdb, Hev, Hq. simpl. repeat split; reflexivity.
Qed.

(** C5, as amended. [approve_action] does not look at the status of the
    request: whenever the id is in the queue and the approver holds
    APPROVE_AI_DECISIONS, it succeeds and overwrites the status, the
    approver, the approval time and the comments, whatever the status was,
    so also on a request that is already approved or denied. *)
Theorem approve_action_overwrites
    (g g1 : GovernanceSystem) (approval_id approver_user_id : string)
    (approved : bool) (comments : option string) (request : ApprovalRequest) :
  approval_queue g !! approval_id = Some request →
  has_permission approver_user_id APPROVE_AI_DECISIONS g = (Ok true, g1) →
  ∃ out g',
    approve_action approval_id approver_user_id approved comments g = (Ok out, g') ∧
    success out = true ∧
    ao_approved out = Some approved ∧
    approval_queue g' =
      <[approval_id :=
          {| aq_approval_id := aq_approval_id request;
             aq_user_id := aq_user_id request;
             aq_action := aq_action request;
             aq_context := aq_context request;
             aq_policy_result := aq_policy_result request;
             aq_requested_at := aq_requested_at request;
             aq_status := if approved then "approved" else "denied";
             aq_approver_user_id := Some approver_user_id;
             aq_approved_at := Some (utcnow (clock_reads g1));
             aq_comments := comments |}]> (approval_queue g).
Proof.
  intros Hq Hperm.
  destruct (has_permission_frame approver_user_id APPROVE_AI_DECISIONS g)
    as (b & g1' & Hg1 & _ & _ & Hq1 & _ & _).
  rewrite Hperm in Hg1. injection Hg1 as <- <-.
  unfold approve_action.
  unfold mbind at 1. unfold M_bind at 1. unfold get_state at 1. cbv beta iota.
  rewrite Hq.
  unfold mbind at 1. unfold M_bind at 1. rewrite Hperm. cbv beta iota.
  change (negb true) with false. cbv beta iota.
  unfold mbind at 1. unfold M_bind at 1. unfold get_state at 1. cbv beta iota.
  rewrite Hq1, Hq.
  unfold log_event, mbind, M_bind, mret, M_ret, new_uuid, now, modify, set_db,
    set_approval_queue.
  simpl.
  do 2 eexists. split; [reflexivity|]. simpl.
  rewrite Hq1. repeat split; reflexivity.
Qed.

(** ** Dictionaries with distinct keys *)

Section Dict.
Context {V : Type}.
Implicit Types (d : list (string * V)) (k : string) (v : V).

Lemma dict_get_Some_elem k v d : dict_get k d = Some v → (k, v) ∈ d.
Proof.
  induction d as [|[k' v'] d IH]; simpl; [done|].
  destruct (String.eqb_spec k k') as [->|Hne].
  - intros [= ->]. left.
  - intros H. right. by apply IH.
Qed.

Lemma dict_get_None_keys k d : dict_get k d = None ↔ k ∉ d.*1.
Proof.
  induction d as [|[k' v'] d IH]; simpl.
  - split; [intros _; apply not_elem_of_nil | done].
  - rewrite not_elem_of_cons. destruct (String.eqb_spec k k') as [->|Hne].
    + split; [done | intros [? _]; done].
    + rewrite IH. split; [by split | by intros [_ ?]].
Qed.

Lemma dict_get_elem k v d : NoDup d.*1 → (k, v) ∈ d → dict_get k d = Some v.
Proof.
  induction d as [|[k' v'] d IH]; simpl.
  - intros _ H. by apply elem_of_nil in H.
  - rewrite NoDup_cons. intros [Hk Hnd]. rewrite elem_of_cons.
    intros [[= <- <-]|Hin].
    + by rewrite String.eqb_refl.
    + destruct (String.eqb_spec k k') as [->|Hne]; [|by apply IH].
      exfalso. apply Hk. apply list_elem_of_fmap. by exists (k', v).
Qed.

Lemma dict_remove_elem k k' v d :
  NoDup d.*1 → ((k', v) ∈ dict_remove k d ↔ (k', v) ∈ d ∧ k' ≠ k).
Proof.
  induction d as [|[k0 v0] d IH]; simpl.
  - intros _. split; [intros H; by apply elem_of_nil in H | intros [H _]; by apply elem_of_nil in H].
  - rewrite NoDup_cons. intros [Hk Hnd].
    destruct (String.eqb_spec k k0) as [->|Hne].
    + rewrite elem_of_cons. split.
      * intros Hin. split; [by right|]. intros ->. apply Hk.
        apply list_elem_of_fmap. by exists (k0, v).
      * intros [[[= -> ->]|Hin] Hneq]; done.
    + rewrite !elem_of_cons, (IH Hnd). split.
      * intros [[= -> ->]|[Hin Hneq]]; [split; [by left | done] | split; [by right | done]].
      * intros [[[= -> ->]|Hin] Hneq]; [by left | right; by split].
Qed.

Lemma dict_remove_keys k k' d : k' ∈ (dict_remove k d).*1 → k' ∈ d.*1.
Proof.
  induction d as [|[k0 v0] d IH]; simpl; [done|].
  destruct (String.eqb_spec k k0) as [->|Hne].
  - intros H. by right.
  - simpl. rewrite !elem_of_cons. intros [->|H]; [by left | right; by apply IH].
Qed.

Lemma dict_remove_NoDup k d : NoDup d.*1 → NoDup (dict_remove k d).*1.
Proof.
  induction d as [|[k0 v0] d IH]; simpl; [done|].
  rewrite NoDup_cons. intros [Hk Hnd].
  destruct (String.eqb_spec k k0) as [->|Hne]; [done|].
  simpl. apply NoDup_cons. split; [|by apply IH].
  intros H. apply Hk. by apply dict_remove_keys in H.
Qed.

Lemma dict_remove_not_key k d : NoDup d.*1 → k ∉ (dict_remove k d).*1.
Proof.
  intros Hnd Hin. apply list_elem_of_fmap in Hin as [[k' v] [Heq Hin]].
  simpl in Heq. subst k'. apply dict_remove_elem in Hin; [|done].
  by destruct Hin.
Qed.

Lemma dict_remove_length k v d :
  dict_get k d = Some v → S (length (dict_remove k d)) = length d.
Proof.
  induction d as [|[k0 v0] d IH]; simpl; [done|].
  destruct (String.eqb_spec k k0) as [->|Hne]; [done|].
  intros H. simpl. by rewrite IH.
Qed.

Lemma dict_set_keys k k' v d : k' ∈ (dict_set k v d).*1 ↔ k' = k ∨ k' ∈ d.*1.
Proof.
  induction d as [|[k0 v0] d IH]; simpl.
  - rewrite elem_of_cons. split; intros [?|H]; auto; by apply elem_of_nil in H.
  - destruct (String.eqb_spec k k0) as [->|Hne]; simpl.
    + rewrite !elem_of_cons. naive_solver.
    + rewrite !elem_of_cons, IH. naive_solver.
Qed.

Lemma dict_set_NoDup k v d : NoDup d.*1 → NoDup (dict_set k v d).*1.
Proof.
  induction d as [|[k0 v0] d IH]; simpl.
  - intros _. apply NoDup_singleton.
  - rewrite NoDup_cons. intros [Hk Hnd].
    destruct (String.eqb_spec k k0) as [->|Hne]; simpl.
    + by apply NoDup_cons.
    + apply NoDup_cons. split; [|by apply IH].
      rewrite dict_set_keys. intros [->|H]; done.
Qed.

Lemma dict_set_elem k k' v v' d :
  (k', v') ∈ dict_set k v d → (k' = k ∧ v' = v) ∨ (k', v') ∈ d.
Proof.
  induction d as [|[k0 v0] d IH]; simpl.
  - rewrite elem_of_cons. intros [[= -> ->]|H]; [by left | by apply elem_of_nil in H].
  - destruct (String.eqb_spec k k0) as [->|Hne]; rewrite !elem_of_cons.
    + intros [[= -> ->]|H]; [by left | right; by right].
    + intros [[= -> ->]|H]; [right; by left|].
      destruct (IH H) as [?|?]; [by left | right; by right].
Qed.

End Dict.

(** ** Properties of the execution loop *)

Lemma same_books_refl st : same_books st st.
Proof. by repeat split. Qed.

Lemma same_books_trans st1 st2 st3 :
  same_books st1 st2 → same_books st2 st3 → same_books st1 st3.
Proof.
  unfold same_books. intros (?&?&?&?&?) (?&?&?&?&?).
  repeat split; congruence.
Qed.

Lemma keeps_books_bind {A B} (m : M RunState A) (f : A → M RunState B) :
  keeps_books m → (∀ a, keeps_books (f a)) → keeps_books (m ≫= f).
Proof.
  intros Hm Hf st r st2. unfold mbind, M_bind.
  destruct (m st) as [[a|e] st1] eqn:E.
  - intros H. eapply same_books_trans; [by eapply Hm | by eapply Hf].
  - intros [= <- <-]. by eapply Hm.
Qed.

Lemma keeps_books_ret {A} (a : A) : keeps_books (mret a).
Proof. intros st r st1 [= <- <-]. apply same_books_refl. Qed.

Lemma keeps_books_raise {A} e : keeps_books (raise e : M RunState A).
Proof. intros st r st1 [= <- <-]. apply same_books_refl. Qed.

Lemma keeps_books_get : keeps_books get_state.
Proof. intros st r st1 [= <- <-]. apply same_books_refl. Qed.

Lemma keeps_books_now : keeps_books wf_now.
Proof. intros st r st1 [= <- <-]. by repeat split. Qed.

Lemma keeps_books_call : keeps_books next_call.
Proof. intros st r st1 [= <- <-]. by repeat split. Qed.

Lemma keeps_books_step id f : keeps_books (modify (with_step id f)).
Proof. intros st r st1 [= <- <-]. by repeat split. Qed.

Lemma keeps_books_current id :
  keeps_books (modify (with_execution (set_current_step id))).
Proof. intros st r st1 [= <- <-]. by repeat split. Qed.

Lemma keeps_books_data d : keeps_books (modify (with_execution (update_data d))).
Proof. intros st r st1 [= <- <-]. by repeat split. Qed.

Create HintDb books.
#[local] Hint Resolve keeps_books_ret keeps_books_raise keeps_books_get
  keeps_books_now keeps_books_call keeps_books_step keeps_books_current
  keeps_books_data : books.

Lemma _execute_step_keeps_books self step : keeps_books (_execute_step self step).
Proof.
  unfold _execute_step.
  apply keeps_books_bind; [auto with books|]. intros t0.
  apply keeps_books_bind; [auto with books|]. intros _.
  apply keeps_books_bind; [auto with books|]. intros _.
  destruct (executors self (action_type step)) as [executor|]; [|auto with books].
  apply keeps_books_bind; [auto with books|]. intros n.
  apply keeps_books_bind; [auto with books|]. intros st.
  cbv zeta.
  match goal with |- keeps_books (match ?o with _ => _ end) => destruct o as [r|e] end.
  - apply keeps_books_bind; [auto with books|]. intros t1.
    apply keeps_books_bind; [auto with books|]. intros _.
    destruct (sr_data r) as [d|]; [|auto with books].
    destruct (sr_success r && negb (bool_decide (d = []))); auto with books.
  - destruct e;
      (apply keeps_books_bind; [auto with books|]; intros t1;
       apply keeps_books_bind; [auto with books|]; intros _; auto with books).
Qed.

Lemma run_step_spec self step st v :
  dict_get (ws_id step) (remaining_steps st) = Some v →
  ∃ (ok : bool) st',
    run_step self step st = (Ok (), st') ∧
    status (execution st') = status (execution st) ∧
    remaining_steps st' = dict_remove (ws_id step) (remaining_steps st) ∧
    completed_steps (execution st') =
      (if ok then completed_steps (execution st) ∪ {[ws_id step]}
       else completed_steps (execution st)) ∧
    failed_steps (execution st') =
      (if ok then failed_steps (execution st)
       else failed_steps (execution st) ∪ {[ws_id step]}) ∧
    step_log st' =
      step_log st ++
      [{| le_step := ws_id step; le_ok := ok;
          le_completed := completed_steps (execution st');
          le_failed := failed_steps (execution st') |}].
Proof.
  intros Hget. unfold run_step.
  destruct (_execute_step self step st) as [r st1] eqn:E.
  apply _execute_step_keeps_books in E as (Hc & Hf & Hs & Hr & Hl).
  destruct r as [[]|e]; cbv zeta.
  - exists true. unfold pop_remaining, dict_pop. simpl. rewrite Hr, Hget. simpl.
    eexists. split; [reflexivity|]. simpl. rewrite Hc, Hf, Hs, Hl. done.
  - exists false. unfold pop_remaining, dict_pop. simpl. rewrite Hr, Hget. simpl.
    eexists. split; [reflexivity|]. simpl. rewrite Hc, Hf, Hs, Hl. done.
Qed.

Lemma ok_ids_app l1 l2 : ok_ids (l1 ++ l2) = ok_ids l1 ++ ok_ids l2.
Proof. unfold ok_ids. by rewrite filter_app, fmap_app. Qed.

Lemma bad_ids_app l1 l2 : bad_ids (l1 ++ l2) = bad_ids l1 ++ bad_ids l2.
Proof. unfold bad_ids. by rewrite filter_app, fmap_app. Qed.

Lemma elem_of_ok_ids x log :
  x ∈ ok_ids log ↔ ∃ e, e ∈ log ∧ le_step e = x ∧ le_ok e = true.
Proof.
  unfold ok_ids. rewrite list_elem_of_fmap. split.
  - intros (e & -> & He). apply list_elem_of_filter in He as [? ?]. eauto.
  - intros (e & He & <- & Hok). exists e. split; [done|].
    by apply list_elem_of_filter.
Qed.

Lemma elem_of_bad_ids x log :
  x ∈ bad_ids log ↔ ∃ e, e ∈ log ∧ le_step e = x ∧ le_ok e = false.
Proof.
  unfold bad_ids. rewrite list_elem_of_fmap. split.
  - intros (e & -> & He). apply list_elem_of_filter in He as [? ?]. eauto.
  - intros (e & He & <- & Hok). exists e. split; [done|].
    by apply list_elem_of_filter.
Qed.

(** Two entries of a log without repeated steps that name the same step
    are the same entry. *)
Lemma log_entry_unique (log : list LogEntry) e1 e2 :
  NoDup (le_step <$> log) → e1 ∈ log → e2 ∈ log → le_step e1 = le_step e2 → e1 = e2.
Proof.
  intros Hnd He1 He2 Heq.
  apply list_elem_of_lookup in He1 as [i Hi], He2 as [j Hj].
  assert (i = j); [|congruence].
  eapply (NoDup_lookup _ i j (le_step e1) Hnd).
  - by rewrite list_lookup_fmap, Hi.
  - rewrite list_lookup_fmap, Hj. simpl. congruence.
Qed.

Lemma dependencies_met_spec step e :
  dependencies_met step e = true ↔ ∀ dep, dep ∈ dependencies step → dep ∈ completed_steps e.
Proof.
  unfold dependencies_met. rewrite forallb_forall. split.
  - intros H dep Hin. apply list_elem_of_In in Hin.
    specialize (H dep Hin). by apply bool_decide_eq_true in H.
  - intros H dep Hin. apply bool_decide_eq_true. apply H. by apply list_elem_of_In.
Qed.

Lemma log_snoc_split (log l1 l2 : list LogEntry) (new e : LogEntry) :
  log ++ [new] = l1 ++ e :: l2 →
  (l2 = [] ∧ l1 = log ∧ e = new) ∨ (∃ l2', l2 = l2' ++ [new] ∧ log = l1 ++ e :: l2').
Proof.
  destruct l2 as [|x l2 _] using rev_ind.
  - intros H. apply app_inj_tail in H as [H1 H2]. left. by subst.
  - intros H. right. exists l2.
    change (l1 ++ e :: l2 ++ [x]) with (l1 ++ (e :: l2) ++ [x]) in H.
    rewrite app_assoc in H. apply app_inj_tail in H as [H1 H2]. by subst.
Qed.

Section Loop.
Context (self : WorkflowEngine) (R0 : list (string * WorkflowStep)).
Context (R0_keys : NoDup R0.*1).
Context (R0_ids : ∀ k s, (k, s) ∈ R0 → ws_id s = k).

Lemma run_step_facts step st :
  run_facts R0 st →
  (ws_id step, step) ∈ remaining_steps st →
  dependencies_met step (execution st) = true →
  ∃ st',
    run_step self step st = (Ok (), st') ∧
    run_facts R0 st' ∧
    status (execution st') = status (execution st) ∧
    remaining_steps st' = dict_remove (ws_id step) (remaining_steps st) ∧
    completed_steps (execution st) ⊆ completed_steps (execution st') ∧
    (le_step <$> step_log st') = (le_step <$> step_log st) ++ [ws_id step].
Proof.
  intros F Hin Hdeps.
  assert (Hget : dict_get (ws_id step) (remaining_steps st) = Some step).
  { apply dict_get_elem; [apply F | done]. }
  destruct (run_step_spec self step st step Hget)
    as (ok & st' & Hrun & Hs & Hr & Hc & Hf & Hl).
  exists st'. split; [done|].
  assert (Hfresh : ws_id step ∉ le_step <$> step_log st).
  { intros Hx. apply list_elem_of_fmap in Hx as (e & He & Hein).
    apply (rf_gone _ _ F e Hein). rewrite <- He.
    apply list_elem_of_fmap. by exists (ws_id step, step). }
  assert (Hnc : ws_id step ∉ completed_steps (execution st)).
  { rewrite (rf_completed _ _ F), elem_of_list_to_set, elem_of_ok_ids.
    intros (e & He & Hid & _). apply Hfresh. apply list_elem_of_fmap. eauto. }
  assert (Hnf : ws_id step ∉ failed_steps (execution st)).
  { rewrite (rf_failed _ _ F), elem_of_list_to_set, elem_of_bad_ids.
    intros (e & He & Hid & _). apply Hfresh. apply list_elem_of_fmap. eauto. }
  assert (Hdisj : completed_steps (execution st) ## failed_steps (execution st)).
  { rewrite (rf_completed _ _ F), (rf_failed _ _ F).
    intros x. rewrite !elem_of_list_to_set, elem_of_ok_ids, elem_of_bad_ids.
    intros (e1 & He1 & Hid1 & Hok1) (e2 & He2 & Hid2 & Hok2).
    assert (e1 = e2); [|congruence].
    apply (log_entry_unique _ _ _ (rf_nodup _ _ F) He1 He2). congruence. }
  split; [|split; [done|split; [done|split]]].
  - constructor.
    + rewrite Hr. apply dict_remove_NoDup, F.
    + intros k s. rewrite Hr. rewrite dict_remove_elem by apply F.
      intros [? _]. by apply (rf_sub _ _ F).
    + rewrite Hc, Hl, ok_ids_app, list_to_set_app_L, <- (rf_completed _ _ F).
      unfold ok_ids. rewrite filter_cons, filter_nil. simpl.
      destruct ok; simpl; repeat case_decide; try done; simpl; set_solver.
    + rewrite Hf, Hl, bad_ids_app, list_to_set_app_L, <- (rf_failed _ _ F).
      unfold bad_ids. rewrite filter_cons, filter_nil. simpl.
      destruct ok; simpl; repeat case_decide; try done; simpl; set_solver.
    + rewrite Hl, fmap_app. simpl. apply NoDup_app. split; [apply F|].
      split; [|apply NoDup_singleton].
      intros x Hx Hx'. apply list_elem_of_singleton in Hx' as ->. by apply Hfresh.
    + intros e. rewrite Hl, elem_of_app, list_elem_of_singleton, Hr.
      intros [He| ->].
      * intros Hk. apply dict_remove_keys in Hk. by apply (rf_gone _ _ F e).
      * simpl. apply dict_remove_not_key, F.
    + intros e. rewrite Hl, elem_of_app, list_elem_of_singleton.
      intros [He| ->]; [by apply (rf_from _ _ F)|]. simpl.
      apply list_elem_of_fmap. exists (ws_id step, step). split; [done|].
      by apply (rf_sub _ _ F).
    + intros e. rewrite Hl, elem_of_app, list_elem_of_singleton.
      intros [He| ->]; [by apply (rf_entries _ _ F)|].
      unfold entry_ok. simpl. rewrite Hc, Hf. destruct ok; set_solver.
    + intros l1 e l2 step' dep Hsplit Hstep Hdep. rewrite Hl in Hsplit.
      apply log_snoc_split in Hsplit as [(-> & -> & ->)|(l2' & -> & Hlog)].
      * simpl in Hstep.
        assert (step' = step) as ->.
        { assert (H1 : dict_get (ws_id step) R0 = Some step')
            by by apply dict_get_elem.
          assert (H2 : dict_get (ws_id step) R0 = Some step).
          { apply dict_get_elem; [done|]. by apply (rf_sub _ _ F). }
          congruence. }
        apply dependencies_met_spec with (dep := dep) in Hdeps; [|done].
        rewrite (rf_completed _ _ F), elem_of_list_to_set, elem_of_ok_ids in Hdeps.
        done.
      * by apply (rf_deps _ _ F l1 e l2' step' dep).
  - rewrite Hc. destruct ok; set_solver.
  - rewrite Hl, fmap_app. done.
Qed.

Lemma dependencies_met_mono step e e' :
  completed_steps e ⊆ completed_steps e' →
  dependencies_met step e = true → dependencies_met step e' = true.
Proof. rewrite !dependencies_met_spec. set_solver. Qed.

(** The [for] loop runs every step of its list, in order, whatever the
    outcome of the steps before. *)
Lemma run_ready_steps_facts ready st :
  run_facts R0 st →
  NoDup (ws_id <$> ready) →
  (∀ s, s ∈ ready →
        (ws_id s, s) ∈ remaining_steps st ∧ dependencies_met s (execution st) = true) →
  ∃ st',
    run_ready_steps self ready st = (Ok (), st') ∧
    run_facts R0 st' ∧
    status (execution st') = status (execution st) ∧
    (length (remaining_steps st') + length ready)%nat = length (remaining_steps st) ∧
    (le_step <$> step_log st') = (le_step <$> step_log st) ++ (ws_id <$> ready).
Proof.
  revert st. induction ready as [|step rest IH]; intros st F Hnd Hready.
  - exists st. simpl. rewrite app_nil_r.
    split; [done|]. split; [done|]. split; [done|]. split; [apply Nat.add_0_r | done].
  - rewrite fmap_cons, NoDup_cons in Hnd. destruct Hnd as [Hhd Hnd].
    destruct (Hready step) as [Hin Hdeps]; [left|].
    destruct (run_step_facts step st F Hin Hdeps)
      as (st1 & Hrun & F1 & Hs1 & Hr1 & Hc1 & Hl1).
    destruct (IH st1 F1 Hnd) as (st' & Hrest & F' & Hs' & Hlen & Hl').
    { intros s Hs. destruct (Hready s) as [Hsin Hsdeps]; [by right|]. split.
      - rewrite Hr1. apply dict_remove_elem; [apply F|]. split; [done|].
        intros Heq. apply Hhd. rewrite <- Heq. apply list_elem_of_fmap. eauto.
      - by eapply dependencies_met_mono. }
    exists st'. split.
    { simpl. unfold mbind, M_bind. rewrite Hrun. done. }
    split; [done|]. split; [congruence|]. split.
    + rewrite Hr1 in Hlen.
      assert (Hget : dict_get (ws_id step) (remaining_steps st) = Some step).
      { apply dict_get_elem; [apply F | done]. }
      apply dict_remove_length in Hget. simpl. lia.
    + rewrite Hl', Hl1, <- app_assoc. done.
Qed.

Lemma ready_steps_elem cands e ready s :
  ready_steps cands e = Ok ready → s ∈ ready →
  s ∈ cands ∧ dependencies_met s e = true.
Proof.
  revert ready. induction cands as [|c cands IH]; simpl; intros ready.
  - intros [= <-] H. by apply elem_of_nil in H.
  - destruct (dependencies_met c e) eqn:Hd.
    + destruct (_check_step_conditions c e) as [keep|]; simpl; [|done].
      destruct (ready_steps cands e) as [ready'|]; simpl; [|done].
      intros [= <-]. destruct keep.
      * rewrite elem_of_cons. intros [->|H]; [split; [left | done]|].
        destruct (IH ready' eq_refl H). split; [by right | done].
      * intros H. destruct (IH ready' eq_refl H). split; [by right | done].
    + simpl. destruct (ready_steps cands e) as [ready'|]; simpl; [|done].
      intros [= <-] H. destruct (IH ready' eq_refl H). split; [by right | done].
Qed.

Lemma ready_steps_NoDup cands e ready :
  ready_steps cands e = Ok ready → NoDup (ws_id <$> cands) → NoDup (ws_id <$> ready).
Proof.
  revert ready. induction cands as [|c cands IH]; simpl; intros ready.
  - by intros [= <-].
  - rewrite NoDup_cons. intros H [Hc Hnd].
    assert (Hrest : ∀ ready', ready_steps cands e = Ok ready' →
                              NoDup (ws_id <$> ready') ∧ ws_id c ∉ ws_id <$> ready').
    { intros ready' E. split; [by apply IH|].
      intros Hx. apply Hc. apply list_elem_of_fmap in Hx as (s & Hs & Hin).
      apply list_elem_of_fmap. exists s. split; [done|].
      by apply (ready_steps_elem cands e ready' s E). }
    destruct (if dependencies_met c e then _check_step_conditions c e else Ok false)
      as [keep|]; simpl in H; [|done].
    destruct (ready_steps cands e) as [ready'|]; simpl in H; [|done].
    injection H as <-. destruct (Hrest ready' eq_refl) as [Hnd' Hc'].
    destruct keep; [|done]. rewrite fmap_cons. by apply NoDup_cons.
Qed.

(** The readiness test reads the execution's [completed_steps] only. *)
Lemma ready_steps_ext cands e e' :
  completed_steps e = completed_steps e' → ready_steps cands e = ready_steps cands e'.
Proof.
  intros Heq. induction cands as [|c cands IH]; simpl; [done|].
  rewrite IH.
  assert (dependencies_met c e = dependencies_met c e') as ->.
  { unfold dependencies_met. by rewrite Heq. }
  assert (_check_step_conditions c e = _check_step_conditions c e') as ->; [|done].
  unfold _check_step_conditions.
  assert (∀ conds, check_conditions conds e = check_conditions conds e') as Hc.
  { induction conds as [|cond conds IHc]; simpl; [done|].
    rewrite IHc. unfold in_completed. by rewrite Heq. }
  destruct (ws_conditions c); [done | apply Hc].
Qed.

Lemma values_ids (R : list (string * WorkflowStep)) :
  (∀ k s, (k, s) ∈ R → ws_id s = k) → ws_id <$> map snd R = R.*1.
Proof.
  induction R as [|[k s] R IH]; simpl; [done|]. intros H.
  rewrite (H k s) by left. f_equal. apply IH. intros k' s' Hin. apply H. by right.
Qed.

Lemma values_elem (R : list (string * WorkflowStep)) s :
  (∀ k s, (k, s) ∈ R → ws_id s = k) → s ∈ map snd R → (ws_id s, s) ∈ R.
Proof.
  intros H Hin. apply list_elem_of_In, in_map_iff in Hin as ([k s'] & Heq & Hin).
  simpl in Heq. subst s'. apply list_elem_of_In in Hin.
  by rewrite (H k s Hin).
Qed.

(** The [while] loop ends within one round per remaining step, keeps the
    invariant, raises only out of the readiness test, and when it ends no
    remaining step is ready. *)
Lemma execute_loop_facts fuel st :
  run_facts R0 st →
  status (execution st) = ACTIVE →
  (length (remaining_steps st) ≤ fuel)%nat →
  ∃ r st',
    execute_loop fuel self st = Some (r, st') ∧
    run_facts R0 st' ∧
    status (execution st') = ACTIVE ∧
    (∀ ready, ready_steps (map snd (remaining_steps st')) (execution st') = Ok ready →
              ready = []).
Proof.
  revert st. induction fuel as [|fuel IH]; intros st F Hs Hlen.
  - destruct (remaining_steps st) as [|x R] eqn:ER; [|simpl in Hlen; lia].
    exists (Ok ()), st. simpl. rewrite ER.
    rewrite bool_decide_eq_false_2 by (by intros [? _]).
    split; [done|]. split; [done|]. split; [done|].
    simpl. by intros ready [= <-].
  - simpl. case_bool_decide as Hcond.
    + destruct (ready_steps (map snd (remaining_steps st)) (execution st))
        as [[|s ready]|e] eqn:ER.
      * exists (Ok ()), st. split; [done|]. split; [done|]. split; [done|].
        rewrite ER. by intros ? [= <-].
      * assert (Hids : ∀ k s, (k, s) ∈ remaining_steps st → ws_id s = k).
        { intros k s' Hin. apply R0_ids. by apply (rf_sub _ _ F). }
        destruct (run_ready_steps_facts (s :: ready) st F)
          as (st1 & Hrun & F1 & Hs1 & Hlen1 & _).
        { eapply ready_steps_NoDup; [done|]. rewrite values_ids by done. apply F. }
        { intros s' Hs'. destruct (ready_steps_elem _ _ _ s' ER Hs') as [Hc Hd].
          split; [by apply values_elem | done]. }
        rewrite Hrun.
        apply IH; [done | congruence | simpl in Hlen1; lia].
      * exists (Raise e), st. split; [done|]. split; [done|]. split; [done|].
        rewrite ER. done.
    + exists (Ok ()), st. split; [done|]. split; [done|]. split; [done|].
      apply not_and_l in Hcond as [Hnil|Hst]; [|done].
      destruct (remaining_steps st) as [|x R]; [|exfalso; by apply Hnil].
      simpl. by intros ? [= <-].
Qed.

End Loop.

Lemma steps_by_id_wf l :
  NoDup (steps_by_id l).*1 ∧ ∀ k s, (k, s) ∈ steps_by_id l → ws_id s = k.
Proof.
  unfold steps_by_id.
  assert (∀ acc : list (string * WorkflowStep),
            NoDup acc.*1 → (∀ k s, (k, s) ∈ acc → ws_id s = k) →
            NoDup (foldl (λ d step, dict_set (ws_id step) step d) acc l).*1 ∧
            ∀ k s, (k, s) ∈ foldl (λ d step, dict_set (ws_id step) step d) acc l →
                   ws_id s = k) as H.
  { induction l as [|step l IH]; intros acc Hnd Hids; simpl; [done|].
    apply IH; [by apply dict_set_NoDup|].
    intros k s Hin. apply dict_set_elem in Hin as [[-> ->]|Hin]; [done | by apply Hids]. }
  apply H; [constructor|]. intros k s Hin. by apply elem_of_nil in Hin.
Qed.

Lemma trigger_workflow_fresh self workflow_id context_data triggered_by st e st' :
  trigger_workflow self workflow_id context_data triggered_by st = (Ok e, st') →
  fresh st' ∧ execution st' = e ∧ we_workflow_id e = workflow_id.
Proof.
  unfold trigger_workflow. destruct (workflows self !! workflow_id); [|done].
  unfold mbind, M_bind, get_state, wf_now, tick, modify, mret, M_ret. simpl.
  intros [= <- <-]. by repeat split.
Qed.

Lemma run_facts_books R0 st st' :
  run_facts R0 st →
  completed_steps (execution st') = completed_steps (execution st) →
  failed_steps (execution st') = failed_steps (execution st) →
  remaining_steps st' = remaining_steps st →
  step_log st' = step_log st →
  run_facts R0 st'.
Proof.
  intros F Hc Hf Hr Hl. destruct F.
  constructor; rewrite ?Hc, ?Hf, ?Hr, ?Hl; done.
Qed.

(** [_execute_workflow] on a fresh execution returns, with the invariant
    of its loop established, no remaining step ready, and the status
    FAILED whenever a step has failed. *)
Lemma execute_workflow_facts self st :
  fresh st →
  ∃ st',
    _execute_workflow self st = Some st' ∧
    run_facts (workflow_steps self st) st' ∧
    (failed_steps (execution st') ≠ ∅ → status (execution st') = FAILED) ∧
    (∀ ready, ready_steps (map snd (remaining_steps st')) (execution st') = Ok ready →
              ready = []).
Proof.
  intros (Hs & Hc & Hf & Hr & Hl).
  assert (Hex : ∀ f, execution (with_running f st) = execution st) by done.
  unfold _execute_workflow, workflow_steps. cbv zeta. rewrite !Hex.
  destruct (workflows self !! we_workflow_id (execution st)) as [workflow|] eqn:Ew.
  - destruct (steps_by_id_wf (steps workflow)) as [Hkeys Hids].
    set (st0 := with_remaining (steps_by_id (steps workflow))
                  (with_running (λ r, r ∪ {[we_id (execution st)]}) st)).
    assert (F0 : run_facts (steps_by_id (steps workflow)) st0).
    { constructor; simpl; rewrite ?Hl, ?Hc, ?Hf; try done;
        try (intros e He; by apply elem_of_nil in He).
      - constructor.
      - intros l1 e l2 step dep Hsplit. by destruct l1. }
    destruct (execute_loop_facts self _ Hkeys Hids
                (length (remaining_steps st0)) st0 F0 Hs (le_n _))
      as (r & st1 & Hloop & F1 & Hs1 & Hready).
    rewrite Hloop.
    eexists. split; [reflexivity|]. split; [|split].
    + eapply run_facts_books; [exact F1|..]; by destruct r.
    + destruct r; simpl; [|done]. unfold final_status.
      intros Hne. by rewrite bool_decide_eq_true_2.
    + intros ready. destruct r; simpl; intros H; apply Hready; rewrite <- H;
        by apply ready_steps_ext.
  - eexists. split; [reflexivity|]. split; [|split].
    + constructor; simpl; rewrite ?Hl, ?Hc, ?Hf, ?Hr; try done;
        try (intros e He; by apply elem_of_nil in He); try (by constructor).
      intros l1 e l2 step dep Hsplit. by destruct l1.
    + done.
    + simpl. rewrite Hr. simpl. by intros ? [= <-].
Qed.

(** ** What a run leaves alone *)

Lemma same_run_refl st : same_run st st.
Proof. by constructor. Qed.

Lemma same_run_trans st1 st2 st3 :
  same_run st1 st2 → same_run st2 st3 → same_run st1 st3.
Proof.
  intros [] []. constructor; try congruence; try (etrans; eassumption); lia.
Qed.

Lemma keeps_run_bind {A B} (m : M RunState A) (f : A → M RunState B) :
  keeps_run m → (∀ a, keeps_run (f a)) → keeps_run (m ≫= f).
Proof.
  intros Hm Hf st r st2. unfold mbind, M_bind.
  destruct (m st) as [[a|e] st1] eqn:E.
  - intros H. eapply same_run_trans; [by eapply Hm | by eapply Hf].
  - intros [= <- <-]. by eapply Hm.
Qed.

Lemma keeps_run_ret {A} (a : A) : keeps_run (mret a).
Proof. intros st r st1 [= <- <-]. apply same_run_refl. Qed.

Lemma keeps_run_raise {A} e : keeps_run (raise e : M RunState A).
Proof. intros st r st1 [= <- <-]. apply same_run_refl. Qed.

Lemma keeps_run_get : keeps_run get_state.
Proof. intros st r st1 [= <- <-]. apply same_run_refl. Qed.

Lemma keeps_run_now : keeps_run wf_now.
Proof. intros st r st1 [= <- <-]. constructor; simpl; try done; lia. Qed.

Lemma keeps_run_call : keeps_run next_call.
Proof. intros st r st1 [= <- <-]. constructor; simpl; try done; lia. Qed.

Lemma keeps_run_step id f : keeps_run (modify (with_step id f)).
Proof. intros st r st1 [= <- <-]. by constructor. Qed.

Lemma keeps_run_current id :
  keeps_run (modify (with_execution (set_current_step id))).
Proof. intros st r st1 [= <- <-]. by constructor. Qed.

(** [dict.update] removes no key. *)
Lemma update_keeps_keys (d : list (string * value)) (m : gmap string value) :
  dom m ⊆ dom (foldl (λ m kv, <[fst kv := snd kv]> m) m d).
Proof.
  revert m. induction d as [|kv d IH]; intros m; simpl; [done|].
  etrans; [|apply IH]. rewrite dom_insert. set_solver.
Qed.

Lemma keeps_run_data d : keeps_run (modify (with_execution (update_data d))).
Proof.
  intros st r st1 [= <- <-]. constructor; simpl; try done.
  apply update_keeps_keys.
Qed.

Create HintDb run.
#[local] Hint Resolve keeps_run_ret keeps_run_raise keeps_run_get
  keeps_run_now keeps_run_call keeps_run_step keeps_run_current
  keeps_run_data : run.

Lemma _execute_step_keeps_run self step : keeps_run (_execute_step self step).
Proof.
  unfold _execute_step.
  apply keeps_run_bind; [auto with run|]. intros t0.
  apply keeps_run_bind; [auto with run|]. intros _.
  apply keeps_run_bind; [auto with run|]. intros _.
  destruct (executors self (action_type step)) as [executor|]; [|auto with run].
  apply keeps_run_bind; [auto with run|]. intros n.
  apply keeps_run_bind; [auto with run|]. intros st.
  cbv zeta.
  match goal with |- keeps_run (match ?o with _ => _ end) => destruct o as [r|e] end.
  - apply keeps_run_bind; [auto with run|]. intros t1.
    apply keeps_run_bind; [auto with run|]. intros _.
    destruct (sr_data r) as [d|]; [|auto with run].
    destruct (sr_success r && negb (bool_decide (d = []))); auto with run.
  - destruct e;
      (apply keeps_run_bind; [auto with run|]; intros t1;
       apply keeps_run_bind; [auto with run|]; intros _; auto with run).
Qed.

Lemma run_step_keeps_run self step : keeps_run (run_step self step).
Proof.
  intros st r st'. unfold run_step.
  destruct (_execute_step self step st) as [r0 st1] eqn:E.
  apply _execute_step_keeps_run in E.
  destruct r0 as [[]|e]; cbv zeta; unfold pop_remaining; simpl;
    destruct (dict_pop (ws_id step) (remaining_steps st1)) eqn:Ep; simpl;
    rewrite ?Ep; simpl;
    intros [= <- <-]; (eapply same_run_trans; [exact E|]); by constructor.
Qed.

Lemma run_ready_steps_keeps_run self ready : keeps_run (run_ready_steps self ready).
Proof.
  induction ready as [|step rest IH]; simpl; [apply keeps_run_ret|].
  apply keeps_run_bind; [apply run_step_keeps_run | by intros _].
Qed.

Lemma execute_loop_keeps_run fuel self st r st' :
  execute_loop fuel self st = Some (r, st') → same_run st st'.
Proof.
  revert st. induction fuel as [|fuel IH]; intros st; simpl.
  - case_bool_decide; [done|]. intros [= <- <-]. apply same_run_refl.
  - case_bool_decide; [|intros [= <- <-]; apply same_run_refl].
    destruct (ready_steps (map snd (remaining_steps st)) (execution st))
      as [[|s ready]|e].
    + intros [= <- <-]. apply same_run_refl.
    + destruct (run_ready_steps self (s :: ready) st) as [[[]|e] st1] eqn:E;
        apply run_ready_steps_keeps_run in E.
      * intros Hloop. eapply same_run_trans; [exact E | by apply IH].
      * by intros [= <- <-].
    + intros [= <- <-]. apply same_run_refl.
Qed.

(** ** The steps of the workflow through the loop *)

(** [run_step] appends one entry to the log; it records whether
    [_execute_step] returned. *)
Lemma run_step_log self step st :
  ∃ c f,
    step_log (snd (run_step self step st)) =
      step_log st ++
      [{| le_step := ws_id step;
          le_ok := step_returned (fst (_execute_step self step st));
          le_completed := c; le_failed := f |}].
Proof.
  unfold run_step.
  destruct (_execute_step self step st) as [r st1] eqn:E.
  apply _execute_step_keeps_books in E as (_ & _ & _ & Hr & Hl).
  destruct r as [[]|e]; cbv zeta; unfold pop_remaining; simpl;
    destruct (dict_pop (ws_id step) (remaining_steps st1)) eqn:Ep; simpl;
    rewrite ?Ep; simpl; do 2 eexists; rewrite Hl; reflexivity.
Qed.

Section Run.
Context (self : WorkflowEngine) (R0 : list (string * WorkflowStep)).
Context (R0_keys : NoDup R0.*1).
Context (R0_ids : ∀ k s, (k, s) ∈ R0 → ws_id s = k).
Context (Q : WorkflowStep → bool → Prop).
Context (HQ : ∀ step st, (ws_id step, step) ∈ R0 →
                Q step (step_returned (fst (_execute_step self step st)))).

Lemma run_ready_steps_log ready st r st' :
  (∀ s, s ∈ ready → (ws_id s, s) ∈ R0) →
  log_meets Q R0 st →
  run_ready_steps self ready st = (r, st') →
  log_meets Q R0 st'.
Proof.
  revert st. induction ready as [|step rest IH]; intros st Hin Hlog; simpl.
  - by intros [= <- <-].
  - unfold mbind, M_bind.
    destruct (run_step_log self step st) as (c & f & Hl).
    destruct (run_step self step st) as [r1 st1] eqn:E. simpl in Hl.
    assert (Hlog1 : log_meets Q R0 st1).
    { intros e. rewrite Hl, elem_of_app, list_elem_of_singleton.
      intros [He| ->]; [by apply Hlog|]. simpl.
      exists step. split; [apply Hin; left | apply HQ, Hin; left]. }
    destruct r1 as [[]|e].
    + apply IH; [|done]. intros s Hs. apply Hin. by right.
    + by intros [= <- <-].
Qed.

(** What the [while] loop adds to [execute_loop_facts]: no step is lost,
    the log entries meet [Q], and the loop raises only out of the readiness
    test on its last state. *)
Lemma execute_loop_end fuel st r st' :
  run_facts R0 st →
  status (execution st) = ACTIVE →
  all_accounted R0 st →
  log_meets Q R0 st →
  execute_loop fuel self st = Some (r, st') →
  all_accounted R0 st' ∧
  log_meets Q R0 st' ∧
  (∀ e, r = Raise e →
        ready_steps (map snd (remaining_steps st')) (execution st') = Raise e) ∧
  (r = Ok () →
   ready_steps (map snd (remaining_steps st')) (execution st') = Ok []).
Proof.
  assert (Hstop : ∀ st0 : RunState,
            status (execution st0) = ACTIVE →
            ¬ (remaining_steps st0 ≠ [] ∧ status (execution st0) = ACTIVE) →
            ready_steps (map snd (remaining_steps st0)) (execution st0) = Ok []).
  { intros st0 Hact Hcond. apply not_and_l in Hcond as [Hnil|Hst]; [|done].
    destruct (remaining_steps st0) as [|x R]; [done|]. exfalso. by apply Hnil. }
  revert st. induction fuel as [|fuel IH]; intros st F Hs Hcount Hlog; simpl.
  - case_bool_decide as Hcond; [done|]. intros [= <- <-].
    split; [done|]. split; [done|]. split; [done|]. intros _. by apply Hstop.
  - case_bool_decide as Hcond;
      [|intros [= <- <-]; split; [done|]; split; [done|]; split; [done|];
        intros _; by apply Hstop].
    destruct (ready_steps (map snd (remaining_steps st)) (execution st))
      as [[|s ready]|e] eqn:ER.
    + intros [= <- <-]. split; [done|]. split; [done|]. split; [done|]. done.
    + assert (Hids : ∀ k s, (k, s) ∈ remaining_steps st → ws_id s = k).
      { intros k s' Hin. apply R0_ids. by apply (rf_sub _ _ F). }
      assert (Hready : ∀ s', s' ∈ s :: ready →
                (ws_id s', s') ∈ remaining_steps st ∧
                dependencies_met s' (execution st) = true).
      { intros s' Hs'. destruct (ready_steps_elem _ _ _ s' ER Hs') as [Hc Hd].
        split; [by apply values_elem | done]. }
      destruct (run_ready_steps_facts self R0 R0_keys R0_ids (s :: ready) st F)
        as (st1 & Hrun & F1 & Hs1 & Hlen1 & Hl1); [|done|].
      { eapply ready_steps_NoDup; [done|]. rewrite values_ids by done. apply F. }
      rewrite Hrun. apply IH; [done | congruence | |].
      * unfold all_accounted in *.
        apply (f_equal length) in Hl1. rewrite length_app, !length_fmap in Hl1.
        lia.
      * apply (run_ready_steps_log (s :: ready) st (Ok ()) st1); [|done|done].
        intros s' Hs'. apply (rf_sub _ _ F). by apply Hready.
    + intros [= <- <-]. split; [done|]. split; [done|].
      split; [by intros e' [= <-] | done].
Qed.

End Run.

Lemma steps_by_id_keys (l : list WorkflowStep) (k : string) :
  k ∈ (steps_by_id l).*1 ↔ k ∈ ws_id <$> l.
Proof.
  unfold steps_by_id.
  assert (H : ∀ acc : list (string * WorkflowStep),
            k ∈ (foldl (λ d step, dict_set (ws_id step) step d) acc l).*1
            ↔ k ∈ acc.*1 ∨ k ∈ ws_id <$> l).
  { induction l as [|x l IH]; intros acc; simpl.
    - split; [by left|]. intros [H|H]; [done|]. by apply elem_of_nil in H.
    - rewrite IH, dict_set_keys, elem_of_cons. tauto. }
  rewrite H. simpl. split; [|by right]. intros [Hx|Hx]; [|done].
  by apply elem_of_nil in Hx.
Qed.

(** With no step lost, a step of [R0] is still remaining or is in the
    log. *)
Lemma accounted_cover R0 st k :
  NoDup R0.*1 → run_facts R0 st → all_accounted R0 st →
  k ∈ R0.*1 → k ∈ (remaining_steps st).*1 ∨ k ∈ le_step <$> step_log st.
Proof.
  intros Hnd F Hcount Hk.
  assert (HL : ((remaining_steps st).*1 ++ (le_step <$> step_log st)) ≡ₚ R0.*1).
  { apply submseteq_length_Permutation.
    - apply NoDup_submseteq.
      + apply NoDup_app. split; [apply F|]. split; [|apply F].
        intros x Hx Hx'. apply list_elem_of_fmap in Hx' as (e & -> & He).
        by apply (rf_gone _ _ F e He).
      + intros x. rewrite elem_of_app. intros [Hx|Hx].
        * apply list_elem_of_fmap in Hx as ([k' s] & -> & Hin).
          apply list_elem_of_fmap. exists (k', s). split; [done|].
          by apply (rf_sub _ _ F).
        * apply list_elem_of_fmap in Hx as (e & -> & He). by apply (rf_from _ _ F).
    - unfold all_accounted in Hcount. rewrite length_app, !length_fmap. lia. }
  rewrite <- HL in Hk. by apply elem_of_app in Hk.
Qed.

(** [_execute_workflow] on a fresh execution of a registered workflow: the
    facts of [execute_workflow_facts], with the final status, the completion
    time and what the run has left alone. *)
Lemma execute_workflow_end self st workflow (Q : WorkflowStep → bool → Prop) :
  fresh st →
  workflows self !! we_workflow_id (execution st) = Some workflow →
  (∀ step st0, (ws_id step, step) ∈ steps_by_id (steps workflow) →
               Q step (step_returned (fst (_execute_step self step st0)))) →
  ∃ st',
    _execute_workflow self st = Some st' ∧
    run_facts (steps_by_id (steps workflow)) st' ∧
    all_accounted (steps_by_id (steps workflow)) st' ∧
    log_meets Q (steps_by_id (steps workflow)) st' ∧
    is_Some (we_completed_at (execution st')) ∧
    same_run (with_running (λ r, r ∖ {[we_id (execution st)]}) st) st' ∧
    (we_id (execution st) ∉ running_executions st') ∧
    ((status (execution st') = FAILED ∧
      ∃ e, ready_steps (map snd (remaining_steps st')) (execution st') = Raise e) ∨
     (status (execution st') = final_status st' ∧
      ready_steps (map snd (remaining_steps st')) (execution st') = Ok [])).
Proof.
  intros (Hs & Hc & Hf & Hr & Hl) Ew HQ.
  assert (Hex : ∀ f, execution (with_running f st) = execution st) by done.
  unfold _execute_workflow. cbv zeta. rewrite !Hex, Ew.
  destruct (steps_by_id_wf (steps workflow)) as [Hkeys Hids].
  set (st0 := with_remaining (steps_by_id (steps workflow))
                (with_running (λ r, r ∪ {[we_id (execution st)]}) st)).
  assert (F0 : run_facts (steps_by_id (steps workflow)) st0).
  { constructor; simpl; rewrite ?Hl, ?Hc, ?Hf; try done;
      try (intros e He; by apply elem_of_nil in He).
    - constructor.
    - intros l1 e l2 step dep Hsplit. by destruct l1. }
  destruct (execute_loop_facts self _ Hkeys Hids
              (length (remaining_steps st0)) st0 F0 Hs (le_n _))
    as (r & st1 & Hloop & F1 & Hs1 & _).
  destruct (execute_loop_end self _ Hkeys Hids Q HQ
              (length (remaining_steps st0)) st0 r st1 F0 Hs)
    as (Hcount & Hlog & Hraise & Hok); [ | |exact Hloop|].
  { unfold all_accounted. simpl. rewrite Hl. simpl. lia. }
  { intros e. simpl. rewrite Hl. intros He. by apply elem_of_nil in He. }
  pose proof (execute_loop_keeps_run _ _ _ _ _ Hloop) as Hsame.
  rewrite Hloop.
  eexists. split; [reflexivity|].
  split; [eapply run_facts_books; [exact F1|..]; by destruct r|].
  split; [unfold all_accounted in *; by destruct r|].
  split; [intros e; destruct r; simpl; apply Hlog|].
  split; [by destruct r|].
  split.
  { destruct Hsame as [Hi Hcx Hd Hreg Hck Hca]. simpl in *.
    injection Hreg as Hreg1 Hreg2 Hreg3.
    assert (Hrun : running_executions st1 ∖ {[we_id (execution st)]}
                   = running_executions st ∖ {[we_id (execution st)]}).
    { rewrite Hreg2. apply set_eq. intros x.
      rewrite !elem_of_difference, elem_of_union. tauto. }
    destruct r; constructor; simpl; rewrite ?Hreg1, ?Hreg3, ?Hrun;
      solve [done | lia]. }
  split.
  { destruct Hsame as [_ _ _ Hreg _ _]. simpl in Hreg.
    destruct r; simpl; rewrite elem_of_difference, elem_of_singleton; tauto. }
  destruct r as [[]|e].
  - right. simpl. split; [done|].
    rewrite <- (Hok eq_refl). by apply ready_steps_ext.
  - left. simpl. split; [done|]. exists e.
    rewrite <- (Hraise e eq_refl). by apply ready_steps_ext.
Qed.

(** The readiness test selects every candidate whose dependencies are met
    and whose conditions hold. *)
Lemma ready_steps_complete cands e ready s :
  ready_steps cands e = Ok ready → s ∈ cands →
  dependencies_met s e = true → _check_step_conditions s e = Ok true →
  s ∈ ready.
Proof.
  revert ready. induction cands as [|c cands IH]; intros ready; simpl.
  - intros _ H. by apply elem_of_nil in H.
  - intros Hr Hin Hd Hc.
    destruct (if dependencies_met c e then _check_step_conditions c e else Ok false)
      as [keep|] eqn:Ek; simpl in Hr; [|done].
    destruct (ready_steps cands e) as [ready'|]; simpl in Hr; [|done].
    injection Hr as <-.
    apply elem_of_cons in Hin as [->|Hin].
    + rewrite Hd, Hc in Ek. injection Ek as <-. left.
    + specialize (IH ready' eq_refl Hin Hd Hc). destruct keep; [by right | done].
Qed.

Lemma final_status_cases st :
  (final_status st = FAILED ∧ failed_steps (execution st) ≠ ∅) ∨
  (final_status st = COMPLETED ∧ failed_steps (execution st) = ∅ ∧
   remaining_steps st = []) ∨
  (final_status st = PAUSED ∧ failed_steps (execution st) = ∅ ∧
   remaining_steps st ≠ []).
Proof.
  unfold final_status.
  destruct (decide (failed_steps (execution st) = ∅)) as [Hf|Hf].
  - rewrite bool_decide_eq_false_2 by (intros H; by apply H).
    case_bool_decide; [right; left | right; right]; done.
  - rewrite bool_decide_eq_true_2 by done. by left.
Qed.

(** A call that outlasts a non-zero timeout makes [_execute_step] raise
    [TimeoutError]. *)
Lemma _execute_step_timeout self step st executor timeout :
  executors self (action_type step) = Some executor →
  timeout_seconds step = Some timeout →
  timeout ≠ 0 →
  timeout <
    fst (executor (executor_calls st) step
           (context (set_current_step (ws_id step) (execution st)))) →
  fst (_execute_step self step st) = Raise TimeoutError.
Proof.
  intros Hex Ht Hnz Hlong. unfold _execute_step. rewrite Hex, Ht.
  unfold mbind, M_bind, wf_now, tick, modify, get_state, next_call, raise, wait_for.
  simpl. rewrite bool_decide_eq_true_2 by done.
  simpl in Hlong.
  assert (Hle : timeout ≤ Z.max 0 (fst (executor (executor_calls st) step
                                          (context (execution st))))) by lia.
  apply Z.leb_le in Hle. rewrite Hle. done.
Qed.

(** C6, as amended. On a fresh execution [_execute_workflow] returns; every
    step that failed (its [_execute_step] raised, by timeout or otherwise)
    is in [failed_steps] and the final status is FAILED. The failure does
    not abort the loop: only the steps that depend on the failed step are
    kept from running. Every step of the workflow has run or is still
    among the remaining steps; and unless the readiness test itself
    raised, every step of the workflow whose dependencies have all
    completed and whose conditions hold has run, so that none of the
    remaining steps is ready when the loop ends. *)
Theorem failed_step_fails_the_execution (self : WorkflowEngine) (st : RunState) :
  fresh st →
  ∃ st',
    _execute_workflow self st = Some st' ∧
    (∀ e, e ∈ step_log st' → le_ok e = false →
          le_step e ∈ failed_steps (execution st') ∧
          status (execution st') = FAILED ∧
          ∀ e' step, e' ∈ step_log st' →
                     (le_step e', step) ∈ workflow_steps self st →
                     le_step e ∉ dependencies step) ∧
    (∀ k, k ∈ (workflow_steps self st).*1 →
          k ∈ (remaining_steps st').*1 ∨ k ∈ le_step <$> step_log st') ∧
    ((∃ e, ready_steps (map snd (remaining_steps st')) (execution st') = Raise e) ∨
     (∀ k step, (k, step) ∈ workflow_steps self st →
                (∀ dep, dep ∈ dependencies step →
                        dep ∈ completed_steps (execution st')) →
                _check_step_conditions step (execution st') = Ok true →
                k ∈ le_step <$> step_log st')) ∧
    (∀ ready,
       ready_steps (map snd (remaining_steps st')) (execution st') = Ok ready →
       ready = []).
Proof.
  intros Hfresh.
  destruct (execute_workflow_facts self st Hfresh) as (st' & Hrun & F & Hfail & Hready).
  exists st'. split; [done|]. split; [|split; [|split; [|done]]].
  - intros e He Hok.
    assert (Hin : le_step e ∈ failed_steps (execution st')).
    { rewrite (rf_failed _ _ F), elem_of_list_to_set, elem_of_bad_ids. eauto. }
    split; [done|]. split; [apply Hfail; set_solver|].
    intros e' step He' Hstep Hdep.
    apply list_elem_of_split in He' as (l1 & l2 & Hlog).
    destruct (rf_deps _ _ F l1 e' l2 step (le_step e) Hlog Hstep Hdep)
      as (earlier & Hearlier & Hid & Hret).
    assert (earlier = e); [|congruence].
    apply (log_entry_unique _ _ _ (rf_nodup _ _ F)); [|done|done].
    rewrite Hlog. apply elem_of_app. by left.
  - intros k Hk. unfold workflow_steps in Hk.
    destruct (workflows self !! we_workflow_id (execution st)) as [workflow|] eqn:Ew;
      [|by apply elem_of_nil in Hk].
    destruct (execute_workflow_end self st workflow (λ _ _, True) Hfresh Ew)
      as (st2 & Hrun2 & F2 & Hcount & _); [done|].
    assert (st2 = st') as -> by congruence.
    destruct (steps_by_id_wf (steps workflow)) as [Hkeys _].
    by apply (accounted_cover _ st' k Hkeys F2 Hcount).
  - unfold workflow_steps.
    destruct (workflows self !! we_workflow_id (execution st)) as [workflow|] eqn:Ew;
      [|right; intros k step Hin; by apply elem_of_nil in Hin].
    destruct (execute_workflow_end self st workflow (λ _ _, True) Hfresh Ew)
      as (st2 & Hrun2 & F2 & Hcount & _ & _ & _ & _ & Hstatus); [done|].
    assert (st2 = st') as -> by congruence.
    destruct (steps_by_id_wf (steps workflow)) as [Hkeys _].
    destruct Hstatus as [[_ Hraise]|[_ Hnone]]; [by left | right].
    intros k step Hin Hdeps Hconds.
    destruct (accounted_cover _ st' k Hkeys F2 Hcount) as [Hrem|Hlog]; [| |done].
    { apply list_elem_of_fmap. by exists (k, step). }
    exfalso.
    assert (Hstep : step ∈ map snd (remaining_steps st')).
    { apply list_elem_of_fmap in Hrem as ([k' s] & Hk & Hks). simpl in Hk. subst k'.
      pose proof (rf_sub _ _ F2 _ _ Hks) as Hs0.
      apply (dict_get_elem _ _ _ Hkeys) in Hs0, Hin.
      assert (s = step) as -> by congruence.
      apply list_elem_of_In, in_map_iff. exists (k, step).
      split; [done|]. by apply list_elem_of_In. }
    assert (Hno : step ∈ ([] : list WorkflowStep)); [|by apply elem_of_nil in Hno].
    apply (ready_steps_complete _ _ _ step Hnone Hstep); [|done].
    by apply dependencies_met_spec.
Qed.


(** C8: the step [enrich_lead] of the default lead-qualification workflow
    has the parameter [lead_id = ${lead_id}]; with [lead_id] bound in
    [context.data] and not in [context.variables], [_substitute_variables]
    leaves the placeholder in place, and the tool is called with it. *)
Theorem substitute_variables_ignores_context_data :
  ∃ step,
    steps lead_qualification !! 0%nat = Some step ∧
    ws_id step = "enrich_lead" ∧
    dict_get "parameters" (config step) = Some (VDict enrich_lead_parameters) ∧
    data lead_context !! strip_placeholder "${lead_id}" = Some (VStr "L-42") ∧
    variables lead_context !! strip_placeholder "${lead_id}" = None ∧
    _substitute_variables enrich_lead_parameters lead_context = enrich_lead_parameters ∧
    snd (AIToolExecutor echo_tool 0%nat step lead_context)
      = Ok {| sr_success := true; sr_data := Some enrich_lead_parameters;
              sr_other := [("execution_id", VStr "t")] |}.
Proof. eexists. split; [reflexivity|]. repeat split; vm_compute; reflexivity. Qed.


(** ** Further properties of policy loading *)

Lemma insert_by_priority_perm r l : insert_by_priority r l ≡ₚ r :: l.
Proof.
  induction l as [|x l IH]; simpl; [done|].
  destruct (priority r <=? priority x); [done|].
  rewrite IH. apply Permutation_swap.
Qed.

Lemma insert_by_priority_filter r l p :
  filter (λ x, priority x = p) (insert_by_priority r l)
    = filter (λ x, priority x = p) (r :: l).
Proof.
  induction l as [|x l IH]; simpl; [done|].
  destruct (Z.leb_spec (priority r) (priority x)) as [Hle|Hlt]; [done|].
  rewrite !filter_cons in *. rewrite IH.
  destruct (decide (priority x = p)), (decide (priority r = p)); try done; lia.
Qed.

(** X1. [list.sort(key=priority)] as used by [_load_policies]: the result
    is in ascending priority order, holds the same rules, and keeps rules
    of equal priority in the order they had. *)
Theorem sort_by_priority_stable (l : list PolicyRule) :
  Sorted (λ a b, priority a <= priority b) (sort_by_priority l) ∧
  sort_by_priority l ≡ₚ l ∧
  ∀ p, filter (λ x, priority x = p) (sort_by_priority l)
         = filter (λ x, priority x = p) l.
Proof.
  split; [apply sort_by_priority_sorted|]. split.
  - induction l as [|r l IH]; simpl; [done|].
    by rewrite insert_by_priority_perm, IH.
  - intros p. induction l as [|r l IH]; simpl; [done|].
    rewrite insert_by_priority_filter, !filter_cons, IH. done.
Qed.

(** X2. Every list of rules that [_load_policies] leaves in the engine is
    in ascending priority order. *)
Theorem _load_policies_sorted (table : list PolicyStorage)
    (ps ps' : gmap PolicyType (list PolicyRule)) (t : PolicyType) (rules : list PolicyRule) :
  _load_policies table ps = Ok ps' →
  ps' !! t = Some rules →
  Sorted (λ a b, priority a <= priority b) rules.
Proof.
  unfold _load_policies.
  destruct (load_stored _ ps) as [loaded|e]; simpl; [|done].
  intros [= <-]. rewrite lookup_fmap.
  destruct (loaded !! t) as [l|]; simpl; [|done].
  intros [= <-]. apply sort_by_priority_sorted.
Qed.

Lemma load_stored_bad_type stored ps :
  (∃ p, p ∈ stored ∧ PolicyType_of_value (ps_policy_type p) = None) →
  ∃ e, load_stored stored ps = Raise e.
Proof.
  revert ps. induction stored as [|q stored IH]; intros ps (p & Hin & Hbad).
  - by apply elem_of_nil in Hin.
  - simpl. unfold parse_PolicyType.
    destruct (PolicyType_of_value (ps_policy_type q)) as [t|] eqn:Eq; simpl; [|eauto].
    destruct (load_rules _ _ _) as [ps2|e]; simpl; [|eauto].
    apply IH. apply elem_of_cons in Hin as [->|Hin]; [congruence | eauto].
Qed.

(** X3. A stored policy that is active and whose [policy_type] string is
    not a member of [PolicyType] makes [_load_policies], and with it the
    constructor of the engine, raise: it is not skipped. *)
Theorem _load_policies_unknown_type (table : list PolicyStorage) (p : PolicyStorage) :
  p ∈ table →
  ps_is_active p = true →
  PolicyType_of_value (ps_policy_type p) = None →
  ∃ e, PolicyEngine_init table = Raise e.
Proof.
  intros Hin Hact Hbad. unfold PolicyEngine_init, _load_policies.
  destruct (load_stored_bad_type (filter (λ p, ps_is_active p = true) table) ∅)
    as [e He].
  { exists p. split; [|done]. by apply list_elem_of_filter. }
  rewrite He. simpl. eauto.
Qed.

(** ** Further properties of the default policies *)

Lemma rule_id_exists_spec id (ps : gmap PolicyType (list PolicyRule)) :
  rule_id_exists id ps = true ↔
  ∃ t rules rule, ps !! t = Some rules ∧ rule ∈ rules ∧ rule_id rule = id.
Proof.
  unfold rule_id_exists. rewrite existsb_exists. split.
  - intros ([t rules] & Hin & Hex). apply existsb_exists in Hex as (rule & Hr & Heq).
    exists t, rules, rule. split; [|split].
    + apply elem_of_map_to_list. by apply list_elem_of_In.
    + by apply list_elem_of_In.
    + by apply String.eqb_eq.
  - intros (t & rules & rule & Hl & Hr & Heq). exists (t, rules). split.
    + apply list_elem_of_In. by apply elem_of_map_to_list.
    + apply existsb_exists. exists rule. split; [by apply list_elem_of_In|].
      by apply String.eqb_eq.
Qed.

Lemma add_default_lookup ps r t :
  add_default ps r !! t =
    if rule_id_exists (rule_id r) ps then ps !! t
    else if decide (policy_type r = t) then Some (default [] (ps !! t) ++ [r])
    else ps !! t.
Proof.
  unfold add_default. destruct (rule_id_exists (rule_id r) ps); [done|].
  destruct (decide (policy_type r = t)) as [<-|Hne].
  - by rewrite lookup_insert_eq.
  - by rewrite lookup_insert_ne.
Qed.

Lemma add_default_extends ps r t rules :
  ps !! t = Some rules → ∃ extra, add_default ps r !! t = Some (rules ++ extra).
Proof.
  intros Hl. rewrite add_default_lookup.
  destruct (rule_id_exists (rule_id r) ps).
  - exists []. by rewrite app_nil_r.
  - destruct (decide (policy_type r = t)).
    + exists [r]. by rewrite Hl.
    + exists []. by rewrite app_nil_r.
Qed.

Lemma add_default_mono ps r id :
  rule_id_exists id ps = true → rule_id_exists id (add_default ps r) = true.
Proof.
  rewrite !rule_id_exists_spec. intros (t & rules & rule & Hl & Hr & Heq).
  destruct (add_default_extends ps r t rules Hl) as [extra He].
  exists t, (rules ++ extra), rule. split; [done|]. split; [|done].
  apply elem_of_app. by left.
Qed.

Lemma add_default_exists ps r : rule_id_exists (rule_id r) (add_default ps r) = true.
Proof.
  destruct (rule_id_exists (rule_id r) ps) eqn:E; [by apply add_default_mono|].
  apply rule_id_exists_spec.
  exists (policy_type r), (default [] (ps !! policy_type r) ++ [r]), r.
  split; [|split; [|done]].
  - rewrite add_default_lookup, E. by rewrite decide_True.
  - apply elem_of_app. right. by apply list_elem_of_singleton.
Qed.

Lemma foldl_add_default_mono l ps id :
  rule_id_exists id ps = true → rule_id_exists id (foldl add_default ps l) = true.
Proof.
  revert ps. induction l as [|r l IH]; intros ps H; simpl; [done|].
  by apply IH, add_default_mono.
Qed.

Lemma foldl_add_default_exists l ps r :
  r ∈ l → rule_id_exists (rule_id r) (foldl add_default ps l) = true.
Proof.
  revert ps. induction l as [|x l IH]; intros ps Hin; simpl.
  - by apply elem_of_nil in Hin.
  - apply elem_of_cons in Hin as [->|Hin]; [|by apply IH].
    apply foldl_add_default_mono, add_default_exists.
Qed.

Lemma foldl_add_default_fixed l ps :
  (∀ r, r ∈ l → rule_id_exists (rule_id r) ps = true) → foldl add_default ps l = ps.
Proof.
  induction l as [|x l IH]; intros H; simpl; [done|].
  assert (add_default ps x = ps) as ->.
  { unfold add_default. rewrite H; [done | left]. }
  apply IH. intros r Hr. apply H. by right.
Qed.

Lemma foldl_add_default_extends l ps t rules :
  ps !! t = Some rules → ∃ extra, foldl add_default ps l !! t = Some (rules ++ extra).
Proof.
  revert ps rules. induction l as [|x l IH]; intros ps rules Hl; simpl.
  - exists []. by rewrite app_nil_r.
  - destruct (add_default_extends ps x t rules Hl) as [e1 H1].
    destruct (IH _ _ H1) as [e2 H2]. exists (e1 ++ e2). by rewrite app_assoc.
Qed.

Lemma foldl_add_default_keeps_id l ps id t :
  rule_id_exists id ps = true →
  filter (λ x, rule_id x = id) (default [] (foldl add_default ps l !! t))
    = filter (λ x, rule_id x = id) (default [] (ps !! t)).
Proof.
  revert ps. induction l as [|x l IH]; intros ps H; simpl; [done|].
  rewrite IH by by apply add_default_mono.
  rewrite add_default_lookup.
  destruct (rule_id_exists (rule_id x) ps) eqn:E; [done|].
  destruct (decide (policy_type x = t)); [|done]. simpl.
  rewrite filter_app, filter_cons, filter_nil.
  destruct (decide (rule_id x = id)) as [Heq|]; [|by rewrite app_nil_r].
  congruence.
Qed.

(** X4. Seeding the default policies is idempotent, only appends to the
    lists it finds, and leaves out a default whose [rule_id] is already
    taken by some rule of any policy type: the rules with that id stay
    exactly those that were there. *)
Theorem _initialize_default_policies_idempotent (ps : gmap PolicyType (list PolicyRule)) :
  _initialize_default_policies (_initialize_default_policies ps)
    = _initialize_default_policies ps ∧
  (∀ t rules, ps !! t = Some rules →
     ∃ extra, _initialize_default_policies ps !! t = Some (rules ++ extra)) ∧
  (∀ id t, rule_id_exists id ps = true →
     filter (λ x, rule_id x = id) (default [] (_initialize_default_policies ps !! t))
       = filter (λ x, rule_id x = id) (default [] (ps !! t))).
Proof.
  unfold _initialize_default_policies. split; [|split].
  - apply foldl_add_default_fixed. intros r Hr. by apply foldl_add_default_exists.
  - intros t rules. apply foldl_add_default_extends.
  - intros id t. apply foldl_add_default_keeps_id.
Qed.

(** ** Further properties of policy evaluation *)

Lemma next_final_action_not_DENY x fa : fa ≠ DENY → next_final_action x fa ≠ DENY.
Proof. intros H. unfold next_final_action. repeat case_bool_decide; done. Qed.

Lemma next_final_action_ALLOW x fa :
  x ≠ DENY → (next_final_action x fa = ALLOW ↔ fa = ALLOW ∧ x = ALLOW).
Proof. intros H. destruct x, fa; vm_compute; split; try done; intros [? ?]; done. Qed.

Lemma evaluate_rules_outcome rules context vs0 fa a vs :
  evaluate_rules rules context vs0 fa = Ok (a, vs) →
  fa ≠ DENY →
  (fa = ALLOW ↔ Forall (λ v, v_action v = ALLOW) vs0) →
  Forall (λ v, v_action v ≠ DENY) vs0 →
  vs0 `prefix_of` vs ∧
  (a = ALLOW ↔ Forall (λ v, v_action v = ALLOW) vs) ∧
  (a = DENY ↔ Exists (λ v, v_action v = DENY) vs).
Proof.
  revert vs0 fa. induction rules as [|rule rest IH]; intros vs0 fa; simpl.
  - intros [= <- <-] Hfa Hall Hno. split; [done|]. split; [done|].
    split; [done|]. intros Hex. apply Exists_exists in Hex as (v & Hin & Hv).
    rewrite Forall_forall in Hno. by destruct (Hno v Hin).
  - destruct (matches rule context) as [[|]|e]; simpl; [| |done].
    + case_bool_decide as Hd.
      * intros [= <- <-] Hfa Hall Hno. split; [by apply prefix_app_r|].
        split.
        -- split; [done|]. rewrite Forall_app, Forall_singleton. simpl.
           intros [_ H]. congruence.
        -- split; [|done]. intros _. apply Exists_app. right.
           by apply Exists_cons_hd.
      * intros Hev Hfa Hall Hno.
        destruct (IH _ _ Hev) as (Hpre & HA & HD).
        -- by apply next_final_action_not_DENY.
        -- rewrite next_final_action_ALLOW by done.
           rewrite Forall_app, Forall_singleton. simpl. rewrite Hall. done.
        -- rewrite Forall_app, Forall_singleton. done.
        -- split; [|done]. etrans; [|exact Hpre]. by apply prefix_app_r.
    + by apply IH.
Qed.

Lemma evaluate_policies_outcome (self : PolicyEngine) (policy_type : PolicyType)
    (context : gmap string value) (r : PolicyResult) :
  evaluate_policies self policy_type context = Ok r →
  (pr_action r = ALLOW ↔ Forall (λ v, v_action v = ALLOW) (pr_violations r)) ∧
  (pr_action r = DENY ↔ Exists (λ v, v_action v = DENY) (pr_violations r)).
Proof.
  unfold evaluate_policies. destruct (policies self !! policy_type) as [rules|].
  - destruct (evaluate_rules rules context [] ALLOW) as [[a vs]|e] eqn:E; simpl; [|done].
    intros [= <-]. simpl.
    destruct (evaluate_rules_outcome _ _ _ _ _ _ E) as (_ & HA & HD); try done.
  - intros [= <-]. simpl. split; [done|]. split; [done|].
    intros H. by apply Exists_nil in H.
Qed.

(** X5. When [evaluate_policies] returns, its action is ALLOW exactly when
    every matched rule has action ALLOW, and DENY exactly when a matched
    rule has action DENY. *)
Theorem evaluate_policies_allow_and_deny (self : PolicyEngine) (policy_type : PolicyType)
    (context : gmap string value) (r : PolicyResult) :
  evaluate_policies self policy_type context = Ok r →
  (pr_action r = ALLOW ↔ Forall (λ v, v_action v = ALLOW) (pr_violations r)) ∧
  (pr_action r = DENY ↔ Exists (λ v, v_action v = DENY) (pr_violations r)).
Proof. apply evaluate_policies_outcome. Qed.

Lemma evaluate_rules_prefix rules context vs0 fa a vs :
  evaluate_rules rules context vs0 fa = Ok (a, vs) → vs0 `prefix_of` vs.
Proof.
  revert vs0 fa. induction rules as [|rule rest IH]; intros vs0 fa; simpl.
  - by intros [= <- <-].
  - destruct (matches rule context) as [[|]|e]; simpl; [| |done].
    + case_bool_decide.
      * intros [= <- <-]. by apply prefix_app_r.
      * intros Hev. etrans; [|exact (IH _ _ Hev)]. by apply prefix_app_r.
    + apply IH.
Qed.

Lemma spec_most_restrictive_snoc l x :
  spec_most_restrictive (l ++ [x]) =
    if (spec_dominance (spec_most_restrictive l) <? spec_dominance x)%nat
    then x else spec_most_restrictive l.
Proof. unfold spec_most_restrictive. by rewrite foldl_app. Qed.

Lemma spec_most_restrictive_violations vs v :
  spec_most_restrictive (v_action <$> (vs ++ [v])) =
    if (spec_dominance (spec_most_restrictive (v_action <$> vs))
          <? spec_dominance (v_action v))%nat
    then v_action v else spec_most_restrictive (v_action <$> vs).
Proof. rewrite fmap_app. simpl. apply spec_most_restrictive_snoc. Qed.

Lemma spec_most_restrictive_no_DENY vs :
  Forall (λ v, v_action v ≠ DENY) vs → spec_most_restrictive (v_action <$> vs) ≠ DENY.
Proof.
  induction vs as [|v vs IH] using rev_ind; [done|].
  rewrite Forall_app, Forall_singleton. intros [Hall Hv].
  rewrite spec_most_restrictive_violations.
  destruct (_ <? _)%nat; [done | by apply IH].
Qed.

Lemma spec_most_restrictive_low l :
  Forall (λ x, x = ALLOW ∨ x = REQUIRE_APPROVAL) l →
  spec_most_restrictive l = ALLOW ∨ spec_most_restrictive l = REQUIRE_APPROVAL.
Proof.
  induction l as [|x l IH] using rev_ind; [by left|].
  rewrite Forall_app, Forall_singleton. intros [Hl Hx].
  rewrite spec_most_restrictive_snoc.
  destruct (IH Hl) as [->| ->], Hx as [->| ->]; simpl; auto.
Qed.

Lemma approvals_come_first_before l1 l2 :
  approvals_come_first (l1 ++ REQUIRE_APPROVAL :: l2) = true →
  Forall (λ x, x ≠ REDACT ∧ x ≠ LOG_ONLY) l1.
Proof.
  induction l1 as [|a l1 IH]; simpl; [done|].
  intros H. apply andb_true_iff in H as [Ha Hrest].
  constructor; [|by apply IH].
  case_bool_decide as Hd.
  - apply forallb_forall with (x := REQUIRE_APPROVAL) in Ha.
    + by apply bool_decide_eq_true in Ha.
    + apply in_or_app. right. by left.
  - split; intros ->; apply Hd; auto.
Qed.

Lemma next_final_action_max x fa :
  fa ≠ DENY → x ≠ DENY →
  (x = REQUIRE_APPROVAL → fa = ALLOW ∨ fa = REQUIRE_APPROVAL) →
  next_final_action x fa =
    if (spec_dominance fa <? spec_dominance x)%nat then x else fa.
Proof.
  intros Hfa Hx Hra.
  destruct x, fa; try done; try reflexivity;
    destruct (Hra eq_refl) as [?|?]; done.
Qed.

Lemma evaluate_rules_most_restrictive rules context vs0 fa a vs :
  evaluate_rules rules context vs0 fa = Ok (a, vs) →
  fa = spec_most_restrictive (v_action <$> vs0) →
  Forall (λ v, v_action v ≠ DENY) vs0 →
  approvals_come_first (v_action <$> vs) = true →
  a = spec_most_restrictive (v_action <$> vs).
Proof.
  revert vs0 fa. induction rules as [|rule rest IH]; intros vs0 fa; simpl.
  - by intros [= <- <-].
  - destruct (matches rule context) as [[|]|e]; simpl; [| |done]; [|apply IH].
    assert (Hno : Forall (λ v, v_action v ≠ DENY) vs0 →
                  fa = spec_most_restrictive (v_action <$> vs0) → fa ≠ DENY).
    { intros Hall ->. by apply spec_most_restrictive_no_DENY. }
    case_bool_decide as Hd.
    + intros [= <- <-] -> Hall _.
      rewrite spec_most_restrictive_violations. simpl. rewrite Hd.
      specialize (Hno Hall eq_refl).
      by destruct (spec_most_restrictive (v_action <$> vs0)).
    + intros Hev Hfa Hall Hguard. specialize (Hno Hall Hfa).
      apply (IH _ _ Hev); [|by rewrite Forall_app, Forall_singleton|done].
      rewrite spec_most_restrictive_violations. simpl. rewrite <- Hfa.
      apply next_final_action_max; [done|done|].
      intros Hra. apply evaluate_rules_prefix in Hev as [k ->].
      rewrite !fmap_app in Hguard. simpl in Hguard. rewrite Hra, <- app_assoc in Hguard.
      simpl in Hguard. apply approvals_come_first_before in Hguard.
      rewrite Hfa. apply spec_most_restrictive_low.
      rewrite Forall_fmap. rewrite Forall_fmap in Hguard.
      rewrite Forall_forall in *. intros v Hv.
      specialize (Hall v Hv). destruct (Hguard v Hv) as [H1 H2]. simpl in *.
      destruct (v_action v); auto; done.
Qed.

(** X6. Where the dominance order does hold: when [evaluate_policies]
    returns and, among the matched rules in evaluation order, no
    REQUIRE_APPROVAL rule comes after a REDACT or LOG_ONLY rule, the action
    returned is the most restrictive of the matched actions under
    DENY > REQUIRE_APPROVAL > REDACT > LOG_ONLY > ALLOW. *)
Theorem evaluate_policies_most_restrictive (self : PolicyEngine)
    (policy_type : PolicyType) (context : gmap string value) (r : PolicyResult) :
  evaluate_policies self policy_type context = Ok r →
  approvals_come_first (v_action <$> pr_violations r) = true →
  pr_action r = spec_most_restrictive (v_action <$> pr_violations r).
Proof.
  unfold evaluate_policies. destruct (policies self !! policy_type) as [rules|].
  - destruct (evaluate_rules rules context [] ALLOW) as [[a vs]|e] eqn:E; simpl; [|done].
    intros [= <-]. simpl. by apply (evaluate_rules_most_restrictive _ _ _ _ _ _ E).
  - by intros [= <-].
Qed.

(** ** Further properties of redaction and of matchers *)

Lemma redact_fields_lookup (fields : list string) (context : gmap string value) k :
  foldl (λ redacted field,
           match redacted !! field with
           | Some _ => <[field := VStr "[REDACTED]"]> redacted
           | None => redacted
           end) context fields !! k
  = if decide (k ∈ fields) then (λ _, VStr "[REDACTED]") <$> context !! k
    else context !! k.
Proof.
  revert context. induction fields as [|f fields IH]; intros context.
  - simpl. destruct (decide (k ∈ [])) as [H|]; [by apply elem_of_nil in H | done].
  - simpl foldl. rewrite IH. clear IH.
    destruct (decide (k = f)) as [->|Hne].
    + destruct (decide (f ∈ f :: fields)) as [_|Hn]; [|exfalso; apply Hn; left].
      destruct (context !! f) as [v|] eqn:E.
      * rewrite lookup_insert_eq. by destruct (decide (f ∈ fields)).
      * rewrite E. by destruct (decide (f ∈ fields)).
    + assert (Hk : match context !! f with
                   | Some _ => <[f := VStr "[REDACTED]"]> context
                   | None => context
                   end !! k = context !! k).
      { destruct (context !! f); [by rewrite lookup_insert_ne | done]. }
      rewrite Hk.
      destruct (decide (k ∈ fields)) as [Hin|Hnin],
               (decide (k ∈ f :: fields)) as [Hin'|Hnin']; try done.
      * exfalso. apply Hnin'. by right.
      * exfalso. apply elem_of_cons in Hin' as [?|?]; done.
Qed.

(** X7. [_redact_sensitive_data] masks exactly the sensitive fields that
    the context has, leaves every other field as it is, adds and removes no
    key, and redacting twice is redacting once. *)
Theorem _redact_sensitive_data_masks_only_sensitive (context : gmap string value) :
  (∀ k, k ∈ sensitive_fields → is_Some (context !! k) →
        _redact_sensitive_data context !! k = Some (VStr "[REDACTED]")) ∧
  (∀ k, k ∉ sensitive_fields → _redact_sensitive_data context !! k = context !! k) ∧
  dom (_redact_sensitive_data context) = dom context ∧
  _redact_sensitive_data (_redact_sensitive_data context) = _redact_sensitive_data context.
Proof.
  assert (Hl : ∀ c k, _redact_sensitive_data c !! k =
                 if decide (k ∈ sensitive_fields)
                 then (λ _, VStr "[REDACTED]") <$> c !! k else c !! k).
  { intros c k. apply redact_fields_lookup. }
  split; [|split; [|split]].
  - intros k Hin [v Hv]. rewrite Hl, Hv. by destruct (decide (k ∈ sensitive_fields)).
  - intros k Hnin. rewrite Hl. by destruct (decide (k ∈ sensitive_fields)).
  - apply set_eq. intros k. rewrite !elem_of_dom, Hl.
    destruct (decide (k ∈ sensitive_fields)); [|done].
    by rewrite fmap_is_Some.
  - apply map_eq. intros k. rewrite !Hl.
    destruct (decide (k ∈ sensitive_fields)); [|done].
    by destruct (context !! k).
Qed.

(** X8. A structured condition whose operator is a string other than the
    five that [matches] knows is never tested: it holds for every context
    value, so a misspelt operator makes the condition vacuous. *)
Theorem condition_holds_unknown_operator (d : list (string * value)) (op : string)
    (context_value : value) :
  dict_get "operator" d = Some (VStr op) →
  op ∉ ["equals"; "in"; "not_in"; "contains"; "regex"] →
  condition_holds (VDict d) context_value = Ok true.
Proof.
  intros Hop Hnot. unfold condition_holds. rewrite Hop. simpl.
  repeat match goal with
         | |- context [String.eqb op ?s] =>
             destruct (String.eqb_spec op s) as [->|_];
             [exfalso; apply Hnot; set_solver|]
         end.
  done.
Qed.

(** X9. A structured condition with operator [in] or [not_in] and neither
    a [values] nor a [value] entry raises [TypeError] whatever the context
    holds, and so does [matches] on an enabled rule whose first condition
    it is. *)
Theorem matches_in_without_values_raises (rule : PolicyRule) (k : string)
    (d : list (string * value)) (rest : list (string * value))
    (context : gmap string value) :
  enabled rule = true →
  conditions rule = (k, VDict d) :: rest →
  dict_get "operator" d = Some (VStr "in") ∨ dict_get "operator" d = Some (VStr "not_in") →
  dict_get "values" d = None →
  dict_get "value" d = None →
  matches rule context = Raise TypeError.
Proof.
  intros Hen Hc Hop Hvs Hv. unfold matches. rewrite Hen, Hc. simpl.
  rewrite Hvs, Hv. by destruct Hop as [-> | ->].
Qed.

(** ** Further properties of the RBAC manager *)

Lemma grant_fold_elem (rps : list RolePermission) (acc : gset Permission) p :
  p ∈ foldl (λ permissions role_permission,
               match Permission_of_value (rp_permission role_permission) with
               | Some permission => permissions ∪ {[permission]}
               | None => permissions
               end) acc rps
  ↔ p ∈ acc ∨ ∃ rp, rp ∈ rps ∧ Permission_of_value (rp_permission rp) = Some p.
Proof.
  revert acc. induction rps as [|rp rps IH]; intros acc; simpl.
  - split; [by left | intros [?|(rp & H & _)]; [done | by apply elem_of_nil in H]].
  - rewrite IH. split.
    + intros [Hacc|(rp' & Hin & Hp)].
      * destruct (Permission_of_value (rp_permission rp)) as [q|] eqn:E; [|by left].
        apply elem_of_union in Hacc as [?|Hq]; [by left|].
        apply elem_of_singleton in Hq as ->. right. exists rp. split; [left | done].
      * right. exists rp'. split; [by right | done].
    + intros [Hacc|(rp' & Hin & Hp)].
      * left. destruct (Permission_of_value (rp_permission rp)); set_solver.
      * apply elem_of_cons in Hin as [->|Hin].
        -- left. rewrite Hp. set_solver.
        -- right. eauto.
Qed.

(** X10. The permissions that the database grants a user are the union,
    over the roles assigned to the user, of the permissions of each role
    whose string names a member of [Permission]. *)
Theorem query_permissions_union (d : Database) (user_id : string) (p : Permission) :
  p ∈ query_permissions d user_id ↔
  ∃ ur rp,
    ur ∈ tbl_user_roles d ∧ ur_user_id ur = user_id ∧
    rp ∈ tbl_role_permissions d ∧ rp_role_id rp = ur_role_id ur ∧
    Permission_of_value (rp_permission rp) = Some p.
Proof.
  unfold query_permissions.
  assert (H : ∀ (urs : list UserRole) (acc : gset Permission),
    p ∈ foldl (λ permissions user_role,
                 foldl (λ permissions role_permission,
                          match Permission_of_value (rp_permission role_permission) with
                          | Some permission => permissions ∪ {[permission]}
                          | None => permissions
                          end) permissions
                       (filter (λ rp, rp_role_id rp = ur_role_id user_role)
                               (tbl_role_permissions d))) acc urs
    ↔ p ∈ acc ∨ ∃ ur rp, ur ∈ urs ∧ rp ∈ tbl_role_permissions d ∧
                         rp_role_id rp = ur_role_id ur ∧
                         Permission_of_value (rp_permission rp) = Some p).
  { induction urs as [|ur urs IH]; intros acc; simpl.
    - split; [by left | intros [?|(ur & rp & H & _)]; [done | by apply elem_of_nil in H]].
    - rewrite IH, grant_fold_elem. split.
      + intros [[?|(rp & Hin & Hp)]|(ur' & rp & Hin & Hrest)].
        * by left.
        * apply list_elem_of_filter in Hin as [Hrole Hin].
          right. exists ur, rp. split; [left | done].
        * right. exists ur', rp. split; [by right | done].
      + intros [?|(ur' & rp & Hin & Hrp & Hrole & Hp)]; [by left; left|].
        apply elem_of_cons in Hin as [->|Hin].
        * left. right. exists rp. split; [|done]. by apply list_elem_of_filter.
        * right. eauto 10. }
  rewrite H. split.
  - intros [Hemp|(ur & rp & Hin & Hrest)]; [by apply not_elem_of_empty in Hemp|].
    apply list_elem_of_filter in Hin as [Hu Hin]. exists ur, rp. done.
  - intros (ur & rp & Hin & Hu & Hrest). right. exists ur, rp.
    split; [by apply list_elem_of_filter | done].
Qed.

Lemma get_user_permissions_post (g : GovernanceSystem) (user_id : string) :
  ∃ ps g',
    get_user_permissions user_id g = (Ok ps, g') ∧
    permission_cache g' !! user_id = Some ps ∧
    is_Some (cache_timestamps g' !! user_id) ∧
    same_records g g' ∧
    (permission_cache g !! user_id = None ∨ cache_timestamps g !! user_id = None →
     ps = query_permissions (db g) user_id).
Proof.
  unfold get_user_permissions, same_records.
  unfold mbind, M_bind, mret, M_ret, get_state, now, modify, set_cache. simpl.
  destruct (permission_cache g !! user_id) as [cached|] eqn:Ec;
    [destruct (cache_timestamps g !! user_id) as [stamp|] eqn:Et|]; simpl.
  - case_bool_decide; simpl.
    + do 2 eexists. split; [reflexivity|]. simpl. rewrite Ec, Et.
      split; [done|]. split; [by eexists|]. split; [done|]. intros [?|?]; done.
    + do 2 eexists. split; [reflexivity|]. simpl. rewrite !lookup_insert_eq.
      split; [done|]. split; [by eexists|]. split; [done|]. intros [?|?]; done.
  - do 2 eexists. split; [reflexivity|]. simpl. rewrite !lookup_insert_eq.
    split; [done|]. split; [by eexists|]. done.
  - do 2 eexists. split; [reflexivity|]. simpl. rewrite !lookup_insert_eq.
    split; [done|]. split; [by eexists|]. done.
Qed.

(** X11. [get_user_permissions] always returns, leaves the returned set in
    the cache for the user, and changes nothing but the cache and the
    clock; for a user without a cache entry the set returned is the one the
    database grants. *)
Theorem get_user_permissions_caches (g : GovernanceSystem) (user_id : string) :
  ∃ ps g',
    get_user_permissions user_id g = (Ok ps, g') ∧
    permission_cache g' !! user_id = Some ps ∧
    is_Some (cache_timestamps g' !! user_id) ∧
    same_records g g' ∧
    (permission_cache g !! user_id = None ∨ cache_timestamps g !! user_id = None →
     ps = query_permissions (db g) user_id).
Proof. apply get_user_permissions_post. Qed.

Lemma find_assignment_Some user_id role_id d row :
  find_assignment user_id role_id d = Some row →
  row ∈ tbl_user_roles d ∧ ur_user_id row = user_id ∧ ur_role_id row = role_id.
Proof.
  unfold find_assignment. intros H. apply find_some in H as [Hin Hb].
  apply bool_decide_eq_true in Hb as [? ?]. split; [by apply list_elem_of_In | done].
Qed.

Lemma find_snoc {A} (f : A → bool) (l : list A) (x : A) :
  find f l = None → f x = true → find f (l ++ [x]) = Some x.
Proof.
  induction l as [|a l IH]; simpl; intros Hn Hx; [by rewrite Hx|].
  destruct (f a); [done | by apply IH].
Qed.

(** X12. [revoke_role] never raises. Without a matching assignment it
    changes nothing; with one, it removes the pair of user and role from
    the assignments and drops the cache entry of the user, so that the next
    [get_user_permissions] returns what the database grants after the
    revocation, not a cached set. *)
Theorem revoke_role_invalidates (g : GovernanceSystem) (user_id role_id : string) :
  ∃ g1,
    revoke_role user_id role_id g = (Ok (), g1) ∧
    (find_assignment user_id role_id (db g) = None → g1 = g) ∧
    (is_Some (find_assignment user_id role_id (db g)) →
     tbl_user_roles (db g1)
       = filter (λ ur, ¬ (ur_user_id ur = user_id ∧ ur_role_id ur = role_id))
                (tbl_user_roles (db g)) ∧
     ∃ g2, get_user_permissions user_id g1
             = (Ok (query_permissions (db g1) user_id), g2)).
Proof.
  unfold revoke_role. unfold mbind at 1. unfold M_bind at 1. unfold get_state at 1.
  cbv beta iota.
  destruct (find_assignment user_id role_id (db g)) as [row|] eqn:E.
  - destruct (find_assignment_Some _ _ _ _ E) as (_ & Hu & Hr).
    eexists. split; [reflexivity|]. split; [done|]. intros _.
    simpl. rewrite Hu, Hr. split; [by apply list_filter_iff|].
    match goal with |- ∃ g2, get_user_permissions _ ?g1 = _ =>
      destruct (get_user_permissions_post g1 user_id) as (ps & g2 & Hget & _ & _ & _ & Hq)
    end.
    exists g2. rewrite Hget. f_equal. f_equal. apply Hq. left. simpl.
    apply lookup_delete_eq.
  - eexists. split; [reflexivity|]. split; [done|]. by intros [? ?].
Qed.

(** X13. [assign_role] never raises and returns a row for the pair of user
    and role that is in the table afterwards; an assignment that exists is
    returned as it is, with nothing changed, so that assigning again after
    a first assignment changes nothing; a new assignment drops the cache
    entry of the user. *)
Theorem assign_role_idempotent (g : GovernanceSystem) (user_id role_id : string)
    (assigned_by : option string) :
  ∃ row g1,
    assign_role user_id role_id assigned_by g = (Ok row, g1) ∧
    row ∈ tbl_user_roles (db g1) ∧
    ur_user_id row = user_id ∧ ur_role_id row = role_id ∧
    (is_Some (find_assignment user_id role_id (db g)) → g1 = g) ∧
    (find_assignment user_id role_id (db g) = None →
     permission_cache g1 !! user_id = None) ∧
    (∀ again, assign_role user_id role_id again g1 = (Ok row, g1)).
Proof.
  unfold assign_role. unfold mbind at 1. unfold M_bind at 1. unfold get_state at 1.
  cbv beta iota.
  destruct (find_assignment user_id role_id (db g)) as [row|] eqn:E.
  - destruct (find_assignment_Some _ _ _ _ E) as (Hin & Hu & Hr).
    exists row, g. split; [reflexivity|]. split; [done|]. split; [done|].
    split; [done|]. split; [done|]. split; [done|].
    intros again. unfold mbind, M_bind, get_state. by rewrite E.
  - do 2 eexists. split; [reflexivity|]. simpl.
    split; [apply elem_of_app; right; by apply list_elem_of_singleton|].
    split; [done|]. split; [done|]. split; [by intros [? ?]|].
    split; [intros _; apply lookup_delete_eq|].
    intros again. unfold mbind, M_bind, get_state. simpl.
    unfold find_assignment in *. simpl. rewrite (find_snoc _ _ _ E); [done|].
    by apply bool_decide_eq_true.
Qed.

Lemma add_default_role_exists d role perms id :
  existsb (λ r, String.eqb (role_id r) id) (tbl_roles d) = true →
  existsb (λ r, String.eqb (role_id r) id)
          (tbl_roles (add_default_role d (role, perms))) = true.
Proof.
  intros H. unfold add_default_role.
  destruct (existsb (λ r, String.eqb (role_id r) (role_id role)) (tbl_roles d));
    [done|]. simpl.
  rewrite existsb_app, H. done.
Qed.

Lemma add_default_role_added d role perms :
  existsb (λ r, String.eqb (role_id r) (role_id role))
          (tbl_roles (add_default_role d (role, perms))) = true.
Proof.
  unfold add_default_role.
  destruct (existsb (λ r, String.eqb (role_id r) (role_id role)) (tbl_roles d)) eqn:E;
    [done|]. simpl.
  rewrite existsb_app. simpl. rewrite String.eqb_refl. by rewrite orb_true_r.
Qed.

Lemma seed_roles_exists (l : list (Role * list Permission)) d id :
  existsb (λ r, String.eqb (role_id r) id) (tbl_roles d) = true →
  existsb (λ r, String.eqb (role_id r) id)
          (tbl_roles (foldl add_default_role d l)) = true.
Proof.
  revert d. induction l as [|[role perms] l IH]; intros d H; simpl; [done|].
  by apply IH, add_default_role_exists.
Qed.

Lemma seed_roles_added (l : list (Role * list Permission)) d x :
  x ∈ l →
  existsb (λ r, String.eqb (role_id r) (role_id x.1))
          (tbl_roles (foldl add_default_role d l)) = true.
Proof.
  revert d. induction l as [|[role perms] l IH]; intros d Hin; simpl.
  - by apply elem_of_nil in Hin.
  - apply elem_of_cons in Hin as [->|Hin]; [|by apply IH].
    apply seed_roles_exists, add_default_role_added.
Qed.

Lemma seed_roles_fixed (l : list (Role * list Permission)) d :
  (∀ x, x ∈ l →
        existsb (λ r, String.eqb (role_id r) (role_id x.1)) (tbl_roles d) = true) →
  foldl add_default_role d l = d.
Proof.
  induction l as [|[role perms] l IH]; intros H; [done|].
  change (foldl add_default_role d ((role, perms) :: l))
    with (foldl add_default_role (add_default_role d (role, perms)) l).
  assert (add_default_role d (role, perms) = d) as ->.
  { unfold add_default_role. specialize (H (role, perms)). simpl in H.
    rewrite H; [done | left]. }
  apply IH. intros x Hx. apply H. by right.
Qed.

Lemma seed_roles_keeps (l : list (Role * list Permission)) d :
  tbl_roles d `prefix_of` tbl_roles (foldl add_default_role d l) ∧
  tbl_role_permissions d `prefix_of` tbl_role_permissions (foldl add_default_role d l) ∧
  tbl_user_roles (foldl add_default_role d l) = tbl_user_roles d ∧
  tbl_audit_logs (foldl add_default_role d l) = tbl_audit_logs d ∧
  tbl_policies (foldl add_default_role d l) = tbl_policies d ∧
  ∀ rp, rp ∈ tbl_role_permissions (foldl add_default_role d l) →
        rp ∈ tbl_role_permissions d ∨
        existsb (λ r, String.eqb (role_id r) (rp_role_id rp)) (tbl_roles d) = false.
Proof.
  revert d. induction l as [|[role perms] l IH]; intros d.
  - simpl. repeat split; try done. intros rp ?. by left.
  - change (foldl add_default_role d ((role, perms) :: l))
      with (foldl add_default_role (add_default_role d (role, perms)) l).
    destruct (IH (add_default_role d (role, perms))) as (Hr & Hp & Hu & Ha & Hs & Hnew).
    unfold add_default_role in *.
    destruct (existsb (λ r, String.eqb (role_id r) (role_id role)) (tbl_roles d)) eqn:E.
    + done.
    + simpl in *. split; [etrans; [|exact Hr]; by apply prefix_app_r|].
      split; [etrans; [|exact Hp]; by apply prefix_app_r|].
      split; [done|]. split; [done|]. split; [done|].
      intros rp Hin. destruct (Hnew rp Hin) as [Hold|Hfresh].
      * apply elem_of_app in Hold as [?|Hmade]; [by left|]. right.
        apply list_elem_of_fmap in Hmade as (q & -> & _). done.
      * right. rewrite existsb_app in Hfresh. by apply orb_false_iff in Hfresh as [? _].
Qed.

(** X14. Seeding the default roles is idempotent; it keeps every role and
    every role permission that it finds, touches no other table, and gives
    permissions only to roles that did not exist: a role that is already in
    the table under a default id keeps the permissions it had. *)
Theorem _initialize_default_roles_idempotent (d : Database) :
  _initialize_default_roles (_initialize_default_roles d) = _initialize_default_roles d ∧
  tbl_roles d `prefix_of` tbl_roles (_initialize_default_roles d) ∧
  tbl_role_permissions d `prefix_of` tbl_role_permissions (_initialize_default_roles d) ∧
  tbl_user_roles (_initialize_default_roles d) = tbl_user_roles d ∧
  tbl_audit_logs (_initialize_default_roles d) = tbl_audit_logs d ∧
  tbl_policies (_initialize_default_roles d) = tbl_policies d ∧
  ∀ rp, rp ∈ tbl_role_permissions (_initialize_default_roles d) →
        rp ∈ tbl_role_permissions d ∨
        existsb (λ r, String.eqb (role_id r) (rp_role_id rp)) (tbl_roles d) = false.
Proof.
  unfold _initialize_default_roles. split; [|apply seed_roles_keeps].
  apply seed_roles_fixed. intros x Hx. by apply seed_roles_added.
Qed.

(** ** Further properties of the governance coordinator *)

(** What the handler adds to an evaluation: the action and the violations
    are kept, [allowed] is set, and [requires_approval] is set for
    REQUIRE_APPROVAL alone. *)
Lemma enforce_policy_flags self policy_type context pr :
  enforce_policy self policy_type context = Ok pr →
  pr_allowed pr = Some (bool_decide (pr_action pr ∈ [ALLOW; LOG_ONLY; REDACT])) ∧
  default false (pr_requires_approval pr) = bool_decide (pr_action pr = REQUIRE_APPROVAL) ∧
  (pr_action pr = DENY → Exists (λ v, v_action v = DENY) (pr_violations pr)).
Proof.
  unfold enforce_policy.
  destruct (evaluate_policies self policy_type context) as [ev|e] eqn:E; simpl; [|done].
  intros [= <-].
  destruct (evaluate_policies_outcome _ _ _ _ E) as [_ HD].
  assert (Hreq : pr_requires_approval ev = None).
  { unfold evaluate_policies in E. destruct (policies self !! policy_type).
    - destruct (evaluate_rules _ _ _ _) as [[? ?]|]; simpl in E; [|done].
      by injection E as <-.
    - by injection E as <-. }
  destruct (pr_action ev) eqn:Ea; simpl; rewrite ?Hreq, ?Ea; simpl;
    (split; [done|]; split; [done|]); try done.
  intros _. by apply HD.
Qed.

Ltac run_bind H := unfold mbind at 1 in H; unfold M_bind at 1 in H; cbv beta iota in H.

(** The part of [authorize_action] that follows the permission check. *)
Ltac policy_path H pr Hpr :=
  unfold call_enforce_policy, record_policy_evaluation, lift in H;
  unfold mbind at 1 in H; unfold M_bind at 1 in H;
  unfold mbind at 1 in H; unfold M_bind at 1 in H;
  unfold modify at 1 in H; cbv beta iota in H;
  unfold mbind at 1 in H; unfold M_bind at 1 in H;
  unfold get_state at 1 in H; cbv beta iota in H;
  match type of H with
  | context [enforce_policy ?e ?t ?c] =>
      destruct (enforce_policy e t c) as [pr|?] eqn:Hpr
  end.

Lemma authorize_action_after_check
    (g1 : GovernanceSystem) (user_id action : string)
    (resource_type resource_id : option string)
    (full_context : gmap string value) (g' : GovernanceSystem)
    (r : result Authorization) :
  (policy_result ← call_enforce_policy
       (_map_action_to_policy_type action resource_type) full_context;
   _ ← log_event
         (if String.prefix "read" action then EV_DATA_ACCESS else DATA_MODIFICATION)
         user_id action resource_type resource_id (Some full_context)
         (Some (pr_violations policy_result));
   if negb (default true (pr_allowed policy_result)) then
     if default false (pr_requires_approval policy_result) then
       approval_id ← _queue_for_approval user_id action full_context policy_result;
       mret {| authorized := false;
               reason := Some "requires_approval";
               auth_message := "Action requires approval from authorized personnel";
               auth_approval_id := Some approval_id; auth_violations := None;
               auth_policy_result := None |}
     else
       mret {| authorized := false;
               reason := Some "policy_violation";
               auth_message := default "Action denied by policy" (pr_message policy_result);
               auth_approval_id := None;
               auth_violations := Some (pr_violations policy_result);
               auth_policy_result := None |}
   else
     mret {| authorized := true;
             reason := None;
             auth_message := "Action authorized";
             auth_approval_id := None; auth_violations := None;
             auth_policy_result := Some policy_result |}) g1 = (r, g') →
  match r with
  | Raise _ => db g' = db g1 ∧ approval_queue g' = approval_queue g1
  | Ok a =>
      (∃ entry, tbl_audit_logs (db g') = tbl_audit_logs (db g1) ++ [entry] ∧
                al_user_id entry = user_id ∧ al_action entry = action) ∧
      ((∃ pr, auth_policy_result a = Some pr ∧ authorized a = true ∧ reason a = None ∧
              pr_action pr ∈ [ALLOW; LOG_ONLY; REDACT] ∧
              approval_queue g' = approval_queue g1) ∨
       (∃ id req, reason a = Some "requires_approval" ∧ authorized a = false ∧
                  auth_approval_id a = Some id ∧
                  approval_queue g' = <[id := req]> (approval_queue g1) ∧
                  aq_status req = "pending" ∧ aq_user_id req = user_id ∧
                  aq_action req = action ∧
                  pr_action (aq_policy_result req) = REQUIRE_APPROVAL) ∨
       (∃ vs, reason a = Some "policy_violation" ∧ authorized a = false ∧
              auth_violations a = Some vs ∧
              Exists (λ v, v_action v = DENY) vs ∧
              approval_queue g' = approval_queue g1))
  end.
Proof.
  intros H. policy_path H pr Hpr.
  - destruct (enforce_policy_flags _ _ _ _ Hpr) as (Hallowed & Hreq & Hdeny).
    unfold log_event, _queue_for_approval, mbind, M_bind, mret, M_ret, now, new_uuid,
      modify, set_db, set_approval_queue in H.
    simpl in H. rewrite Hallowed, Hreq in H. simpl in H.
    destruct (pr_action pr) eqn:Ea; simpl in H; injection H as <- <-; simpl;
      (split; [eexists; split; [reflexivity|]; done|]).
    + left. exists pr. rewrite Ea. repeat split; try done. set_solver.
    + right. right. eexists. repeat split; try done. by apply Hdeny.
    + right. left. do 2 eexists. repeat split; try done.
    + left. exists pr. rewrite Ea. repeat split; try done. set_solver.
    + left. exists pr. rewrite Ea. repeat split; try done. set_solver.
  - simpl in H. injection H as <- <-. done.
Qed.

(** X15. Whenever [authorize_action] returns, it has appended exactly one
    audit entry, for this user and action, and it has returned one of four
    answers: [insufficient_permissions]; authorized, under a policy action
    ALLOW, LOG_ONLY or REDACT; [requires_approval], with a new pending
    request for this user and action under the returned id; or
    [policy_violation], with a matched DENY rule among the violations. Only
    the third touches the approval queue. *)
Theorem authorize_action_outcomes
    (g g' : GovernanceSystem) (user_id action : string)
    (resource_type resource_id : option string)
    (context : option (gmap string value)) (a : Authorization) :
  authorize_action user_id action resource_type resource_id context g = (Ok a, g') →
  (∃ entry, tbl_audit_logs (db g') = tbl_audit_logs (db g) ++ [entry] ∧
            al_user_id entry = user_id ∧ al_action entry = action) ∧
  ((reason a = Some "insufficient_permissions" ∧ authorized a = false ∧
    approval_queue g' = approval_queue g) ∨
   (∃ pr, auth_policy_result a = Some pr ∧ authorized a = true ∧ reason a = None ∧
          pr_action pr ∈ [ALLOW; LOG_ONLY; REDACT] ∧
          approval_queue g' = approval_queue g) ∨
   (∃ id req, reason a = Some "requires_approval" ∧ authorized a = false ∧
              auth_approval_id a = Some id ∧
              approval_queue g' = <[id := req]> (approval_queue g) ∧
              aq_status req = "pending" ∧ aq_user_id req = user_id ∧
              aq_action req = action ∧
              pr_action (aq_policy_result req) = REQUIRE_APPROVAL) ∨
   (∃ vs, reason a = Some "policy_violation" ∧ authorized a = false ∧
          auth_violations a = Some vs ∧
          Exists (λ v, v_action v = DENY) vs ∧
          approval_queue g' = approval_queue g)).
Proof.
  intros H. unfold authorize_action in H.
  run_bind H. change (now g) with (Ok (utcnow (clock_reads g)), snd (now g)) in H.
  cbv beta iota zeta in H.
  destruct (_map_action_to_permission action resource_type) as [permission|].
  - run_bind H. run_bind H.
    destruct (has_permission_frame user_id permission (snd (now g)))
      as (granted & g1 & Hp & Hdb & _ & Hq & _ & _).
    rewrite Hp in H. cbv beta iota in H. unfold mret at 1 in H. unfold M_ret at 1 in H.
    cbv beta iota in H. destruct granted; simpl negb in H; cbv beta iota in H.
    + apply authorize_action_after_check in H.
      rewrite Hdb, Hq in H. destruct H as [Haudit Hcases].
      split; [exact Haudit|]. right. exact Hcases.
    + unfold log_event, mbind, M_bind, mret, M_ret, now, new_uuid, modify, set_db in H.
      simpl in H. injection H as <- <-. simpl. rewrite Hdb, Hq. simpl.
      split; [eexists; split; [reflexivity|]; done|]. by left.
  - run_bind H. unfold mret at 1 in H. unfold M_ret at 1 in H. cbv beta iota in H.
    apply authorize_action_after_check in H.
    destruct H as [Haudit Hcases].
    split; [exact Haudit|]. right. exact Hcases.
Qed.

(** X16. When [authorize_action] raises (a rule of the policy type could
    not be evaluated), no audit entry has been written for the attempt and
    nothing has been queued. *)
Theorem authorize_action_raise_leaves_no_audit
    (g g' : GovernanceSystem) (user_id action : string)
    (resource_type resource_id : option string)
    (context : option (gmap string value)) (e : exn) :
  authorize_action user_id action resource_type resource_id context g = (Raise e, g') →
  db g' = db g ∧ approval_queue g' = approval_queue g.
Proof.
  intros H. unfold authorize_action in H.
  run_bind H. change (now g) with (Ok (utcnow (clock_reads g)), snd (now g)) in H.
  cbv beta iota zeta in H.
  destruct (_map_action_to_permission action resource_type) as [permission|].
  - run_bind H. run_bind H.
    destruct (has_permission_frame user_id permission (snd (now g)))
      as (granted & g1 & Hp & Hdb & _ & Hq & _ & _).
    rewrite Hp in H. cbv beta iota in H. unfold mret at 1 in H. unfold M_ret at 1 in H.
    cbv beta iota in H. destruct granted; simpl negb in H; cbv beta iota in H.
    + apply authorize_action_after_check in H.
      rewrite Hdb, Hq in H. exact H.
    + unfold log_event, mbind, M_bind, mret, M_ret, now, new_uuid, modify, set_db in H.
      simpl in H. done.
  - run_bind H. unfold mret at 1 in H. unfold M_ret at 1 in H. cbv beta iota in H.
    apply authorize_action_after_check in H. exact H.
Qed.

(** X17. [approve_action] never raises. A refused call (unknown id, or an
    approver without APPROVE_AI_DECISIONS) changes neither the approval
    queue nor the audit log; an accepted call appends exactly one audit
    entry, of type [ai_decision] and in the approver's name, and leaves the
    request with the decided status under its id. *)
Theorem approve_action_outcome (g : GovernanceSystem)
    (approval_id approver_user_id : string) (approved : bool) (comments : option string) :
  ∃ out g',
    approve_action approval_id approver_user_id approved comments g = (Ok out, g') ∧
    (success out = false →
     approval_queue g' = approval_queue g ∧
     tbl_audit_logs (db g') = tbl_audit_logs (db g)) ∧
    (success out = true →
     (∃ entry, tbl_audit_logs (db g') = tbl_audit_logs (db g) ++ [entry] ∧
               al_event_type entry = "ai_decision" ∧
               al_user_id entry = approver_user_id) ∧
     (∃ request, approval_queue g' !! approval_id = Some request ∧
                 aq_status request = (if approved then "approved" else "denied") ∧
                 aq_approver_user_id request = Some approver_user_id) ∧
     dom (approval_queue g') = dom (approval_queue g)).
Proof.
  unfold approve_action.
  unfold mbind at 1. unfold M_bind at 1. unfold get_state at 1. cbv beta iota.
  destruct (approval_queue g !! approval_id) as [request|] eqn:Eq.
  - destruct (has_permission_frame approver_user_id APPROVE_AI_DECISIONS g)
      as (granted & g1 & Hp & Hdb & _ & Hq & _ & _).
    unfold mbind at 1. unfold M_bind at 1. rewrite Hp. cbv beta iota.
    destruct granted; cbn [negb]; cbv beta iota.
    + unfold mbind at 1. unfold M_bind at 1. unfold get_state at 1. cbv beta iota.
      rewrite Hq, Eq.
      unfold log_event, mbind, M_bind, mret, M_ret, new_uuid, now, modify, set_db,
        set_approval_queue.
      simpl. do 2 eexists. split; [reflexivity|]. simpl. split; [done|]. intros _.
      rewrite Hdb, Hq. split; [eexists; split; [reflexivity|]; done|].
      split.
      * eexists. rewrite lookup_insert_eq. split; [reflexivity|]. done.
      * rewrite dom_insert_L. apply elem_of_dom_2 in Eq. set_solver.
    + do 2 eexists. split; [reflexivity|]. simpl. by rewrite Hdb, Hq.
  - do 2 eexists. split; [reflexivity|]. simpl. done.
Qed.

(** ** Further properties of parameter substitution *)

Lemma substring_prefix (a b : string) :
  String.substring 0 (String.length a) (a +:+ b) = a.
Proof. induction a as [|c a IH]; simpl; [by destruct b | by rewrite IH]. Qed.

Lemma length_append (a b : string) :
  String.length (a +:+ b) = (String.length a + String.length b)%nat.
Proof. induction a as [|c a IH]; simpl; [done | by rewrite IH]. Qed.

(** Python's [value[2:-1]] on [${name}] is [name]. *)
Lemma strip_placeholder_roundtrip (name : string) :
  strip_placeholder ("${" +:+ name +:+ "}") = name.
Proof.
  unfold strip_placeholder.
  rewrite !length_append.
  replace (String.length "${" + (String.length name + String.length "}") - 3)%nat
    with (String.length name) by (simpl; lia).
  generalize (String.length name) (substring_prefix name "}").
  intros n Hn. exact Hn.
Qed.

Lemma prefix_placeholder (rest : string) :
  String.prefix "${" ("${" +:+ rest) = true.
Proof.
  unfold String.append, String.prefix.
  repeat (destruct (Ascii.ascii_dec _ _); [|congruence]).
  by destruct rest.
Qed.

Lemma _substitute_variables_get (parameters : list (string * value))
    (ctx : WorkflowContext) (key : string) :
  dict_get key (_substitute_variables parameters ctx) =
    (λ v, match v with
          | VStr s =>
              if String.prefix "${" s
              then default v (variables ctx !! strip_placeholder s) else v
          | _ => v
          end) <$> dict_get key parameters.
Proof.
  unfold _substitute_variables.
  induction parameters as [|[k v] parameters IH]; [done|].
  rewrite map_cons.
  destruct v as [|b|z|s|l|d]; try (simpl; rewrite IH; by destruct (String.eqb key k)).
  destruct (String.prefix "${" s) eqn:Hp; simpl; rewrite IH;
    destruct (String.eqb key k); simpl; by rewrite ?Hp.
Qed.

(** X18. [_substitute_variables] keeps the keys of the parameters and their
    order. It replaces a parameter that is exactly [${name}] by
    [context.variables[name]] when the name is bound there and leaves it as
    it is otherwise; a value that is not a string, or a string that does not
    start with [${] (a placeholder inside a longer text included), is never
    changed. *)
Theorem _substitute_variables_whole_values (parameters : list (string * value))
    (ctx : WorkflowContext) :
  (_substitute_variables parameters ctx).*1 = parameters.*1 ∧
  (∀ key name v,
     dict_get key parameters = Some (VStr ("${" +:+ name +:+ "}")) →
     variables ctx !! name = Some v →
     dict_get key (_substitute_variables parameters ctx) = Some v) ∧
  (∀ key name,
     dict_get key parameters = Some (VStr ("${" +:+ name +:+ "}")) →
     variables ctx !! name = None →
     dict_get key (_substitute_variables parameters ctx)
       = Some (VStr ("${" +:+ name +:+ "}"))) ∧
  (∀ key v,
     dict_get key parameters = Some v →
     (∀ s, v = VStr s → String.prefix "${" s = false) →
     dict_get key (_substitute_variables parameters ctx) = Some v).
Proof.
  split; [|split; [|split]].
  - unfold _substitute_variables.
    induction parameters as [|[k v] parameters IH]; [done|].
    rewrite map_cons, !fmap_cons, IH.
    destruct v as [|b|z|s|l|d]; try done. by destruct (String.prefix "${" s).
  - intros key name v Hget Hvar. rewrite _substitute_variables_get, Hget.
    cbn [fmap option_fmap option_map].
    by rewrite prefix_placeholder, strip_placeholder_roundtrip, Hvar.
  - intros key name Hget Hvar. rewrite _substitute_variables_get, Hget.
    cbn [fmap option_fmap option_map].
    by rewrite prefix_placeholder, strip_placeholder_roundtrip, Hvar.
  - intros key v Hget Hplain. rewrite _substitute_variables_get, Hget. simpl.
    destruct v as [| | |s| |]; try done. by rewrite (Hplain s eq_refl).
Qed.

(** ** Further properties of the step dictionary *)

Lemma dict_get_dict_set {V} (k k' : string) (v : V) (d : list (string * V)) :
  dict_get k (dict_set k' v d) = if String.eqb k k' then Some v else dict_get k d.
Proof.
  induction d as [|[k0 v0] d IH]; simpl; [done|].
  destruct (String.eqb_spec k' k0) as [->|Hne]; simpl.
  - by destruct (String.eqb k k0).
  - destruct (String.eqb_spec k k0) as [->|Hne'].
    + destruct (String.eqb_spec k0 k'); [congruence | done].
    + done.
Qed.

Lemma find_app_last {A} (f : A → bool) (l : list A) (x : A) :
  find f (l ++ [x]) =
    match find f l with
    | Some y => Some y
    | None => if f x then Some x else None
    end.
Proof. induction l as [|a l IH]; simpl; [done|]. by destruct (f a). Qed.

(** X19. Two steps of a workflow with the same id: the dictionary of
    remaining steps holds, for each id, the last step of the definition
    that carries it; the earlier ones are dropped without a word. *)
Theorem steps_by_id_last_wins (l : list WorkflowStep) (k : string) :
  dict_get k (steps_by_id l) = find (λ s, String.eqb k (ws_id s)) (rev l).
Proof.
  unfold steps_by_id.
  assert (H : ∀ acc : list (string * WorkflowStep),
            dict_get k (foldl (λ d step, dict_set (ws_id step) step d) acc l)
            = match find (λ s, String.eqb k (ws_id s)) (rev l) with
              | Some s => Some s
              | None => dict_get k acc
              end).
  { induction l as [|x l IH]; intros acc; simpl; [done|].
    rewrite IH, find_app_last, dict_get_dict_set.
    destruct (find _ (rev l)); [done|]. by destruct (String.eqb k (ws_id x)). }
  rewrite H. by destruct (find _ (rev l)).
Qed.

(** ** Further properties of workflow runs *)

(** X20. The final status of the run of a fresh execution of a registered
    workflow. It is COMPLETED exactly when [completed_steps] holds the id
    of every step of the definition; it is PAUSED only if no step failed
    and some step is still remaining; it is FAILED only if a step failed or
    the readiness test itself raised. *)
Theorem execution_completes_iff_all_steps_completed
    (self : WorkflowEngine) (st : RunState) (workflow : WorkflowDefinition) :
  fresh st →
  workflows self !! we_workflow_id (execution st) = Some workflow →
  ∃ st',
    _execute_workflow self st = Some st' ∧
    (status (execution st') = COMPLETED ↔
       completed_steps (execution st') = list_to_set (ws_id <$> steps workflow)) ∧
    (status (execution st') = PAUSED →
       failed_steps (execution st') = ∅ ∧ remaining_steps st' ≠ []) ∧
    (status (execution st') = FAILED →
       failed_steps (execution st') ≠ ∅ ∨
       ∃ e, ready_steps (map snd (remaining_steps st')) (execution st') = Raise e).
Proof.
  intros Hfresh Ew.
  destruct (execute_workflow_end self st workflow (λ _ _, True) Hfresh Ew)
    as (st' & Hrun & F & Hcount & _ & _ & _ & _ & Hstatus); [done|].
  destruct (steps_by_id_wf (steps workflow)) as [Hkeys _].
  assert (Hall : ∀ k, k ∈ ws_id <$> steps workflow →
            k ∈ (remaining_steps st').*1 ∨ k ∈ le_step <$> step_log st').
  { intros k Hk. eapply accounted_cover; [done..|]. by apply steps_by_id_keys. }
  assert (Hfrom : ∀ e, e ∈ step_log st' → le_step e ∈ ws_id <$> steps workflow).
  { intros e He. apply steps_by_id_keys. by apply (rf_from _ _ F). }
  exists st'. split; [done|]. split; [split|split].
  - intros Hdone.
    assert (Hfin : final_status st' = COMPLETED).
    { destruct Hstatus as [[Hs _]|[Hs _]]; congruence. }
    destruct (final_status_cases st') as [[? _]|[(_ & Hfe & Hre)|[? _]]];
      [congruence| |congruence].
    apply set_eq. intros k. rewrite elem_of_list_to_set. split.
    + rewrite (rf_completed _ _ F), elem_of_list_to_set, elem_of_ok_ids.
      intros (e & He & <- & _). by apply Hfrom.
    + intros Hk. destruct (Hall k Hk) as [Hin|Hin].
      * rewrite Hre in Hin. by apply elem_of_nil in Hin.
      * apply list_elem_of_fmap in Hin as (e & -> & He).
        destruct (le_ok e) eqn:Hok.
        -- rewrite (rf_completed _ _ F), elem_of_list_to_set, elem_of_ok_ids. eauto.
        -- assert (Hbad : le_step e ∈ failed_steps (execution st')).
           { rewrite (rf_failed _ _ F), elem_of_list_to_set, elem_of_bad_ids. eauto. }
           rewrite Hfe in Hbad. by apply elem_of_empty in Hbad.
  - intros Hceq.
    assert (Hin : ∀ k, k ∈ ws_id <$> steps workflow →
              ∃ e, e ∈ step_log st' ∧ le_step e = k ∧ le_ok e = true).
    { intros k Hk. apply elem_of_ok_ids, (elem_of_list_to_set (C := gset string)).
      rewrite <- (rf_completed _ _ F), Hceq. by apply elem_of_list_to_set. }
    assert (Hre : remaining_steps st' = []).
    { destruct (remaining_steps st') as [|[k s] R] eqn:ER; [done|]. exfalso.
      assert (Hks : (k, s) ∈ remaining_steps st') by (rewrite ER; left).
      destruct (Hin k) as (e & He & Hid & _).
      { apply steps_by_id_keys, list_elem_of_fmap. exists (k, s).
        split; [done|]. by apply (rf_sub _ _ F). }
      apply (rf_gone _ _ F e He). rewrite Hid.
      apply list_elem_of_fmap. by exists (k, s). }
    assert (Hfe : failed_steps (execution st') = ∅).
    { apply set_eq. intros x. split; [|intros Hx; by apply elem_of_empty in Hx].
      rewrite (rf_failed _ _ F), elem_of_list_to_set, elem_of_bad_ids.
      intros (e1 & He1 & Hid1 & Hok1). exfalso.
      destruct (Hin (le_step e1) (Hfrom e1 He1)) as (e2 & He2 & Hid2 & Hok2).
      assert (e2 = e1); [|congruence].
      by apply (log_entry_unique _ _ _ (rf_nodup _ _ F)). }
    destruct Hstatus as [[_ [e He]]|[-> _]].
    + rewrite Hre in He. done.
    + destruct (final_status_cases st') as [[_ ?]|[(? & _)|(_ & _ & ?)]]; done.
  - intros Hp.
    destruct Hstatus as [[Hs _]|[Hs _]]; [congruence|].
    destruct (final_status_cases st') as [[? _]|[(? & _)|(_ & ? & ?)]];
      [congruence|congruence|done].
  - intros Hfl.
    destruct Hstatus as [[_ He]|[Hs _]]; [by right|].
    destruct (final_status_cases st') as [[_ ?]|[(? & _)|(? & _)]];
      [by left|congruence|congruence].
Qed.

(** X21. Dependencies are not validated. A step that names itself, or an
    id that no step of the workflow carries, among its dependencies never
    runs: it is still among the remaining steps when the run ends, it is in
    neither set, and the execution does not reach COMPLETED. *)
Theorem unmet_dependency_keeps_the_step_waiting
    (self : WorkflowEngine) (st : RunState) (workflow : WorkflowDefinition)
    (step : WorkflowStep) (dep : string) :
  fresh st →
  workflows self !! we_workflow_id (execution st) = Some workflow →
  (ws_id step, step) ∈ steps_by_id (steps workflow) →
  dep ∈ dependencies step →
  dep = ws_id step ∨ dep ∉ ws_id <$> steps workflow →
  ∃ st',
    _execute_workflow self st = Some st' ∧
    ws_id step ∈ (remaining_steps st').*1 ∧
    (ws_id step ∉ completed_steps (execution st') ∪ failed_steps (execution st')) ∧
    status (execution st') ≠ COMPLETED.
Proof.
  intros Hfresh Ew Hstep Hdep Hbad.
  destruct (execute_workflow_end self st workflow (λ _ _, True) Hfresh Ew)
    as (st' & Hrun & F & Hcount & _ & _ & _ & _ & Hstatus); [done|].
  destruct (steps_by_id_wf (steps workflow)) as [Hkeys _].
  assert (Hnolog : ∀ e, e ∈ step_log st' → le_step e ≠ ws_id step).
  { intros e He Hid.
    apply list_elem_of_split in He as (l1 & l2 & Hlog).
    destruct (rf_deps _ _ F l1 e l2 step dep Hlog) as (e' & He' & Hid' & _);
      [by rewrite Hid | done |].
    destruct Hbad as [->|Hno].
    - pose proof (rf_nodup _ _ F) as Hnd.
      rewrite Hlog, fmap_app in Hnd. apply NoDup_app in Hnd as (_ & Hnd & _).
      apply (Hnd (ws_id step)).
      + apply list_elem_of_fmap. by exists e'.
      + rewrite fmap_cons, Hid. left.
    - apply Hno. rewrite <- Hid'. apply steps_by_id_keys.
      apply (rf_from _ _ F). rewrite Hlog. apply elem_of_app. by left. }
  assert (Hrem : ws_id step ∈ (remaining_steps st').*1).
  { destruct (accounted_cover _ st' (ws_id step) Hkeys F Hcount) as [H|H]; [|done|].
    - apply list_elem_of_fmap. by exists (ws_id step, step).
    - apply list_elem_of_fmap in H as (e & Hid & He). by destruct (Hnolog e He). }
  exists st'. split; [done|]. split; [done|]. split.
  - rewrite elem_of_union, (rf_completed _ _ F), (rf_failed _ _ F).
    rewrite !elem_of_list_to_set, elem_of_ok_ids, elem_of_bad_ids.
    intros [(e & He & Hid & _)|(e & He & Hid & _)]; by apply (Hnolog e He).
  - destruct Hstatus as [[Hs _]|[Hs _]]; [congruence|]. rewrite Hs.
    destruct (final_status_cases st') as [[-> _]|[(_ & _ & Hre)|[-> _]]];
      [done| |done].
    rewrite Hre in Hrem. by apply elem_of_nil in Hrem.
Qed.

Lemma _execute_step_no_executor self step st :
  executors self (action_type step) = None →
  ∃ msg, fst (_execute_step self step st) = Raise (ValueError msg).
Proof.
  intros Hnone. unfold _execute_step. rewrite Hnone.
  unfold mbind, M_bind, wf_now, tick, modify, raise. simpl. eauto.
Qed.

(** X22. No executor registered for the action type of a step: the step
    raises [ValueError] when it is run and is never in [completed_steps];
    and if such a step has no dependencies and no conditions, the run of a
    fresh execution ends FAILED. *)
Theorem missing_executor_fails_the_execution
    (self : WorkflowEngine) (st : RunState) (workflow : WorkflowDefinition)
    (step : WorkflowStep) :
  fresh st →
  workflows self !! we_workflow_id (execution st) = Some workflow →
  (ws_id step, step) ∈ steps_by_id (steps workflow) →
  executors self (action_type step) = None →
  (∀ st0, ∃ msg, fst (_execute_step self step st0) = Raise (ValueError msg)) ∧
  ∃ st',
    _execute_workflow self st = Some st' ∧
    (ws_id step ∉ completed_steps (execution st')) ∧
    (dependencies step = [] → ws_conditions step = [] →
     status (execution st') = FAILED).
Proof.
  intros Hfresh Ew Hstep Hnone.
  split; [intros st0; by apply _execute_step_no_executor|].
  destruct (execute_workflow_end self st workflow
              (λ s ok, executors self (action_type s) = None → ok = false) Hfresh Ew)
    as (st' & Hrun & F & Hcount & Hlog & _ & _ & _ & Hstatus).
  { intros s st0 _ Hs. by destruct (_execute_step_no_executor self s st0 Hs) as [msg ->]. }
  destruct (steps_by_id_wf (steps workflow)) as [Hkeys _].
  assert (Hfails : ∀ e, e ∈ step_log st' → le_step e = ws_id step → le_ok e = false).
  { intros e He Hid. destruct (Hlog e He) as (s & Hs & HQ).
    assert (s = step) as ->; [|by apply HQ].
    rewrite Hid in Hs.
    apply (dict_get_elem _ _ _ Hkeys) in Hs, Hstep. congruence. }
  exists st'. split; [done|]. split.
  - rewrite (rf_completed _ _ F), elem_of_list_to_set, elem_of_ok_ids.
    intros (e & He & Hid & Hok). rewrite (Hfails e He Hid) in Hok. done.
  - intros Hdeps Hconds.
    destruct Hstatus as [[Hs _]|[Hs Hready]]; [done|]. rewrite Hs.
    destruct (accounted_cover _ st' (ws_id step) Hkeys F Hcount) as [Hin|Hin].
    + apply list_elem_of_fmap. by exists (ws_id step, step).
    + exfalso.
      assert (Hrem : (ws_id step, step) ∈ remaining_steps st').
      { apply list_elem_of_fmap in Hin as ([k s] & Hk & Hin). simpl in Hk. subst k.
        pose proof (rf_sub _ _ F _ _ Hin) as Hs0.
        apply (dict_get_elem _ _ _ Hkeys) in Hs0, Hstep.
        assert (s = step) as -> by congruence. done. }
      assert (Hnone' : step ∈ ([] : list WorkflowStep)); [|by apply elem_of_nil in Hnone'].
      apply (ready_steps_complete _ _ _ step Hready).
      * apply list_elem_of_In, in_map_iff. exists (ws_id step, step).
        split; [done|]. by apply list_elem_of_In.
      * unfold dependencies_met. by rewrite Hdeps.
      * unfold _check_step_conditions. by rewrite Hconds.
    + apply list_elem_of_fmap in Hin as (e & Hid & He).
      assert (Hbad : ws_id step ∈ failed_steps (execution st')).
      { rewrite (rf_failed _ _ F), elem_of_list_to_set, elem_of_bad_ids.
        exists e. split; [done|]. split; [done|]. by apply Hfails. }
      destruct (final_status_cases st') as [[? _]|[(_ & Hfe & _)|(_ & Hfe & _)]];
        [done|..]; rewrite Hfe in Hbad; by apply elem_of_empty in Hbad.
Qed.

(** A condition whose [step] entry is a list or a dictionary makes the
    membership test raise; any other condition is hashable. *)
Lemma in_completed_returns v e :
  match v with VList _ | VDict _ => False | _ => True end →
  ∃ b, in_completed v e = Ok b.
Proof. destruct v; simpl; intros H; try done; eauto. Qed.

Lemma check_conditions_returns conds e :
  (∀ cond, cond ∈ conds →
     match default VNone (dict_get "step" cond) with
     | VList _ | VDict _ => False
     | _ => True
     end) →
  ∃ b, check_conditions conds e = Ok b.
Proof.
  induction conds as [|cond conds IH]; intros H; simpl; [eauto|].
  destruct (in_completed_returns (default VNone (dict_get "step" cond)) e) as [b ->].
  { apply H. left. }
  simpl. destruct b; [|eauto]. apply IH. intros c Hc. apply H. by right.
Qed.

Lemma ready_steps_returns cands e :
  (∀ s cond, s ∈ cands → cond ∈ ws_conditions s →
     match default VNone (dict_get "step" cond) with
     | VList _ | VDict _ => False
     | _ => True
     end) →
  ∃ ready, ready_steps cands e = Ok ready.
Proof.
  induction cands as [|c cands IH]; intros H; simpl; [eauto|].
  destruct IH as [ready ->]. { intros s cond Hs. apply H. by right. }
  assert (∃ b, _check_step_conditions c e = Ok b) as [b Hb].
  { unfold _check_step_conditions.
    destruct (ws_conditions c) as [|c0 cs] eqn:Ec; [eauto|].
    apply check_conditions_returns. intros cond Hc. apply (H c); [left|].
    by rewrite Ec. }
  rewrite Hb. destruct (dependencies_met c e); simpl; eauto.
Qed.

(** [_execute_step] when the executor returns strictly before the
    timeout. *)
Lemma _execute_step_returns self step st executor r :
  executors self (action_type step) = Some executor →
  snd (executor (executor_calls st) step (context (execution st))) = Ok r →
  match timeout_seconds step with
  | Some t =>
      t = 0 ∨
      (0 < t ∧ fst (executor (executor_calls st) step (context (execution st))) < t)
  | None => True
  end →
  ∃ st1,
    _execute_step self step st = (Ok (), st1) ∧
    current_step (execution st1) = Some (ws_id step) ∧
    (∃ rt, step_runtime st1 !! ws_id step = Some rt ∧
           st_status rt = STEP_COMPLETED ∧ st_result rt = Some r ∧
           st_error rt = (step_runtime st !! ws_id step) ≫= st_error) ∧
    data (context (execution st1)) =
      (if sr_success r
       then foldl (λ m kv, <[fst kv := snd kv]> m) (data (context (execution st)))
                  (default [] (sr_data r))
       else data (context (execution st))).
Proof.
  intros Hex Hcall Htime. unfold _execute_step. rewrite Hex.
  unfold mbind, M_bind, wf_now, tick, modify, get_state, next_call. simpl.
  assert (Hout :
    match timeout_seconds step with
    | Some timeout =>
        if bool_decide (timeout ≠ 0)
        then wait_for (executor (executor_calls st) step (context (execution st))) timeout
        else snd (executor (executor_calls st) step (context (execution st)))
    | None => snd (executor (executor_calls st) step (context (execution st)))
    end = Ok r).
  { destruct (timeout_seconds step) as [t|]; [|done].
    case_bool_decide as Ht; [|done]. unfold wait_for.
    destruct Htime as [->|[Hpos Hlt]]; [done|].
    assert (Hgt : Z.max 0 (fst (executor (executor_calls st) step
                                  (context (execution st)))) < t) by lia.
    apply Z.leb_gt in Hgt. by rewrite Hgt. }
  rewrite Hout. simpl.
  destruct (sr_data r) as [d|] eqn:Ed; simpl.
  - destruct (sr_success r) eqn:Es; simpl.
    + case_bool_decide as Hd; simpl.
      * subst d. eexists. split; [reflexivity|]. simpl. split; [done|].
        split; [|done]. eexists. rewrite lookup_insert_eq. split; [reflexivity|].
        simpl. rewrite lookup_insert_eq. simpl. split; [done|]. split; [done|].
        by destruct (step_runtime st !! ws_id step).
      * eexists. split; [reflexivity|]. simpl. split; [done|].
        split; [|done]. eexists. rewrite lookup_insert_eq. split; [reflexivity|].
        simpl. rewrite lookup_insert_eq. simpl. split; [done|]. split; [done|].
        by destruct (step_runtime st !! ws_id step).
    + eexists. split; [reflexivity|]. simpl. split; [done|].
      split; [|done]. eexists. rewrite lookup_insert_eq. split; [reflexivity|].
      simpl. rewrite lookup_insert_eq. simpl. split; [done|]. split; [done|].
      by destruct (step_runtime st !! ws_id step).
  - eexists. split; [reflexivity|]. simpl. split; [done|].
    split; [|by destruct (sr_success r)]. eexists. rewrite lookup_insert_eq.
    split; [reflexivity|].
    simpl. rewrite lookup_insert_eq. simpl. split; [done|]. split; [done|].
    by destruct (step_runtime st !! ws_id step).
Qed.

(** X23. When every step of the workflow has an executor that returns,
    strictly before the step's timeout if it has one, and no condition
    names a list or a dictionary as its step, then no step fails: the run
    of a fresh execution ends COMPLETED or PAUSED with [failed_steps] empty,
    and every step that ran is in [completed_steps]. A call that lasts as
    long as the timeout, or longer, is not covered: it times out. *)
Theorem no_step_fails_when_executors_return
    (self : WorkflowEngine) (st : RunState) (workflow : WorkflowDefinition) :
  fresh st →
  workflows self !! we_workflow_id (execution st) = Some workflow →
  (∀ step, (ws_id step, step) ∈ steps_by_id (steps workflow) →
     (∃ executor,
        executors self (action_type step) = Some executor ∧
        ∀ n ctx,
          (∃ r, snd (executor n step ctx) = Ok r) ∧
          match timeout_seconds step with
          | Some t => t = 0 ∨ (0 < t ∧ fst (executor n step ctx) < t)
          | None => True
          end) ∧
     (∀ cond, cond ∈ ws_conditions step →
        match default VNone (dict_get "step" cond) with
        | VList _ | VDict _ => False
        | _ => True
        end)) →
  ∃ st',
    _execute_workflow self st = Some st' ∧
    failed_steps (execution st') = ∅ ∧
    status (execution st') ∈ [COMPLETED; PAUSED] ∧
    (∀ e, e ∈ step_log st' → le_step e ∈ completed_steps (execution st')).
Proof.
  intros Hfresh Ew Hsteps.
  destruct (execute_workflow_end self st workflow (λ _ ok, ok = true) Hfresh Ew)
    as (st' & Hrun & F & Hcount & Hlog & _ & _ & _ & Hstatus).
  { intros s st0 Hs. destruct (Hsteps s Hs) as [(executor & Hex & Hcall) _].
    destruct (Hcall (executor_calls st0) (context (execution st0))) as [[r Hr] Ht].
    by destruct (_execute_step_returns self s st0 executor r Hex Hr Ht) as (st1 & -> & _). }
  assert (Hfe : failed_steps (execution st') = ∅).
  { apply set_eq. intros x. split; [|intros Hx; by apply elem_of_empty in Hx].
    rewrite (rf_failed _ _ F), elem_of_list_to_set, elem_of_bad_ids.
    intros (e & He & _ & Hok). destruct (Hlog e He) as (_ & _ & Hq). congruence. }
  exists st'. split; [done|]. split; [done|]. split.
  - destruct Hstatus as [[_ [e He]]|[-> _]].
    + exfalso.
      destruct (ready_steps_returns (map snd (remaining_steps st')) (execution st'))
        as [ready Hr]; [|congruence].
      intros s cond Hs. apply list_elem_of_In, in_map_iff in Hs as ([k s'] & Heq & Hin).
      simpl in Heq. subst s'. apply list_elem_of_In in Hin.
      destruct (steps_by_id_wf (steps workflow)) as [_ Hids].
      pose proof (rf_sub _ _ F _ _ Hin) as Hin0.
      rewrite <- (Hids _ _ Hin0) in Hin0. by apply Hsteps.
    + destruct (final_status_cases st') as [[_ ?]|[(-> & _)|(-> & _)]];
        [done| |]; rewrite !elem_of_cons; tauto.
  - intros e He. rewrite (rf_completed _ _ F), elem_of_list_to_set, elem_of_ok_ids.
    exists e. split; [done|]. split; [done|]. by destruct (Hlog e He) as (_ & _ & Hq).
Qed.

(** X24. What a run never writes. On a fresh execution [_execute_workflow]
    leaves the execution's id, workflow id, start time and trigger as they
    are, and the variables of the context; no key of [context.data] is
    lost; no execution is registered and no id is drawn; and the id of the
    execution is no longer among the running ones. *)
Theorem execute_workflow_keeps_identity_and_variables
    (self : WorkflowEngine) (st : RunState) :
  fresh st →
  ∃ st',
    _execute_workflow self st = Some st' ∧
    we_id (execution st') = we_id (execution st) ∧
    we_workflow_id (execution st') = we_workflow_id (execution st) ∧
    we_started_at (execution st') = we_started_at (execution st) ∧
    triggered_by (execution st') = triggered_by (execution st) ∧
    variables (context (execution st')) = variables (context (execution st)) ∧
    dom (data (context (execution st))) ⊆ dom (data (context (execution st'))) ∧
    executions st' = executions st ∧
    wf_uuids_drawn st' = wf_uuids_drawn st ∧
    running_executions st' = running_executions st ∖ {[we_id (execution st)]}.
Proof.
  intros Hfresh.
  destruct (workflows self !! we_workflow_id (execution st)) as [workflow|] eqn:Ew.
  - destruct (execute_workflow_end self st workflow (λ _ _, True) Hfresh Ew)
      as (st' & Hrun & _ & _ & _ & _ & [Hi Hc Hd Hr _ _] & _); [done|].
    simpl in *. exists st'. split; [done|]. by simplify_eq.
  - exists (with_running (λ r, r ∖ {[we_id (execution st)]})
              (with_execution (set_status FAILED)
                 (with_running (λ r, r ∪ {[we_id (execution st)]}) st))).
    split.
    { unfold _execute_workflow. cbv zeta.
      assert (Hex : ∀ f, execution (with_running f st) = execution st) by done.
      by rewrite !Hex, Ew. }
    simpl. repeat (split; [done|]).
    apply set_eq. intros x. rewrite !elem_of_difference, elem_of_union. tauto.
Qed.

(** X25. The engine does not read [success] to decide on a step: a step
    whose executor returns [success = False], strictly before the timeout
    if the step has one, is recorded among the completed steps like any
    other, its status is COMPLETED and its result kept; only the context
    data is left as it was. *)
Theorem unsuccessful_step_counts_as_completed
    (self : WorkflowEngine) (step v : WorkflowStep) (st : RunState)
    (executor : StepExecutor) (r : StepResult) :
  executors self (action_type step) = Some executor →
  snd (executor (executor_calls st) step (context (execution st))) = Ok r →
  match timeout_seconds step with
  | Some t =>
      t = 0 ∨
      (0 < t ∧ fst (executor (executor_calls st) step (context (execution st))) < t)
  | None => True
  end →
  sr_success r = false →
  dict_get (ws_id step) (remaining_steps st) = Some v →
  ∃ st',
    run_step self step st = (Ok (), st') ∧
    completed_steps (execution st') = completed_steps (execution st) ∪ {[ws_id step]} ∧
    failed_steps (execution st') = failed_steps (execution st) ∧
    (∃ rt, step_runtime st' !! ws_id step = Some rt ∧
           st_status rt = STEP_COMPLETED ∧ st_result rt = Some r) ∧
    data (context (execution st')) = data (context (execution st)).
Proof.
  intros Hex Hcall Htime Hfalse Hget.
  destruct (_execute_step_returns self step st executor r Hex Hcall Htime)
    as (st1 & Hstep & _ & (rt & Hrt & Hst & Hres & _) & Hdata).
  rewrite Hfalse in Hdata.
  pose proof (_execute_step_keeps_books self step st _ _ Hstep)
    as (Hc & Hf & _ & Hr & _).
  unfold run_step. rewrite Hstep. cbv zeta.
  unfold pop_remaining, dict_pop. simpl. rewrite Hr, Hget. simpl.
  eexists. split; [reflexivity|]. simpl. rewrite Hc, Hf.
  split; [done|]. split; [done|]. split; [|done]. by exists rt.
Qed.

(** X26. A delay step sleeps for at most 300 seconds, whatever delay its
    configuration asks for, and reports the delay asked for, not the time
    slept: with integers (or booleans) in its configuration and a timeout,
    if any, of more than 300 seconds, the step returns and writes the full
    sum of the three delays to [context.data] under [delayed_seconds]. *)
Theorem delay_step_reports_the_delay_asked_for
    (self : WorkflowEngine) (step : WorkflowStep) (st : RunState) (s m h : Z) :
  executors self (action_type step) = Some DelayExecutor →
  as_number (default (VInt 0) (dict_get "delay_seconds" (config step))) = Some s →
  as_number (default (VInt 0) (dict_get "delay_minutes" (config step))) = Some m →
  as_number (default (VInt 0) (dict_get "delay_hours" (config step))) = Some h →
  match timeout_seconds step with
  | Some t => t = 0 ∨ 300 < t
  | None => True
  end →
  ∃ st1,
    _execute_step self step st = (Ok (), st1) ∧
    data (context (execution st1)) =
      <["delayed_seconds" := VInt (s + m * 60 + h * 3600)]>
        (data (context (execution st))) ∧
    fst (DelayExecutor (executor_calls st) step (context (execution st)))
      = Z.max 0 (Z.min (s + m * 60 + h * 3600) 300).
Proof.
  intros Hex Hs Hm Hh Htime.
  assert (Hcall : DelayExecutor (executor_calls st) step (context (execution st))
            = ((if 0 <? s + m * 60 + h * 3600
                then Z.min (s + m * 60 + h * 3600) 300 else 0),
               Ok {| sr_success := true;
                     sr_data := Some [("delayed_seconds", VInt (s + m * 60 + h * 3600))];
                     sr_other := [] |})).
  { unfold DelayExecutor. cbv zeta. by rewrite Hs, Hm, Hh. }
  assert (Hslept : fst (DelayExecutor (executor_calls st) step (context (execution st)))
            = Z.max 0 (Z.min (s + m * 60 + h * 3600) 300)).
  { rewrite Hcall. simpl. destruct (Z.ltb_spec 0 (s + m * 60 + h * 3600)); lia. }
  destruct (_execute_step_returns self step st DelayExecutor
              {| sr_success := true;
                 sr_data := Some [("delayed_seconds", VInt (s + m * 60 + h * 3600))];
                 sr_other := [] |} Hex)
    as (st1 & Hstep & _ & _ & Hdata).
  { by rewrite Hcall. }
  { destruct (timeout_seconds step) as [t|]; [|done].
    destruct Htime as [->|Ht]; [by left | right]. rewrite Hslept. lia. }
  exists st1. split; [done|]. split; [|done]. by rewrite Hdata.
Qed.

(** X27. [trigger_workflow] raises [ValueError] for an unknown workflow id
    and changes nothing. For a registered workflow it registers a new
    active execution that holds the caller's data and the workflow's
    variables; running that execution then always ends in COMPLETED,
    FAILED or PAUSED with the completion time set, the execution still
    registered and no longer marked as running. *)
Theorem trigger_then_execute (self : WorkflowEngine) (workflow_id : string)
    (context_data : gmap string value) (who : string) (st : RunState) :
  match workflows self !! workflow_id with
  | None =>
      trigger_workflow self workflow_id context_data who st
        = (Raise (ValueError ("Workflow '" +:+ workflow_id +:+ "' not found")), st)
  | Some workflow =>
      ∃ e st1 st2,
        trigger_workflow self workflow_id context_data who st = (Ok e, st1) ∧
        we_id e = uuid4 (wf_uuids_drawn st) ∧
        status e = ACTIVE ∧
        data (context e) = context_data ∧
        variables (context e) = wd_variables workflow ∧
        executions st1 = executions st ∪ {[we_id e]} ∧
        _execute_workflow self st1 = Some st2 ∧
        we_id (execution st2) = we_id e ∧
        status (execution st2) ∈ [COMPLETED; FAILED; PAUSED] ∧
        is_Some (we_completed_at (execution st2)) ∧
        we_id e ∈ executions st2 ∧
        (we_id e ∉ running_executions st2)
  end.
Proof.
  destruct (workflows self !! workflow_id) as [workflow|] eqn:Ew.
  - destruct (trigger_workflow self workflow_id context_data who st) as [r st1] eqn:Et.
    assert (∃ e, r = Ok e ∧ execution st1 = e ∧ fresh st1 ∧
                 we_workflow_id e = workflow_id ∧
                 we_id e = uuid4 (wf_uuids_drawn st) ∧
                 status e = ACTIVE ∧
                 data (context e) = context_data ∧
                 variables (context e) = wd_variables workflow ∧
                 executions st1 = executions st ∪ {[we_id e]})
      as (e & -> & He & Hfresh & Hw & Hid & Hact & Hdata & Hvars & Hreg).
    { unfold trigger_workflow in Et. rewrite Ew in Et.
      unfold mbind, M_bind, get_state, wf_now, tick, modify, mret, M_ret in Et.
      simpl in Et. injection Et as <- <-.
      eexists. split; [reflexivity|]. by repeat split. }
    destruct (execute_workflow_end self st1 workflow (λ _ _, True))
      as (st2 & Hrun & _ & _ & _ & Hdone & [Hi _ _ Hr _ _] & Hnr & Hstatus);
      [done | by rewrite He, Hw | done |].
    simpl in Hi, Hr. injection Hi as Hid2 _ _ _ _. injection Hr as Hreg2 _ _.
    rewrite He in Hid2, Hnr.
    exists e, st1, st2. repeat (split; [done|]).
    split.
    { destruct Hstatus as [[-> _]|[-> _]]; [rewrite !elem_of_cons; tauto|].
      destruct (final_status_cases st2) as [[-> _]|[(-> & _)|(-> & _)]];
        rewrite !elem_of_cons; tauto. }
    split; [done|]. split; [|done].
    rewrite Hreg2, Hreg. apply elem_of_union. right. by apply elem_of_singleton.
  - unfold trigger_workflow. by rewrite Ew.
Qed.

End Properties.

(** * Worked examples *)

Section Examples.
#[local] Existing Instance plain_runtime.

(** A pair is its first component, once computed, and its second. *)
Lemma pair_of_fst {A B} (p : A * B) (a : A) : fst p = a → p = (a, snd p).
Proof. destruct p. simpl. congruence. Qed.

(** ** Rule matching *)

(** C3, counterexample: the default rule [external_email_restriction] has a
    [not_in] condition on [email_domain]; it matches a context that has no
    [email_domain] key at all. *)
Lemma not_in_matches_without_the_key :
  ∃ rule,
    default_policies !! 2%nat = Some rule ∧
    rule_id rule = "external_email_restriction" ∧
    dict_get "email_domain" (conditions rule)
      = Some (VDict [("operator", VStr "not_in");
                     ("values", VList [VStr "company.com"])]) ∧
    after_hours_context !! "email_domain" = None ∧
    matches rule after_hours_context = Ok true.
Proof. eexists. split; [reflexivity|]. repeat split; vm_compute; reflexivity. Qed.

(** C3, witness: the [not_in] matcher of that rule, judged on the context
    without [email_domain]. *)
Lemma matches_judges_absent_keys_as_None_witness :
  after_hours_context !! "email_domain" = None ∧
  condition_holds
    (VDict [("operator", VStr "not_in"); ("values", VList [VStr "company.com"])])
    (default VNone (after_hours_context !! "email_domain"))
    = Ok (negb (existsb (py_eq VNone) [VStr "company.com"])).
Proof.
  split; [vm_compute; reflexivity|].
  apply (proj2 (matches_judges_absent_keys_as_None
                  (simple_rule "r" COMMUNICATION [] DENY 100) after_hours_context));
    vm_compute; reflexivity.
Defined.

(** ** Governance *)

(** C9, witness: the seeded engine has no SECURITY rules. *)
Lemma evaluate_policies_without_rules_witness :
  (policies (policy_engine example_governance) !! SECURITY = None ∨
   policies (policy_engine example_governance) !! SECURITY = Some []) ∧
  ∃ r, evaluate_policies (policy_engine example_governance) SECURITY after_hours_context
         = Ok r ∧
       pr_action r = ALLOW ∧ pr_violations r = [].
Proof.
  split; [left; vm_compute; reflexivity|].
  apply (evaluate_policies_without_rules (policy_engine example_governance) SECURITY
           after_hours_context).
  left. vm_compute. reflexivity.
Defined.

(** C4, witness: vera holds only the seeded role [viewer], which has
    READ_LEADS and not WRITE_LEADS, and asks to write a lead. *)
Lemma authorize_action_insufficient_permissions_witness :
  _map_action_to_permission "write" (Some "lead") = Some WRITE_LEADS ∧
  has_permission "vera" WRITE_LEADS (snd (now example_governance))
    = (Ok false, snd (has_permission "vera" WRITE_LEADS (snd (now example_governance)))) ∧
  ∃ a g' entry,
    authorize_action "vera" "write" (Some "lead") (Some "L1") None example_governance
      = (Ok a, g') ∧
    authorized a = false ∧
    reason a = Some "insufficient_permissions" ∧
    tbl_audit_logs (db g') = tbl_audit_logs (db example_governance) ++ [entry] ∧
    al_event_type entry = "permission_denied" ∧
    al_policy_violations entry = [] ∧
    policy_evaluations g' = policy_evaluations example_governance ∧
    approval_queue g' = approval_queue example_governance.
Proof.
  split; [reflexivity|].
  split; [apply pair_of_fst; vm_compute; reflexivity|].
  apply (authorize_action_insufficient_permissions example_governance
           (snd (has_permission "vera" WRITE_LEADS (snd (now example_governance))))
           "vera" "write" (Some "lead") (Some "L1") None WRITE_LEADS).
  - reflexivity.
  - apply pair_of_fst. vm_compute. reflexivity.
Defined.

(** C5, counterexample: the request is already approved by bob; carol's
    later [approve_action] on it succeeds and replaces status, approver
    and approval time. *)
Lemma second_approval_overwrites_the_first :
  queue_summary approved_by_bob "id-1" = Some ("approved", Some "bob", Some 5) ∧
  is_success (fst (approve_action "id-1" "carol" false None approved_by_bob)) = true ∧
  queue_summary (snd (approve_action "id-1" "carol" false None approved_by_bob)) "id-1"
    = Some ("denied", Some "carol", Some 8).
Proof. repeat split; vm_compute; reflexivity. Qed.

(** C5, witness: carol resolves again a request that bob has approved. *)
Lemma approve_action_overwrites_witness :
  approval_queue governance_with_resolved_request !! "a1" = Some resolved_request ∧
  has_permission "carol" APPROVE_AI_DECISIONS governance_with_resolved_request
    = (Ok true,
       snd (has_permission "carol" APPROVE_AI_DECISIONS governance_with_resolved_request)) ∧
  ∃ out g',
    approve_action "a1" "carol" false None governance_with_resolved_request = (Ok out, g') ∧
    success out = true ∧
    ao_approved out = Some false ∧
    approval_queue g' =
      <["a1" :=
          {| aq_approval_id := "a1"; aq_user_id := "alice"; aq_action := "read";
             aq_context := ∅;
             aq_policy_result := evaluation REQUIRE_APPROVAL [] None;
             aq_requested_at := 1; aq_status := "denied";
             aq_approver_user_id := Some "carol";
             aq_approved_at :=
               Some (utcnow (clock_reads
                 (snd (has_permission "carol" APPROVE_AI_DECISIONS
                         governance_with_resolved_request))));
             aq_comments := None |}]>
        (approval_queue governance_with_resolved_request).
Proof.
  split; [vm_compute; reflexivity|].
  split; [apply pair_of_fst; vm_compute; reflexivity|].
  apply (approve_action_overwrites governance_with_resolved_request
           (snd (has_permission "carol" APPROVE_AI_DECISIONS
                   governance_with_resolved_request))
           "a1" "carol" false None resolved_request).
  - vm_compute. reflexivity.
  - apply pair_of_fst. vm_compute. reflexivity.
Defined.

(** ** Workflow execution *)

(** C6, counterexample: step A times out and fails; step B, ready in the
    same round, still runs after it. The execution ends FAILED with C, which
    depends on A, never started. *)
Lemma a_step_starts_after_another_has_failed :
  fst (_execute_step example_engine step_A triggered) = Raise TimeoutError ∧
  run_summary <$> _execute_workflow example_engine triggered
    = Some (FAILED, [("A", false); ("B", true)], ["C"]).
Proof. split; vm_compute; reflexivity. Qed.

(** C6, witness: the run of the three steps. *)
Lemma failed_step_fails_the_execution_witness :
  fresh triggered ∧
  ∃ st',
    _execute_workflow example_engine triggered = Some st' ∧
    (∀ e, e ∈ step_log st' → le_ok e = false →
          le_step e ∈ failed_steps (execution st') ∧
          status (execution st') = FAILED ∧
          ∀ e' step, e' ∈ step_log st' →
                     (le_step e', step) ∈ workflow_steps example_engine triggered →
                     le_step e ∉ dependencies step) ∧
    (∀ k, k ∈ (workflow_steps example_engine triggered).*1 →
          k ∈ (remaining_steps st').*1 ∨ k ∈ le_step <$> step_log st') ∧
    ((∃ e, ready_steps (map snd (remaining_steps st')) (execution st') = Raise e) ∨
     (∀ k step, (k, step) ∈ workflow_steps example_engine triggered →
                (∀ dep, dep ∈ dependencies step →
                        dep ∈ completed_steps (execution st')) →
                _check_step_conditions step (execution st') = Ok true →
                k ∈ le_step <$> step_log st')) ∧
    (∀ ready,
       ready_steps (map snd (remaining_steps st')) (execution st') = Ok ready →
       ready = []).
Proof.
  split; [repeat split; vm_compute; reflexivity|].
  apply (failed_step_fails_the_execution example_engine triggered).
  repeat split; vm_compute; reflexivity.
Defined.



(** ** Further examples: policies *)

(** X2, witness: a stored policy with the priorities 30, 10 and 20, in
    that order; the loaded list has them as 10, 20 and 30. *)
Lemma _load_policies_sorted_witness :
  _load_policies layered_table ∅ = Ok loaded_layered ∧
  loaded_layered !! SECURITY = Some (default [] (loaded_layered !! SECURITY)) ∧
  rd_rule_id <$> (layered_table ≫= ps_rules) = ["mask"; "review"; "note"] ∧
  rule_id <$> default [] (loaded_layered !! SECURITY) = ["review"; "note"; "mask"] ∧
  Sorted (λ a b, priority a <= priority b)
         (default [] (loaded_layered !! SECURITY)).
Proof.
  split; [vm_compute; reflexivity|].
  split; [vm_compute; reflexivity|].
  split; [vm_compute; reflexivity|].
  split; [vm_compute; reflexivity|].
  apply (_load_policies_sorted layered_table ∅ loaded_layered SECURITY);
    vm_compute; reflexivity.
Defined.

(** X3, witness: a stored policy of type [billing]. *)
Lemma _load_policies_unknown_type_witness :
  unknown_type_policy ∈ [unknown_type_policy] ∧
  ps_is_active unknown_type_policy = true ∧
  PolicyType_of_value (ps_policy_type unknown_type_policy) = None ∧
  ∃ e, PolicyEngine_init [unknown_type_policy] = Raise e.
Proof.
  split; [left|]. split; [reflexivity|]. split; [vm_compute; reflexivity|].
  apply (_load_policies_unknown_type [unknown_type_policy] unknown_type_policy);
    [left | reflexivity | vm_compute; reflexivity].
Defined.

(** X5, witness: the seeded engine on a context with personal data. *)
Lemma evaluate_policies_allow_and_deny_witness :
  evaluate_policies (policy_engine example_governance) PRIVACY pii_context
    = Ok pii_result ∧
  (pr_action pii_result = ALLOW ↔
     Forall (λ v, v_action v = ALLOW) (pr_violations pii_result)) ∧
  (pr_action pii_result = DENY ↔
     Exists (λ v, v_action v = DENY) (pr_violations pii_result)).
Proof.
  split; [vm_compute; reflexivity|].
  apply (evaluate_policies_allow_and_deny (policy_engine example_governance) PRIVACY
           pii_context pii_result).
  vm_compute. reflexivity.
Defined.

(** X6, witness: three matched rules, REQUIRE_APPROVAL before LOG_ONLY
    and REDACT; the action returned is REQUIRE_APPROVAL. *)
Lemma evaluate_policies_most_restrictive_witness :
  evaluate_policies layered_engine SECURITY lead_request = Ok layered_result ∧
  v_action <$> pr_violations layered_result = [REQUIRE_APPROVAL; LOG_ONLY; REDACT] ∧
  approvals_come_first (v_action <$> pr_violations layered_result) = true ∧
  pr_action layered_result = REQUIRE_APPROVAL ∧
  pr_action layered_result
    = spec_most_restrictive (v_action <$> pr_violations layered_result).
Proof.
  split; [vm_compute; reflexivity|].
  split; [vm_compute; reflexivity|].
  split; [vm_compute; reflexivity|].
  split; [vm_compute; reflexivity|].
  apply (evaluate_policies_most_restrictive layered_engine SECURITY lead_request
           layered_result);
    vm_compute; reflexivity.
Defined.

(** X8, witness: the operator [equal], for [equals]. *)
Lemma condition_holds_unknown_operator_witness :
  dict_get "operator" [("operator", VStr "equal"); ("value", VStr "lead")]
    = Some (VStr "equal") ∧
  ("equal" ∉ ["equals"; "in"; "not_in"; "contains"; "regex"]) ∧
  condition_holds (VDict [("operator", VStr "equal"); ("value", VStr "lead")])
                  (VStr "account") = Ok true.
Proof.
  assert (Hop : "equal" ∉ ["equals"; "in"; "not_in"; "contains"; "regex"]).
  { apply (bool_decide_unpack _). vm_compute. exact I. }
  split; [reflexivity|]. split; [exact Hop|].
  apply (condition_holds_unknown_operator
           [("operator", VStr "equal"); ("value", VStr "lead")] "equal" (VStr "account"));
    [reflexivity | exact Hop].
Defined.

(** X9, witness: a rule with an [in] condition and no values. *)
Lemma matches_in_without_values_raises_witness :
  enabled in_without_values = true ∧
  conditions in_without_values = [("action", VDict [("operator", VStr "in")])] ∧
  dict_get "operator" [("operator", VStr "in")] = Some (VStr "in") ∧
  dict_get "values" [("operator", VStr "in")] = (None : option value) ∧
  dict_get "value" [("operator", VStr "in")] = (None : option value) ∧
  matches in_without_values after_hours_context = Raise TypeError.
Proof.
  repeat (split; [reflexivity|]).
  apply (matches_in_without_values_raises in_without_values "action"
           [("operator", VStr "in")] [] after_hours_context);
    [reflexivity | reflexivity | left; reflexivity | reflexivity | reflexivity].
Defined.

(** ** Further examples: authorization *)

(** X15, witness: vera's write of a lead, which returns. *)
Lemma authorize_action_outcomes_witness :
  ∃ a g',
    authorize_action "vera" "write" (Some "lead") (Some "L1") None example_governance
      = (Ok a, g') ∧
    (∃ entry, tbl_audit_logs (db g') = tbl_audit_logs (db example_governance) ++ [entry] ∧
              al_user_id entry = "vera" ∧ al_action entry = "write") ∧
    ((reason a = Some "insufficient_permissions" ∧ authorized a = false ∧
      approval_queue g' = approval_queue example_governance) ∨
     (∃ pr, auth_policy_result a = Some pr ∧ authorized a = true ∧ reason a = None ∧
            pr_action pr ∈ [ALLOW; LOG_ONLY; REDACT] ∧
            approval_queue g' = approval_queue example_governance) ∨
     (∃ id req, reason a = Some "requires_approval" ∧ authorized a = false ∧
                auth_approval_id a = Some id ∧
                approval_queue g' = <[id := req]> (approval_queue example_governance) ∧
                aq_status req = "pending" ∧ aq_user_id req = "vera" ∧
                aq_action req = "write" ∧
                pr_action (aq_policy_result req) = REQUIRE_APPROVAL) ∨
     (∃ vs, reason a = Some "policy_violation" ∧ authorized a = false ∧
            auth_violations a = Some vs ∧
            Exists (λ v, v_action v = DENY) vs ∧
            approval_queue g' = approval_queue example_governance)).
Proof.
  eexists _, _.
  split; [apply pair_of_fst; vm_compute; reflexivity|].
  apply (authorize_action_outcomes example_governance _ "vera" "write"
           (Some "lead") (Some "L1") None _).
  apply pair_of_fst. vm_compute. reflexivity.
Defined.

(** X16, witness: alice's read of a lead under the stored rule without
    values, which raises. *)
Lemma authorize_action_raise_leaves_no_audit_witness :
  ∃ e g',
    authorize_action "alice" "read" (Some "lead") (Some "L1") None broken_governance
      = (Raise e, g') ∧
    db g' = db broken_governance ∧
    approval_queue g' = approval_queue broken_governance.
Proof.
  eexists _, _.
  split; [apply pair_of_fst; vm_compute; reflexivity|].
  eapply (authorize_action_raise_leaves_no_audit broken_governance _ "alice" "read"
            (Some "lead") (Some "L1") None).
  apply pair_of_fst. vm_compute. reflexivity.
Defined.

(** ** Further examples: workflow runs *)

(** X20, witness: the run of the two delays. *)
Lemma execution_completes_iff_all_steps_completed_witness :
  fresh delays_triggered ∧
  workflows delay_engine !! we_workflow_id (execution delays_triggered) = Some two_delays ∧
  ∃ st',
    _execute_workflow delay_engine delays_triggered = Some st' ∧
    (status (execution st') = COMPLETED ↔
       completed_steps (execution st') = list_to_set (ws_id <$> steps two_delays)) ∧
    (status (execution st') = PAUSED →
       failed_steps (execution st') = ∅ ∧ remaining_steps st' ≠ []) ∧
    (status (execution st') = FAILED →
       failed_steps (execution st') ≠ ∅ ∨
       ∃ e, ready_steps (map snd (remaining_steps st')) (execution st') = Raise e).
Proof.
  split; [repeat split; vm_compute; reflexivity|].
  split; [vm_compute; reflexivity|].
  apply (execution_completes_iff_all_steps_completed delay_engine delays_triggered
           two_delays).
  - repeat split; vm_compute; reflexivity.
  - vm_compute. reflexivity.
Defined.

(** X21, witness: the workflow whose only step waits for itself. *)
Lemma unmet_dependency_keeps_the_step_waiting_witness :
  fresh stuck_triggered ∧
  workflows delay_engine !! we_workflow_id (execution stuck_triggered) = Some stuck ∧
  (ws_id waits_for_itself, waits_for_itself) ∈ steps_by_id (steps stuck) ∧
  "loop" ∈ dependencies waits_for_itself ∧
  ∃ st',
    _execute_workflow delay_engine stuck_triggered = Some st' ∧
    ws_id waits_for_itself ∈ (remaining_steps st').*1 ∧
    (ws_id waits_for_itself
       ∉ completed_steps (execution st') ∪ failed_steps (execution st')) ∧
    status (execution st') ≠ COMPLETED.
Proof.
  split; [repeat split; vm_compute; reflexivity|].
  split; [vm_compute; reflexivity|].
  split; [left|]. split; [left|].
  apply (unmet_dependency_keeps_the_step_waiting delay_engine stuck_triggered stuck
           waits_for_itself "loop").
  - repeat split; vm_compute; reflexivity.
  - vm_compute. reflexivity.
  - left.
  - left.
  - left. reflexivity.
Defined.

(** X22, witness: the lead-qualification workflow on an engine without a
    tools library; its first step is an AI tool step without
    dependencies. *)
Lemma missing_executor_fails_the_execution_witness :
  fresh lead_triggered ∧
  workflows engine_without_tools !! we_workflow_id (execution lead_triggered)
    = Some lead_qualification ∧
  (ws_id enrich_lead, enrich_lead) ∈ steps_by_id (steps lead_qualification) ∧
  executors engine_without_tools (action_type enrich_lead) = None ∧
  (∀ st0, ∃ msg,
     fst (_execute_step engine_without_tools enrich_lead st0) = Raise (ValueError msg)) ∧
  ∃ st',
    _execute_workflow engine_without_tools lead_triggered = Some st' ∧
    (ws_id enrich_lead ∉ completed_steps (execution st')) ∧
    (dependencies enrich_lead = [] → ws_conditions enrich_lead = [] →
     status (execution st') = FAILED).
Proof.
  split; [repeat split; vm_compute; reflexivity|].
  split; [vm_compute; reflexivity|].
  split; [left|]. split; [reflexivity|].
  apply (missing_executor_fails_the_execution engine_without_tools lead_triggered
           lead_qualification enrich_lead).
  - repeat split; vm_compute; reflexivity.
  - vm_compute. reflexivity.
  - left.
  - reflexivity.
Defined.

(** X24, witness: the run of the three steps. *)
Lemma execute_workflow_keeps_identity_and_variables_witness :
  fresh triggered ∧
  ∃ st',
    _execute_workflow example_engine triggered = Some st' ∧
    we_id (execution st') = we_id (execution triggered) ∧
    we_workflow_id (execution st') = we_workflow_id (execution triggered) ∧
    we_started_at (execution st') = we_started_at (execution triggered) ∧
    triggered_by (execution st') = triggered_by (execution triggered) ∧
    variables (context (execution st')) = variables (context (execution triggered)) ∧
    dom (data (context (execution triggered))) ⊆ dom (data (context (execution st'))) ∧
    executions st' = executions triggered ∧
    wf_uuids_drawn st' = wf_uuids_drawn triggered ∧
    running_executions st' = running_executions triggered ∖ {[we_id (execution triggered)]}.
Proof.
  split; [repeat split; vm_compute; reflexivity|].
  apply (execute_workflow_keeps_identity_and_variables example_engine triggered).
  repeat split; vm_compute; reflexivity.
Defined.

(** X25, witness: the first step of the lead-qualification workflow, with
    a tool that leaves no result. *)
Lemma unsuccessful_step_counts_as_completed_witness :
  executors silent_engine (action_type enrich_lead) = Some (AIToolExecutor silent_tool) ∧
  snd (AIToolExecutor silent_tool (executor_calls lead_run) enrich_lead
         (context (execution lead_run)))
    = Ok {| sr_success := false; sr_data := None;
            sr_other := [("execution_id", VStr "t")] |} ∧
  timeout_seconds enrich_lead = None ∧
  dict_get (ws_id enrich_lead) (remaining_steps lead_run) = Some enrich_lead ∧
  ∃ st',
    run_step silent_engine enrich_lead lead_run = (Ok (), st') ∧
    completed_steps (execution st')
      = completed_steps (execution lead_run) ∪ {[ws_id enrich_lead]} ∧
    failed_steps (execution st') = failed_steps (execution lead_run) ∧
    (∃ rt, step_runtime st' !! ws_id enrich_lead = Some rt ∧
           st_status rt = STEP_COMPLETED ∧
           st_result rt = Some {| sr_success := false; sr_data := None;
                                  sr_other := [("execution_id", VStr "t")] |}) ∧
    data (context (execution st')) = data (context (execution lead_run)).
Proof.
  split; [reflexivity|]. split; [vm_compute; reflexivity|].
  split; [reflexivity|]. split; [vm_compute; reflexivity|].
  apply (unsuccessful_step_counts_as_completed silent_engine enrich_lead enrich_lead
           lead_run (AIToolExecutor silent_tool)
           {| sr_success := false; sr_data := None;
              sr_other := [("execution_id", VStr "t")] |}).
  - reflexivity.
  - vm_compute. reflexivity.
  - exact I.
  - reflexivity.
  - vm_compute. reflexivity.
Defined.

(** X26, witness: a step that asks for 24 hours and 30 minutes under a
    timeout of 600 seconds; the call sleeps 300 seconds and the step
    reports 88200. *)
Lemma delay_step_reports_the_delay_asked_for_witness :
  executors delay_engine (action_type long_wait) = Some DelayExecutor ∧
  as_number (default (VInt 0) (dict_get "delay_minutes" (config long_wait))) = Some 30 ∧
  as_number (default (VInt 0) (dict_get "delay_hours" (config long_wait))) = Some 24 ∧
  timeout_seconds long_wait = Some 600 ∧
  ∃ st1,
    _execute_step delay_engine long_wait delays_triggered = (Ok (), st1) ∧
    data (context (execution st1)) =
      <["delayed_seconds" := VInt (0 + 30 * 60 + 24 * 3600)]>
        (data (context (execution delays_triggered))) ∧
    fst (DelayExecutor (executor_calls delays_triggered) long_wait
           (context (execution delays_triggered)))
      = Z.max 0 (Z.min (0 + 30 * 60 + 24 * 3600) 300).
Proof.
  split; [reflexivity|]. split; [reflexivity|]. split; [reflexivity|].
  split; [reflexivity|].
  apply (delay_step_reports_the_delay_asked_for delay_engine long_wait
           delays_triggered 0 30 24).
  - reflexivity.
  - reflexivity.
  - reflexivity.
  - reflexivity.
  - right. reflexivity.
Defined.

(** X23, witness: two delays; the second sleeps 30 seconds under a
    timeout of 60 and has a condition on the first. *)
Lemma no_step_fails_when_executors_return_witness :
  fresh timed_triggered ∧
  workflows timed_engine !! we_workflow_id (execution timed_triggered)
    = Some timed_delays ∧
  timeout_seconds timed_wait = Some 60 ∧
  (∀ n ctx, fst (DelayExecutor n timed_wait ctx) = 30) ∧
  ∃ st',
    _execute_workflow timed_engine timed_triggered = Some st' ∧
    failed_steps (execution st') = ∅ ∧
    status (execution st') ∈ [COMPLETED; PAUSED] ∧
    (∀ e, e ∈ step_log st' → le_step e ∈ completed_steps (execution st')).
Proof.
  split; [repeat split; vm_compute; reflexivity|].
  split; [vm_compute; reflexivity|].
  split; [reflexivity|].
  split; [intros n ctx; reflexivity|].
  apply (no_step_fails_when_executors_return timed_engine timed_triggered timed_delays).
  - repeat split; vm_compute; reflexivity.
  - vm_compute. reflexivity.
  - intros step Hin.
    assert (Hstep : step = wait_initial ∨ step = timed_wait).
    { apply elem_of_cons in Hin as [Heq|Hin]; [left; congruence|].
      apply elem_of_cons in Hin as [Heq|Hin]; [right; congruence|].
      by apply elem_of_nil in Hin. }
    destruct Hstep as [-> | ->].
    + split.
      * exists DelayExecutor. split; [reflexivity|]. intros n ctx.
        split; [eexists; reflexivity | exact I].
      * intros cond Hc. by apply elem_of_nil in Hc.
    + split.
      * exists DelayExecutor. split; [reflexivity|]. intros n ctx.
        split; [eexists; reflexivity|].
        right. split; reflexivity.
      * intros cond Hc. apply list_elem_of_singleton in Hc as ->. exact I.
Defined.

End Examples.
